(** * Markdown indexer and equation resolver of the LaTeX theorem/equation
      referencer: a shallow embedding and its verified properties.

    The embedding follows [markdownImport] and its helpers (section builder,
    block classifier, callout math extractor, page assembler) and the two
    equation-number renderers (live preview and reading view). *)

From Stdlib Require Import List ZArith Lia Bool Ascii Arith Sorted.
From Stdlib Require String.
Import ListNotations.
Import String.StringSyntax.
Local Open Scope string_scope.
Local Open Scope list_scope.
Local Open Scope nat_scope.


(* ================================================================== *)
(** * JavaScript strings and arrays *)
(* ================================================================== *)

(** A JavaScript string is modelled as the list of its code units, each
    kept in one character. *)
Definition str : Type := list ascii.

Definition lit (s : String.string) : str := String.list_ascii_of_string s.

(** [a === b] on strings *)
Fixpoint str_eqb (a b : str) : bool :=
  match a, b with
  | [], [] => true
  | x :: a', y :: b' => Ascii.eqb x y && str_eqb a' b'
  | _, _ => false
  end.

Definition nl : ascii := ascii_of_nat 10.

(** The characters removed by [String.prototype.trim] and matched by the
    regular-expression class [\s] (those that fit in one code unit below
    256): tab, line feed, vertical tab, form feed, carriage return, space
    and no-break space. *)
Definition isWhite (c : ascii) : bool :=
  let n := nat_of_ascii c in
  (n =? 9) || (n =? 10) || (n =? 11) || (n =? 12) || (n =? 13)
  || (n =? 32) || (n =? 160).

(** The characters the regular-expression dot does not match. *)
Definition isLineTerminator (c : ascii) : bool :=
  let n := nat_of_ascii c in (n =? 10) || (n =? 13).

Fixpoint trimStart (s : str) : str :=
  match s with
  | [] => []
  | c :: r => if isWhite c then trimStart r else s
  end.

Definition trimEnd (s : str) : str := rev (trimStart (rev s)).

Definition trim (s : str) : str := trimEnd (trimStart s).

(** A string that neither starts nor ends with a white-space character. *)
Definition trimmed (s : str) : Prop :=
  (forall c r, s = c :: r -> isWhite c = false)
  /\ (forall c r, s = r ++ [c] -> isWhite c = false).

(** [t] is what trimming leaves of [s]: [s] is [t] between two runs of
    white-space characters, and [t] neither starts nor ends with one. *)
Definition TrimOf (s t : str) : Prop :=
  exists pre post,
    s = pre ++ t ++ post
    /\ Forall (fun c => isWhite c = true) pre
    /\ Forall (fun c => isWhite c = true) post
    /\ trimmed t.

(** [s.split("\n")] *)
Fixpoint split_nl (s : str) : list str :=
  match s with
  | [] => [[]]
  | c :: r =>
      if Ascii.eqb c nl then [] :: split_nl r
      else match split_nl r with
           | l :: ls => (c :: l) :: ls
           | [] => [[c]]
           end
  end.

(** [ls.join("\n")] *)
Fixpoint join_nl (ls : list str) : str :=
  match ls with
  | [] => []
  | [l] => l
  | l :: r => l ++ nl :: join_nl r
  end.

(** [ls] are the lines of [s]: at least one, none with a line feed, and
    [s] is these lines with a line feed between each two. *)
Definition LinesOf (s : str) (ls : list str) : Prop :=
  ls <> [] /\ join_nl ls = s /\ Forall (fun l => ~ In nl l) ls.

Fixpoint isPrefix (d s : str) : bool :=
  match d, s with
  | [], _ => true
  | _ :: _, [] => false
  | a :: d', b :: s' => Ascii.eqb a b && isPrefix d' s'
  end.

(** First position of [d] in [s], counting the head of [s] as [pos]. *)
Fixpoint findFrom (d s : str) (pos : nat) : option nat :=
  if isPrefix d s then Some pos
  else match s with
       | [] => None
       | _ :: r => findFrom d r (S pos)
       end.

(** [s.indexOf(d, i)]: [None] stands for the result [-1]. *)
Definition indexOf (d s : str) (i : nat) : option nat :=
  let i' := Nat.min i (length s) in
  findFrom d (skipn i' s) i'.

(** An index argument of [slice], made relative to a length [len]: a
    negative index counts from the end, and everything is clamped. *)
Definition relIndex (len k : Z) : Z :=
  if (k <? 0)%Z then Z.max (len + k) 0 else Z.min k len.

(** [l.slice(a, b)], on strings and on arrays alike. *)
Definition slice {A : Type} (l : list A) (a b : Z) : list A :=
  let len := Z.of_nat (length l) in
  let from := relIndex len a in
  let to := relIndex len b in
  firstn (Z.to_nat (to - from)) (skipn (Z.to_nat from) l).

(** [l[i]]: [None] stands for [undefined]. *)
Definition arrGet {A : Type} (l : list A) (i : Z) : option A :=
  if (i <? 0)%Z then None else nth_error l (Z.to_nat i).

Definition isSome {A : Type} (o : option A) : bool :=
  match o with Some _ => true | None => false end.

Definition valueOr {A : Type} (o : option A) (d : A) : A :=
  match o with Some x => x | None => d end.

(* ================================================================== *)
(** * Callout math extractor *)
(* ================================================================== *)

Record MathRegion : Type := mkMathRegion {
  lineStart : Z;
  lineEnd : Z;
  startOffset : Z;
  endOffset : Z;
  mathText : str
}.

Definition delimiter : str := lit "$$".

(** [line.replace(/^>\s?/, '')] *)
Definition stripQuote (line : str) : str :=
  match line with
  | c :: r =>
      if Ascii.eqb c ">"%char then
        match r with
        | w :: r' => if isWhite w then r' else r
        | [] => []
        end
      else line
  | [] => []
  end.

(** What removing the quote prefix leaves of a line, stated on the line
    itself: a line that does not start with the quote marker is left as it
    is; otherwise the marker goes, together with the character after it
    when that is a white-space character. *)
Inductive QuoteStripped : str -> str -> Prop :=
| strip_nothing : forall line,
    (forall r, line <> ">"%char :: r) -> QuoteStripped line line
| strip_marker_white : forall w r,
    isWhite w = true -> QuoteStripped (">"%char :: w :: r) r
| strip_marker : forall r,
    (forall w r', r = w :: r' -> isWhite w = false) -> QuoteStripped (">"%char :: r) r.

(** The text between two delimiters, cleaned as the extractor does it:
    trimmed, the quote prefix removed from each line, trimmed again. *)
Definition cleanMath (between : str) : str :=
  let mathText := trim between in
  trim (join_nl (map stripQuote (split_nl mathText))).

(** The recorded text as the specification words it, to be compared with
    [cleanMath]: the quote prefix removed from every line of the text
    between the delimiters, and the result trimmed. *)
Definition specMathText (between : str) : str :=
  trim (join_nl (map stripQuote (split_nl between))).

(** The [while] loop of the extractor.  [i] is the scan position and
    [results] the array the loop pushes to.  Each turn moves [i] forward by
    at least four characters, so [fuel] only bounds the number of turns. *)
Fixpoint findLoop (fuel : nat) (blockText : str) (blockStartLine blockStartOffset : Z)
    (i : nat) (results : list MathRegion) : list MathRegion :=
  match fuel with
  | O => results
  | S fuel' =>
      match indexOf delimiter blockText i with
      | None => results
      | Some startDelim =>
          let i1 := startDelim + length delimiter in
          match indexOf delimiter blockText i1 with
          | None => results
          | Some endDelim =>
              let mathText := cleanMath (slice blockText (Z.of_nat i1) (Z.of_nat endDelim)) in
              let endOffset := endDelim + length delimiter in
              let textBeforeStart := slice blockText 0 (Z.of_nat startDelim) in
              let textBeforeEnd := slice blockText 0 (Z.of_nat endDelim) in
              let lineStart := (blockStartLine + (Z.of_nat (length (split_nl textBeforeStart)) - 1))%Z in
              let lineEnd := (blockStartLine + (Z.of_nat (length (split_nl textBeforeEnd)) - 1))%Z in
              findLoop fuel' blockText blockStartLine blockStartOffset endOffset
                (results ++ [ {| lineStart := lineStart;
                                 lineEnd := lineEnd;
                                 startOffset := (blockStartOffset + Z.of_nat startDelim)%Z;
                                 endOffset := (blockStartOffset + Z.of_nat endOffset)%Z;
                                 mathText := mathText |} ])
          end
      end
  end.

Definition findDisplayMathInCalloutBlock (blockText : str)
    (blockStartLine blockStartOffset : Z) : list MathRegion :=
  findLoop (S (length blockText)) blockText blockStartLine blockStartOffset 0 [].

(** The number of line breaks of a text. *)
Definition lineBreaks (s : str) : nat := count_occ ascii_dec s nl.

(** [s] is a position of [text] where a delimiter starts. *)
Definition delimiterAt (text : str) (s : nat) : Prop :=
  isPrefix delimiter (skipn s text) = true.

(** The region recorded for an opening delimiter at local position [s] and
    a closing delimiter at local position [e] of a callout text. *)
Definition regionOf (text : str) (blockStartLine blockStartOffset : Z)
    (p : nat * nat) : MathRegion :=
  let '(s, e) := p in
  {| lineStart := (blockStartLine + Z.of_nat (lineBreaks (firstn s text)))%Z;
     lineEnd := (blockStartLine + Z.of_nat (lineBreaks (firstn e text)))%Z;
     startOffset := (blockStartOffset + Z.of_nat s)%Z;
     endOffset := (blockStartOffset + Z.of_nat (e + 2))%Z;
     mathText := cleanMath (firstn (e - (s + 2)) (skipn (s + 2) text)) |}.

(** [s] is the first position from [i] on where a delimiter starts. *)
Definition firstDelimiter (text : str) (i s : nat) : Prop :=
  i <= s /\ delimiterAt text s /\ forall q, i <= q -> q < s -> ~ delimiterAt text q.

(** No delimiter starts at or after position [i]. *)
Definition noDelimiter (text : str) (i : nat) : Prop :=
  forall q, i <= q -> ~ delimiterAt text q.

(** [ScanTo text i pairs s]: read from position [i], the text consists of
    the delimiter pairs [pairs], in this order, each made of the first
    delimiter after what precedes and of the first delimiter after that one,
    and then of an opening delimiter at [s] that no closing delimiter
    follows. *)
Inductive ScanTo (text : str) : nat -> list (nat * nat) -> nat -> Prop :=
| scan_open : forall i s,
    firstDelimiter text i s ->
    noDelimiter text (s + 2) ->
    ScanTo text i [] s
| scan_pair : forall i s0 e pairs s,
    firstDelimiter text i s0 ->
    firstDelimiter text (s0 + 2) e ->
    ScanTo text (e + 2) pairs s ->
    ScanTo text i ((s0, e) :: pairs) s.

(** [ScanAll text i pairs]: read from position [i], the text consists of
    the delimiter pairs [pairs], in this order, and of no further
    delimiter. *)
Inductive ScanAll (text : str) : nat -> list (nat * nat) -> Prop :=
| scan_done : forall i,
    noDelimiter text i ->
    ScanAll text i []
| scan_more : forall i s0 e pairs,
    firstDelimiter text i s0 ->
    firstDelimiter text (s0 + 2) e ->
    ScanAll text (e + 2) pairs ->
    ScanAll text i ((s0, e) :: pairs).

(** Delimiter pairs that follow one another from position [i] on within
    a text of [n] characters. *)
Fixpoint pairsFrom (i : nat) (n : nat) (pairs : list (nat * nat)) : Prop :=
  match pairs with
  | [] => True
  | (s, e) :: r => i <= s /\ s + 2 <= e /\ e + 2 <= n /\ pairsFrom (e + 2) n r
  end.

(** Regions that follow one another without overlap: the first starts at or
    after line [lo] and offset [o], each spans at least its two delimiters
    and ends on or after its start line, the next starts where it ended or
    later, and all end at or before offset [hi]. *)
Fixpoint regionsFrom (lo : Z) (o : Z) (hi : Z) (rs : list MathRegion) : Prop :=
  match rs with
  | [] => True
  | r :: rest =>
      (lo <= lineStart r)%Z /\ (lineStart r <= lineEnd r)%Z
      /\ (o <= startOffset r)%Z /\ (startOffset r + 4 <= endOffset r)%Z
      /\ (endOffset r <= hi)%Z
      /\ regionsFrom (lineEnd r) (endOffset r) hi rest
  end.

(* ================================================================== *)
(** * Manual tags *)
(* ================================================================== *)

(** The longest run of characters the dot matches at the head of [s]. *)
Fixpoint dotRun (s : str) : str :=
  match s with
  | [] => []
  | c :: r => if isLineTerminator c then [] else c :: dotRun r
  end.

(** Position of the last closing brace of [s]. *)
Fixpoint lastBrace (s : str) : option nat :=
  match s with
  | [] => None
  | c :: r =>
      match lastBrace r with
      | Some n => Some (S n)
      | None => if Ascii.eqb c "}"%char then Some 0 else None
      end
  end.

Definition tagOpen : str := lit "\tag{".

(** The tag pattern of the indexer reads: backslash, [tag], an opening
    brace, a greedy run of any characters but line terminators (the capture
    group), a closing brace.  [tagAt s] is the capture group when the match
    starts at the head of [s]: the run is greedy, so the group extends to
    the last closing brace before the next line terminator. *)
Definition tagAt (s : str) : option str :=
  if isPrefix tagOpen s then
    let run := dotRun (skipn (length tagOpen) s) in
    match lastBrace run with
    | Some n => Some (firstn n run)
    | None => None
    end
  else None.

(** The capture group of the first match of the tag pattern in [s], or
    [None] for [null]: the leftmost start position wins. *)
Fixpoint manualTag (s : str) : option str :=
  match tagAt s with
  | Some g => Some g
  | None =>
      match s with
      | [] => None
      | _ :: r => manualTag r
      end
  end.

(** [TagMatch s p g]: the tag pattern matches [s] from position [p] on with
    capture group [g], that is, [s] reads at [p] a backslash, [tag], an
    opening brace, the text [g] free of line terminators, and a closing
    brace. *)
Definition TagMatch (s : str) (p : nat) (g : str) : Prop :=
  exists pre post,
    s = pre ++ tagOpen ++ g ++ "}"%char :: post
    /\ length pre = p
    /\ forall c, In c g -> isLineTerminator c = false.

(* ================================================================== *)
(** * The sorted map of the indexer *)
(* ================================================================== *)

(** The indexer keeps sections and blocks in a sorted map from line numbers
    to objects, created with the comparator [(a, b) => a - b].  It is
    modelled by its entries in ascending key order. *)
Module BTree.

Definition t (V : Type) : Type := list (Z * V).

Definition empty {V : Type} : t V := [].

(** [tree.set(k, v)]: a new entry, or a new value for the entry at [k]. *)
Fixpoint set {V : Type} (k : Z) (v : V) (m : t V) : t V :=
  match m with
  | [] => [(k, v)]
  | (k', v') :: r =>
      if (k <? k')%Z then (k, v) :: m
      else if (k =? k')%Z then (k, v) :: r
      else (k', v') :: set k v r
  end.

Fixpoint get {V : Type} (k : Z) (m : t V) : option V :=
  match m with
  | [] => None
  | (k', v') :: r => if (k =? k')%Z then Some v' else get k r
  end.

(** [tree.getPairOrNextHigher(k)]: the entry with the least key [>= k]. *)
Fixpoint getPairOrNextHigher {V : Type} (k : Z) (m : t V) : option (Z * V) :=
  match m with
  | [] => None
  | (k', v') :: r =>
      if (k <=? k')%Z then Some (k', v') else getPairOrNextHigher k r
  end.

(** [tree.getPairOrNextLower(k)]: the entry with the greatest key [<= k]. *)
Fixpoint getPairOrNextLower {V : Type} (k : Z) (m : t V) : option (Z * V) :=
  match m with
  | [] => None
  | (k', v') :: r =>
      if (k' <=? k)%Z then
        match getPairOrNextLower k r with
        | Some p => Some p
        | None => Some (k', v')
        end
      else None
  end.

(** [tree.values()] and [tree.valuesArray()], in key order. *)
Definition values {V : Type} (m : t V) : list V := map snd m.

Definition keys {V : Type} (m : t V) : list Z := map fst m.

(** A mutation of the object stored at key [k]: the entry keeps its key
    and every holder of the object sees the change. *)
Fixpoint update {V : Type} (k : Z) (f : V -> V) (m : t V) : t V :=
  match m with
  | [] => []
  | (k', v') :: r =>
      if (k =? k')%Z then (k', f v') :: r else (k', v') :: update k f r
  end.

(** The invariant of the map: keys in strictly ascending order. *)
Definition sorted {V : Type} (m : t V) : Prop := StronglySorted Z.lt (keys m).

(** Two maps with the same keys, in which the objects at each key are
    related by [R]. *)
Definition related {V : Type} (R : V -> V -> Prop) (m m' : t V) : Prop :=
  Forall2 (fun a b => fst a = fst b /\ R (snd a) (snd b)) m m'.

(** The object stored by the last call of [set] with key [k] in a
    sequence of calls. *)
Fixpoint lastWrite {V : Type} (k : Z) (ws : list (Z * V)) : option V :=
  match ws with
  | [] => None
  | (k', v) :: r =>
      match lastWrite k r with
      | Some x => Some x
      | None => if (k =? k')%Z then Some v else None
      end
  end.

End BTree.

(* ================================================================== *)
(** * Data model *)
(* ================================================================== *)

Record Loc : Type := mkLoc { loc_line : Z; loc_col : Z; loc_offset : Z }.

Record Pos : Type := mkPos { pos_start : Loc; pos_end : Loc }.

(** The line span [{start, end}] of a section or block. *)
Record Span : Type := mkSpan { sp_start : Z; sp_end : Z }.

(** The outline supplied by the host application. *)
Record HeadingCache : Type := mkHeading {
  heading : str;
  level : Z;
  h_position : Pos
}.

Record SectionCache : Type := mkSectionCache {
  sc_type : str;
  sc_position : Pos;
  sc_id : option str
}.

Record LinkCache : Type := mkLinkCache {
  lc_link : str;
  lc_position : Pos
}.

Record FrontmatterLinkCache : Type := mkFrontmatterLinkCache {
  fl_link : str;
  fl_displayText : option str
}.

(** Every list of the outline may be absent ([undefined]). *)
Record CachedMetadata : Type := mkMetadata {
  md_headings : option (list HeadingCache);
  md_sections : option (list SectionCache);
  md_links : option (list LinkCache);
  md_frontmatterLinks : option (list FrontmatterLinkCache)
}.

(** What the indexer imports from modules outside this development: the
    link class, the theorem-callout settings reader and the comment
    parsers. *)
Class Externals : Type := {
  Link : Type;
  (** [Link.infer(link)] *)
  Link_infer : str -> Link;
  (** [Link.infer(link, false, displayText)] *)
  Link_inferFrontmatter : str -> option str -> Link;
  (** [a.equals(b)] *)
  Link_equals : Link -> Link -> bool;
  MinimalTheoremCalloutSettings : Type;
  (** the truth value of [settings.legacy] *)
  legacy : MinimalTheoremCalloutSettings -> bool;
  getFileTitle : str -> str;
  (** the header line is [lines[start]], [None] when there is no such line *)
  readTheoremCalloutSettings : option str -> bool -> option MinimalTheoremCalloutSettings;
  trimMathText : str -> str;
  (** the [comment] field of the result, [None] for [undefined] *)
  parseLatexComment : str -> option str;
  (** the key/value pairs of the parsed object, in assignment order *)
  parseYamlLike : str -> list (str * str);
  parseMarkdownComment : str -> list str
}.

(** A plain object used as a record of strings: [Object.assign] adds the
    pairs of its source in order, and a property read sees the pair that
    was assigned last. *)
Definition JsRecord : Type := list (str * str).

Definition objAssign (target source : JsRecord) : JsRecord := target ++ source.

Fixpoint objGet (k : str) (o : JsRecord) : option str :=
  match o with
  | [] => None
  | (k', v) :: r =>
      match objGet k r with
      | Some x => Some x
      | None => if str_eqb k k' then Some v else None
      end
  end.

Definition isEmptyStr (s : str) : bool :=
  match s with [] => true | _ :: _ => false end.

Definition len {A : Type} (l : list A) : Z := Z.of_nat (length l).

(** Coverage of lines by spans. *)
Definition covers (sp : Span) (l : Z) : bool :=
  (sp_start sp <=? l)%Z && (l <=? sp_end sp)%Z.

Definition coverCount (spans : list Span) (l : Z) : nat :=
  length (filter (fun sp => covers sp l) spans).

(** Every line from [a] to [b] lies in exactly one of the spans, and no
    other line lies in any of them. *)
Definition coversExactly (spans : list Span) (a b : Z) : Prop :=
  forall l, coverCount spans l = if ((a <=? l)%Z && (l <=? b)%Z)%bool then 1 else 0.

Section Indexer.

Context {E : Externals}.

Inductive BlockVariant : Type :=
| GenericBlock (type : str)
| EquationBlock (manualTag_ : option str) (mathText_ : str) (label display : option str)
| TheoremCalloutBlock (settings : MinimalTheoremCalloutSettings)
    (label display : option str) (main v1 : bool).

Record JsonMarkdownBlock : Type := mkBlock {
  b_ordinal : Z;
  b_position : Span;
  b_pos : Pos;
  b_links : list Link;
  b_blockId : option str;
  b_variant : BlockVariant
}.

(** A section object while the index is being built.  Its [$blocks] array
    holds references to block objects; a block object is named by its key
    in the block index, where it stays from its insertion on. *)
Record SectionObj : Type := mkSectionObj {
  s_ordinal : Z;
  s_title : str;
  s_level : Z;
  s_position : Span;
  s_blocks : list Z;
  s_links : list Link
}.

Record JsonMarkdownSection : Type := mkSection {
  js_ordinal : Z;
  js_title : str;
  js_level : Z;
  js_position : Span;
  js_blocks : list JsonMarkdownBlock;
  js_links : list Link
}.

Record JsonMarkdownPage : Type := mkPage {
  p_path : str;
  p_links : list Link;
  p_sections : list JsonMarkdownSection;
  p_extension : str;
  p_position : Span
}.

(** ** Sections *)

Definition headingLine (h : HeadingCache) : Z := loc_line (pos_start (h_position h)).

(** [metaheadings.sort((a, b) => a.position.start.line - b.position.start.line)]:
    the sort is stable. *)
Fixpoint insertHeading (h : HeadingCache) (l : list HeadingCache) : list HeadingCache :=
  match l with
  | [] => [h]
  | h' :: r =>
      if (headingLine h <=? headingLine h')%Z then h :: l
      else h' :: insertHeading h r
  end.

Definition sortHeadings (l : list HeadingCache) : list HeadingCache :=
  fold_right insertHeading [] l.

(** The loop over the sorted headings; [index] counts the headings already
    visited and [nlines] is [lines.length]. *)
Fixpoint headingSections (metaheadings : list HeadingCache) (index nlines : Z)
    (sections : BTree.t SectionObj) : BTree.t SectionObj :=
  match metaheadings with
  | [] => sections
  | section :: rest =>
      let start := headingLine section in
      let end' := match rest with
                  | [] => (nlines - 1)%Z
                  | next :: _ => (headingLine next - 1)%Z
                  end in
      headingSections rest (index + 1)%Z nlines
        (BTree.set start
           {| s_ordinal := (index + 1)%Z;
              s_title := heading section;
              s_level := level section;
              s_position := {| sp_start := start; sp_end := end' |};
              s_blocks := [];
              s_links := [] |} sections)
  end.

(** [emptylines(lines, start, end)] visits [n = end - start] lines from
    [index] on.  Reading a line that does not exist makes [trim] raise:
    the result is then [None]. *)
Fixpoint emptylinesLoop (lines : list str) (index : Z) (n : nat) : option bool :=
  match n with
  | O => Some true
  | S n' =>
      match arrGet lines index with
      | None => None
      | Some l =>
          if isEmptyStr (trim l) then emptylinesLoop lines (index + 1)%Z n'
          else Some false
      end
  end.

Definition emptylines (lines : list str) (start end' : Z) : option bool :=
  emptylinesLoop lines start (Z.to_nat (end' - start)).

Definition implicitSection (path : str) (end' : Z) : SectionObj :=
  {| s_ordinal := 0;
     s_title := getFileTitle path;
     s_level := 1;
     s_position := {| sp_start := 0; sp_end := end' |};
     s_blocks := [];
     s_links := [] |}.

(** The section part of [markdownImport]; [None] when [emptylines] raises. *)
Definition buildSections (path : str) (lines : list str) (empty : bool)
    (metaheadings : list HeadingCache) : option (BTree.t SectionObj) :=
  let sections := headingSections metaheadings 0 (len lines) BTree.empty in
  let firstSection := BTree.getPairOrNextHigher 0 sections in
  match firstSection with
  | None =>
      if negb empty
      then Some (BTree.set 0%Z (implicitSection path (len lines)) sections)
      else Some sections
  | Some (_, first) =>
      match emptylines lines 0 (sp_start (s_position first)) with
      | None => None
      | Some true => Some sections
      | Some false =>
          Some (BTree.set 0%Z
                  (implicitSection path (sp_start (s_position first) - 1)%Z) sections)
      end
  end.

Definition byLine (a b : HeadingCache) : Prop := (headingLine a <= headingLine b)%Z.

(** What holds of every section made from a heading. *)
Definition headingMade (s : SectionObj) : Prop :=
  (1 <= s_ordinal s)%Z /\ s_links s = [] /\ s_blocks s = [].

(** [h0] is a first heading of [hs]: none starts on an earlier line. *)
Definition firstHeading (hs : list HeadingCache) (h0 : HeadingCache) : Prop :=
  In h0 hs /\ forall h, In h hs -> (headingLine h0 <= headingLine h)%Z.

(** Some line before line [e] is not blank; every line before [e] is. *)
Definition contentBefore (lines : list str) (e : Z) : Prop :=
  exists j l, (0 <= j < e)%Z /\ arrGet lines j = Some l /\ trim l <> [].

Definition blankBefore (lines : list str) (e : Z) : Prop :=
  forall j l, (0 <= j < e)%Z -> arrGet lines j = Some l -> trim l = [].

(** The entries that the heading loop adds for headings on strictly
    ascending lines: one section per heading, each ending on the line
    before the next heading, the last one on the last line. *)
Fixpoint headingEntries (metaheadings : list HeadingCache) (index nlines : Z)
    : list (Z * SectionObj) :=
  match metaheadings with
  | [] => []
  | section :: rest =>
      (headingLine section,
       {| s_ordinal := (index + 1)%Z;
          s_title := heading section;
          s_level := level section;
          s_position :=
            {| sp_start := headingLine section;
               sp_end := match rest with
                         | [] => (nlines - 1)%Z
                         | next :: _ => (headingLine next - 1)%Z
                         end |};
          s_blocks := [];
          s_links := [] |})
      :: headingEntries rest (index + 1)%Z nlines
  end.

(** ** Blocks *)

Definition getBlockText (data : str) (block : SectionCache) : str :=
  slice data (loc_offset (pos_start (sc_position block)))
             (loc_offset (pos_end (sc_position block))).

(** The metadata object filled from the LaTeX comments of a math text,
    line by line; an absent or empty comment is skipped. *)
Fixpoint latexMetadata (mathLines : list str) (metadata : JsRecord) : JsRecord :=
  match mathLines with
  | [] => metadata
  | l :: r =>
      match parseLatexComment l with
      | None => latexMetadata r metadata
      | Some comment =>
          if isEmptyStr comment then latexMetadata r metadata
          else latexMetadata r (objAssign metadata (parseYamlLike comment))
      end
  end.

(** The metadata object filled from the Markdown comment lines of a
    callout body. *)
Fixpoint calloutMetadata (commentLines : list str) (metadata : JsRecord) : JsRecord :=
  match commentLines with
  | [] => metadata
  | l :: r =>
      let l' := if isPrefix (lit ">") l then trim (slice l 1 (len l)) else l in
      if isEmptyStr l' then calloutMetadata r metadata
      else if str_eqb l' (lit "main")
           then calloutMetadata r (objAssign metadata [(lit "main", lit "true")])
           else calloutMetadata r (objAssign metadata (parseYamlLike l'))
  end.

(** The equation object built from a math text, for a math block and for
    a display-math region of a callout alike. *)
Definition equationBlock (ordinal : Z) (position : Span) (pos : Pos)
    (blockId : option str) (mathText : str) : JsonMarkdownBlock :=
  let tagMatch := manualTag mathText in
  let metadata := latexMetadata (split_nl mathText) [] in
  {| b_ordinal := ordinal;
     b_position := position;
     b_pos := pos;
     b_links := [];
     b_blockId := blockId;
     b_variant := EquationBlock tagMatch mathText
                    (objGet (lit "label") metadata)
                    (objGet (lit "display") metadata) |}.

(** The state of the block pass: the block index and [blockOrdinal]. *)
Definition BlockState : Type := (BTree.t JsonMarkdownBlock * Z)%type.

(** The equation object built for a display-math region of a callout. *)
Definition nestedEquationBlock (ordinal : Z) (eq : MathRegion) : JsonMarkdownBlock :=
  let pos := {| pos_start := {| loc_line := lineStart eq; loc_col := 0;
                                loc_offset := startOffset eq |};
                pos_end := {| loc_line := lineEnd eq; loc_col := 0;
                              loc_offset := endOffset eq |} |} in
  equationBlock ordinal {| sp_start := lineStart eq; sp_end := lineEnd eq |}
    pos None (mathText eq).

(** One turn of the loop over the display-math regions of a callout. *)
Definition nestedEquation (st : BlockState) (eq : MathRegion) : BlockState :=
  let '(blocks, blockOrdinal) := st in
  (BTree.set (lineStart eq) (nestedEquationBlock blockOrdinal eq) blocks,
   (blockOrdinal + 1)%Z).

Definition theoremBlock (ordinal : Z) (lines : list str) (block : SectionCache)
    (theoremCalloutSettings : MinimalTheoremCalloutSettings) : JsonMarkdownBlock :=
  let start := loc_line (pos_start (sc_position block)) in
  let end' := loc_line (pos_end (sc_position block)) in
  let contentText := join_nl (slice lines (start + 1)%Z (end' + 1)%Z) in
  let commentLines := parseMarkdownComment contentText in
  let metadata := calloutMetadata commentLines [] in
  {| b_ordinal := ordinal;
     b_position := {| sp_start := start; sp_end := end' |};
     b_pos := sc_position block;
     b_links := [];
     b_blockId := sc_id block;
     b_variant := TheoremCalloutBlock theoremCalloutSettings
                    (objGet (lit "label") metadata)
                    (objGet (lit "display") metadata)
                    (match objGet (lit "main") metadata with
                     | Some v => str_eqb v (lit "true")
                     | None => false
                     end)
                    (legacy theoremCalloutSettings) |}.

Definition genericBlock (ordinal : Z) (block : SectionCache) : JsonMarkdownBlock :=
  {| b_ordinal := ordinal;
     b_position := {| sp_start := loc_line (pos_start (sc_position block));
                      sp_end := loc_line (pos_end (sc_position block)) |};
     b_pos := sc_position block;
     b_links := [];
     b_blockId := sc_id block;
     b_variant := GenericBlock (sc_type block) |}.

(** One turn of the loop over [metadata.sections]. *)
Definition processBlock (markdown : str) (lines : list str) (excludeExample : bool)
    (st : BlockState) (block : SectionCache) : BlockState :=
  if str_eqb (sc_type block) (lit "heading") then st
  else
    let '(blocks, blockOrdinal) := st in
    let start := loc_line (pos_start (sc_position block)) in
    let end' := loc_line (pos_end (sc_position block)) in
    let theoremCalloutSettings :=
      if str_eqb (sc_type block) (lit "callout")
      then readTheoremCalloutSettings (arrGet lines start) excludeExample
      else None in
    if str_eqb (sc_type block) (lit "math") then
      let mathText := trimMathText (getBlockText markdown block) in
      (BTree.set start
         (equationBlock blockOrdinal {| sp_start := start; sp_end := end' |}
            (sc_position block) (sc_id block) mathText)
         blocks,
       (blockOrdinal + 1)%Z)
    else
      match theoremCalloutSettings with
      | Some settings =>
          let calloutBlockText := getBlockText markdown block in
          let equationsInCallout :=
            findDisplayMathInCalloutBlock calloutBlockText start
              (loc_offset (pos_start (sc_position block))) in
          let '(blocks1, blockOrdinal1) :=
            fold_left nestedEquation equationsInCallout (blocks, blockOrdinal) in
          (BTree.set start (theoremBlock blockOrdinal1 lines block settings) blocks1,
           (blockOrdinal1 + 1)%Z)
      | None =>
          (BTree.set start (genericBlock blockOrdinal block) blocks,
           (blockOrdinal + 1)%Z)
      end.

Definition buildBlocks (markdown : str) (lines : list str) (excludeExample : bool)
    (metasections : list SectionCache) : BlockState :=
  fold_left (processBlock markdown lines excludeExample) metasections (BTree.empty, 1%Z).

(** The calls of [blocks.set] that one turn of the loop over
    [metadata.sections] makes, in order, when the turn starts with
    [blockOrdinal = ordinal]: key and stored object. *)
Fixpoint nestedWrites (ordinal : Z) (eqs : list MathRegion)
    : list (Z * JsonMarkdownBlock) :=
  match eqs with
  | [] => []
  | eq :: r =>
      (lineStart eq, nestedEquationBlock ordinal eq) :: nestedWrites (ordinal + 1)%Z r
  end.

Definition blockWrites (markdown : str) (lines : list str) (excludeExample : bool)
    (ordinal : Z) (block : SectionCache) : list (Z * JsonMarkdownBlock) :=
  let start := loc_line (pos_start (sc_position block)) in
  let end' := loc_line (pos_end (sc_position block)) in
  if str_eqb (sc_type block) (lit "heading") then []
  else if str_eqb (sc_type block) (lit "math") then
    [(start,
      equationBlock ordinal {| sp_start := start; sp_end := end' |}
        (sc_position block) (sc_id block) (trimMathText (getBlockText markdown block)))]
  else
    match (if str_eqb (sc_type block) (lit "callout")
           then readTheoremCalloutSettings (arrGet lines start) excludeExample
           else None) with
    | Some settings =>
        let eqs := findDisplayMathInCalloutBlock (getBlockText markdown block) start
                     (loc_offset (pos_start (sc_position block))) in
        nestedWrites ordinal eqs
        ++ [(start, theoremBlock (ordinal + len eqs)%Z lines block settings)]
    | None => [(start, genericBlock ordinal block)]
    end.

Fixpoint passWrites (markdown : str) (lines : list str) (excludeExample : bool)
    (ordinal : Z) (metasections : list SectionCache) : list (Z * JsonMarkdownBlock) :=
  match metasections with
  | [] => []
  | block :: r =>
      let ws := blockWrites markdown lines excludeExample ordinal block in
      ws ++ passWrites markdown lines excludeExample (ordinal + len ws)%Z r
  end.

Definition applyWrites (ws : list (Z * JsonMarkdownBlock))
    (blocks : BTree.t JsonMarkdownBlock) : BTree.t JsonMarkdownBlock :=
  fold_left (fun t w => BTree.set (fst w) (snd w) t) ws blocks.

(** What holds of the [n]-th write of a sequence started at ordinal [o]:
    it carries the ordinal [o + n] and no links, and its key is the start
    line of its object. *)
Definition writesOk (o : Z) (ws : list (Z * JsonMarkdownBlock)) : Prop :=
  forall n k b, nth_error ws n = Some (k, b) ->
    b_ordinal b = (o + Z.of_nat n)%Z /\ b_links b = [] /\ sp_start (b_position b) = k.

(** ** Page assembly *)

Definition pushBlock (ref : Z) (s : SectionObj) : SectionObj :=
  {| s_ordinal := s_ordinal s; s_title := s_title s; s_level := s_level s;
     s_position := s_position s;
     s_blocks := s_blocks s ++ [ref];
     s_links := s_links s |}.

(** One turn of the loop that adds the blocks to the sections; the block
    object is referred to by its key [fst kb]. *)
Definition addBlockToSection (sections : BTree.t SectionObj)
    (kb : Z * JsonMarkdownBlock) : BTree.t SectionObj :=
  let block := snd kb in
  match BTree.getPairOrNextLower (sp_start (b_position block)) sections with
  | Some (k, section) =>
      if (sp_end (s_position section) >=? sp_end (b_position block))%Z
      then BTree.update k (pushBlock (fst kb)) sections
      else sections
  | None => sections
  end.

Definition addBlocksToSections (blocks : BTree.t JsonMarkdownBlock)
    (sections : BTree.t SectionObj) : BTree.t SectionObj :=
  fold_left addBlockToSection blocks sections.

(** [addLink(target, incoming)] *)
Definition addLink (target : list Link) (incoming : Link) : list Link :=
  if existsb (fun v => Link_equals v incoming) target then target
  else target ++ [incoming].

Definition addLinkToSection (incoming : Link) (s : SectionObj) : SectionObj :=
  {| s_ordinal := s_ordinal s; s_title := s_title s; s_level := s_level s;
     s_position := s_position s;
     s_blocks := s_blocks s;
     s_links := addLink (s_links s) incoming |}.

Definition addLinkToBlock (incoming : Link) (b : JsonMarkdownBlock) : JsonMarkdownBlock :=
  {| b_ordinal := b_ordinal b; b_position := b_position b; b_pos := b_pos b;
     b_links := addLink (b_links b) incoming;
     b_blockId := b_blockId b; b_variant := b_variant b |}.

(** The objects the link passes mutate: the page's link array, the
    section objects and the block objects. *)
Record Store : Type := mkStore {
  st_links : list Link;
  st_sections : BTree.t SectionObj;
  st_blocks : BTree.t JsonMarkdownBlock
}.

(** One turn of the loop over [metadata.links]. *)
Definition linkStep (st : Store) (linkdef : LinkCache) : Store :=
  let link := Link_infer (lc_link linkdef) in
  let line := loc_line (pos_start (lc_position linkdef)) in
  let links := addLink (st_links st) link in
  let sections :=
    match BTree.getPairOrNextLower line (st_sections st) with
    | Some (k, section) =>
        if (sp_end (s_position section) >=? line)%Z
        then BTree.update k (addLinkToSection link) (st_sections st)
        else st_sections st
    | None => st_sections st
    end in
  let blocks1 :=
    match BTree.getPairOrNextLower line (st_blocks st) with
    | Some (k, block) =>
        if (sp_end (b_position block) >=? line)%Z
        then BTree.update k (addLinkToBlock link) (st_blocks st)
        else st_blocks st
    | None => st_blocks st
    end in
  let blocks2 :=
    match BTree.getPairOrNextHigher line blocks1 with
    | Some (k, listItem) =>
        if (sp_end (b_position listItem) >=? line)%Z
        then BTree.update k (addLinkToBlock link) blocks1
        else blocks1
    | None => blocks1
    end in
  {| st_links := links; st_sections := sections; st_blocks := blocks2 |}.

(** The two block updates of [linkStep], one after the other. *)
Definition blocksLower (line : Z) (link : Link) (blocks : BTree.t JsonMarkdownBlock)
    : BTree.t JsonMarkdownBlock :=
  match BTree.getPairOrNextLower line blocks with
  | Some (k, block) =>
      if (sp_end (b_position block) >=? line)%Z
      then BTree.update k (addLinkToBlock link) blocks
      else blocks
  | None => blocks
  end.

Definition blocksHigher (line : Z) (link : Link) (blocks : BTree.t JsonMarkdownBlock)
    : BTree.t JsonMarkdownBlock :=
  match BTree.getPairOrNextHigher line blocks with
  | Some (k, listItem) =>
      if (sp_end (b_position listItem) >=? line)%Z
      then BTree.update k (addLinkToBlock link) blocks
      else blocks
  | None => blocks
  end.

(** One turn of the loop over [metadata.frontmatterLinks]. *)
Definition frontmatterStep (st : Store) (linkdef : FrontmatterLinkCache) : Store :=
  let link := Link_inferFrontmatter (fl_link linkdef) (fl_displayText linkdef) in
  {| st_links := addLink (st_links st) link;
     st_sections := st_sections st;
     st_blocks := st_blocks st |}.

(** The block objects a section refers to, as they are when the page is
    returned. *)
Definition derefBlocks (blocks : BTree.t JsonMarkdownBlock) (refs : list Z)
    : list JsonMarkdownBlock :=
  flat_map (fun k => match BTree.get k blocks with
                     | Some b => [b]
                     | None => []
                     end) refs.

Definition exportSection (blocks : BTree.t JsonMarkdownBlock) (s : SectionObj)
    : JsonMarkdownSection :=
  {| js_ordinal := s_ordinal s;
     js_title := s_title s;
     js_level := s_level s;
     js_position := s_position s;
     js_blocks := derefBlocks blocks (s_blocks s);
     js_links := s_links s |}.

Definition orEmpty {A : Type} (o : option (list A)) : list A :=
  match o with Some l => l | None => [] end.

(** The store when [markdownImport] returns, [None] when it raises. *)
Definition finalStore (path markdown : str) (metadata : CachedMetadata)
    (excludeExample : bool) : option Store :=
  let lines := split_nl markdown in
  let empty := negb (existsb (fun line => negb (isEmptyStr (trim line))) lines) in
  let metaheadings := sortHeadings (orEmpty (md_headings metadata)) in
  match buildSections path lines empty metaheadings with
  | None => None
  | Some sections =>
      let blocks := fst (buildBlocks markdown lines excludeExample
                           (orEmpty (md_sections metadata))) in
      let sections' := addBlocksToSections blocks sections in
      let st := fold_left linkStep (orEmpty (md_links metadata))
                  {| st_links := []; st_sections := sections'; st_blocks := blocks |} in
      Some (fold_left frontmatterStep (orEmpty (md_frontmatterLinks metadata)) st)
  end.

(** [markdownImport(path, markdown, metadata, excludeExample)].  The call
    sorts the heading array of [metadata] in place, so the result is the
    metadata object as the call leaves it and the page it returns, [None]
    when it raises. *)
Definition markdownImport (path markdown : str) (metadata : CachedMetadata)
    (excludeExample : bool) : CachedMetadata * option JsonMarkdownPage :=
  ({| md_headings := option_map sortHeadings (md_headings metadata);
      md_sections := md_sections metadata;
      md_links := md_links metadata;
      md_frontmatterLinks := md_frontmatterLinks metadata |},
   match finalStore path markdown metadata excludeExample with
   | None => None
   | Some st =>
       Some {| p_path := path;
               p_links := st_links st;
               p_sections := map (exportSection (st_blocks st))
                                 (BTree.values (st_sections st));
               p_extension := lit "md";
               p_position := {| sp_start := 0; sp_end := len (split_nl markdown) |} |}
   end).

(** The store just before the links are visited, for the sections
    [secs] that the section builder returned. *)
Definition initialStore (markdown : str) (excludeExample : bool)
    (metadata : CachedMetadata) (secs : BTree.t SectionObj) : Store :=
  let blocks := fst (buildBlocks markdown (split_nl markdown) excludeExample
                       (orEmpty (md_sections metadata))) in
  {| st_links := []; st_sections := addBlocksToSections blocks secs; st_blocks := blocks |}.

(** What a section is, apart from its arrays of blocks and links. *)
Definition sectionFields (s : SectionObj) : Z * str * Z * Span :=
  (s_ordinal s, s_title s, s_level s, s_position s).

Definition exportedFields (s : JsonMarkdownSection) : Z * str * Z * Span :=
  (js_ordinal s, js_title s, js_level s, js_position s).

(** ** Vocabulary of the statements about links *)

(** [x] is in the list, or a link that [equals] it is. *)
Definition Present (x : Link) (l : list Link) : Prop :=
  exists v, In v l /\ (v = x \/ Link_equals v x = true).

(** No link of the list [equals] a later one. *)
Definition LinksDistinct (l : list Link) : Prop :=
  forall i j a b, (i < j)%nat ->
    nth_error l i = Some a -> nth_error l j = Some b -> Link_equals a b = false.

(** A later state of the same section object: only its arrays grew. *)
Definition sectionGrows (s s' : SectionObj) : Prop :=
  s_ordinal s' = s_ordinal s /\ s_title s' = s_title s /\ s_level s' = s_level s
  /\ s_position s' = s_position s
  /\ forall x, Present x (s_links s) -> Present x (s_links s').

(** A later state of the same block object: only its link array grew. *)
Definition blockGrows (b b' : JsonMarkdownBlock) : Prop :=
  b_ordinal b' = b_ordinal b /\ b_position b' = b_position b /\ b_pos b' = b_pos b
  /\ b_blockId b' = b_blockId b /\ b_variant b' = b_variant b
  /\ forall x, Present x (b_links b) -> Present x (b_links b').

(** A store holds [link] wherever an occurrence on line [L] puts it: in
    the page's array, in the section found at or below [L] and in the
    blocks found at or below and at or above [L], each of the three if its
    end is at or after [L]. *)
Definition linkPlaced (link : Link) (L : Z) (st : Store) : Prop :=
  Present link (st_links st)
  /\ (forall k section,
        BTree.getPairOrNextLower L (st_sections st) = Some (k, section) ->
        (sp_end (s_position section) >= L)%Z -> Present link (s_links section))
  /\ (forall k block,
        BTree.getPairOrNextLower L (st_blocks st) = Some (k, block) ->
        (sp_end (b_position block) >= L)%Z -> Present link (b_links block))
  /\ (forall k listItem,
        BTree.getPairOrNextHigher L (st_blocks st) = Some (k, listItem) ->
        (sp_end (b_position listItem) >= L)%Z -> Present link (b_links listItem)).

Definition storeGrows (st st' : Store) : Prop :=
  (forall x, Present x (st_links st) -> Present x (st_links st'))
  /\ BTree.related sectionGrows (st_sections st) (st_sections st')
  /\ BTree.related blockGrows (st_blocks st) (st_blocks st').

(** Every link array of the store is free of repetitions. *)
Definition storeDistinct (st : Store) : Prop :=
  LinksDistinct (st_links st)
  /\ Forall (fun s => LinksDistinct (s_links s)) (BTree.values (st_sections st))
  /\ Forall (fun b => LinksDistinct (b_links b)) (BTree.values (st_blocks st)).

(** ** Vocabulary of the statements about the assembled page *)

(** An entry of the section map comes before another: smaller key and
    smaller ordinal. *)
Definition entryBelow (a b : Z * SectionObj) : Prop :=
  (fst a < fst b)%Z /\ (s_ordinal (snd a) < s_ordinal (snd b))%Z.

(** The block is not a generic block of type heading or math. *)
Definition notHeadingOrMath (b : JsonMarkdownBlock) : Prop :=
  forall ty, b_variant b = GenericBlock ty -> ty <> lit "heading" /\ ty <> lit "math".

(** The test of the loop that adds the blocks to the sections, for the
    block [kb] and the section stored at key [ks]. *)
Definition assigned (sections : BTree.t SectionObj) (ks : Z)
    (kb : Z * JsonMarkdownBlock) : bool :=
  match BTree.getPairOrNextLower (sp_start (b_position (snd kb))) sections with
  | Some (k, section) =>
      (k =? ks)%Z && (sp_end (s_position section) >=? sp_end (b_position (snd kb)))%Z
  | None => false
  end.

Definition pushBlocks (refs : list Z) (s : SectionObj) : SectionObj :=
  {| s_ordinal := s_ordinal s; s_title := s_title s; s_level := s_level s;
     s_position := s_position s;
     s_blocks := s_blocks s ++ refs;
     s_links := s_links s |}.

(** A later state of the same section object, with the same blocks. *)
Definition keepsBlocks (s s' : SectionObj) : Prop :=
  s_position s' = s_position s /\ s_blocks s' = s_blocks s.

Definition samePosition (s s' : SectionObj) : Prop := s_position s' = s_position s.

(** The line of a link occurrence. *)
Definition linkLine (ld : LinkCache) : Z := loc_line (pos_start (lc_position ld)).

(** Every link of the section comes from an occurrence within its span. *)
Definition sectionLinksFrom (ls : list LinkCache) (s : SectionObj) : Prop :=
  forall x, In x (s_links s) ->
    exists ld, In ld ls /\ x = Link_infer (lc_link ld)
               /\ (sp_start (s_position s) <= linkLine ld <= sp_end (s_position s))%Z.

(** Every link of the block comes from an occurrence at or before its end. *)
Definition blockLinksFrom (ls : list LinkCache) (b : JsonMarkdownBlock) : Prop :=
  forall x, In x (b_links b) ->
    exists ld, In ld ls /\ x = Link_infer (lc_link ld)
               /\ (linkLine ld <= sp_end (b_position b))%Z.

Definition linksFrom (ls : list LinkCache) (st : Store) : Prop :=
  (forall x, In x (st_links st) -> exists ld, In ld ls /\ x = Link_infer (lc_link ld))
  /\ BTree.sorted (st_sections st)
  /\ Forall (fun e => sp_start (s_position (snd e)) = fst e /\ sectionLinksFrom ls (snd e))
            (st_sections st)
  /\ BTree.sorted (st_blocks st)
  /\ Forall (fun e => blockLinksFrom ls (snd e)) (st_blocks st).

End Indexer.

(* ================================================================== *)
(** * Position resolver *)
(* ================================================================== *)

Section Resolver.

Context {E : Externals}.

Definition isEquationBlock (b : JsonMarkdownBlock) : bool :=
  match b_variant b with EquationBlock _ _ _ _ => true | _ => false end.

Definition isTheoremCalloutBlock (b : JsonMarkdownBlock) : bool :=
  match b_variant b with TheoremCalloutBlock _ _ _ _ _ => true | _ => false end.

(** The blocks of a page, section by section. *)
Definition pageBlocks (page : JsonMarkdownPage) : list JsonMarkdownBlock :=
  flat_map js_blocks (p_sections page).

(** Modelled from the spec: the page class with its lookups is not among
    the sources.  [getBlockByLineNumber] returns the block found at or
    below the line (an exact key match first), provided the block's own
    end is at or after the line. *)
Definition getBlockByLineNumber (page : JsonMarkdownPage) (line : Z)
    : option JsonMarkdownBlock :=
  let index := fold_left (fun t b => BTree.set (sp_start (b_position b)) b t)
                 (pageBlocks page) BTree.empty in
  match BTree.getPairOrNextLower line index with
  | Some (_, b) => if (sp_end (b_position b) >=? line)%Z then Some b else None
  | None => None
  end.

(** Modelled from the spec: the same lookup as [getBlockByLineNumber], on
    offset spans. *)
Definition getBlockByOffset (page : JsonMarkdownPage) (pos : Z)
    : option JsonMarkdownBlock :=
  let index := fold_left (fun t b => BTree.set (loc_offset (pos_start (b_pos b))) b t)
                 (pageBlocks page) BTree.empty in
  match BTree.getPairOrNextLower pos index with
  | Some (_, b) => if (loc_offset (pos_end (b_pos b)) >=? pos)%Z then Some b else None
  | None => None
  end.

Fixpoint insertByStart (b : JsonMarkdownBlock) (l : list JsonMarkdownBlock)
    : list JsonMarkdownBlock :=
  match l with
  | [] => [b]
  | b' :: r =>
      if (sp_start (b_position b) <=? sp_start (b_position b'))%Z then b :: l
      else b' :: insertByStart b r
  end.

(** Modelled from the spec: the page class is not among the sources.
    [getEquationBlocksInRange] returns the equation blocks whose spans fall
    within the given lines, both ends included, ordered by start line. *)
Definition getEquationBlocksInRange (page : JsonMarkdownPage) (startLine endLine : Z)
    : list JsonMarkdownBlock :=
  fold_right insertByStart []
    (filter (fun b => isEquationBlock b
                      && (startLine <=? sp_start (b_position b))%Z
                      && (sp_end (b_position b) <=? endLine)%Z)
            (pageBlocks page)).

(** What the rendering surface tells about a display-math element: whether
    it has an enclosing callout element, and its position among the
    display-math elements of that callout ([-1] when it is not found). *)
Record RenderedMath : Type := mkRenderedMath {
  calloutEl : bool;
  ourIndex : Z
}.

Record SectionInfo : Type := mkSectionInfo {
  si_lineStart : Z;
  si_lineEnd : Z
}.

(** Reading view: [EquationNumberRenderer.getEquationCache(lineOffset)],
    with [info] the section info of the element and [page] the indexed
    page, either of which may be missing. *)
Definition getEquationCache (info : option SectionInfo) (page : option JsonMarkdownPage)
    (el : RenderedMath) (lineOffset : Z) : option JsonMarkdownBlock :=
  match info, page with
  | Some info, Some page =>
      let block :=
        match getBlockByLineNumber page (si_lineStart info + lineOffset)%Z with
        | Some b => Some b
        | None => getBlockByLineNumber page (si_lineEnd info + lineOffset)%Z
        end in
      match block with
      | Some b =>
          if isEquationBlock b then Some b
          else if isTheoremCalloutBlock b then
            if negb (calloutEl el) then None
            else if (ourIndex el <? 0)%Z then None
            else
              let equationsInRange :=
                getEquationBlocksInRange page (si_lineStart info) (si_lineEnd info) in
              arrGet equationsInRange (ourIndex el)
          else None
      | None => None
      end
  | _, _ => None
  end.

(** Live preview: the equation that [updateEquationNumber] finds for one
    display-math element at document position [pos].  [line] is the line
    number of [pos], [None] when the editor raises while computing it. *)
Definition updateEquationNumber_equation (page : JsonMarkdownPage) (line : option Z)
    (pos : Z) (el : RenderedMath) : option JsonMarkdownBlock :=
  let block :=
    match line with
    | Some l => getBlockByLineNumber page l
    | None => getBlockByOffset page pos
    end in
  match block with
  | Some b =>
      if isEquationBlock b then Some b
      else if isTheoremCalloutBlock b then
        if calloutEl el then
          if (ourIndex el >=? 0)%Z then
            let equationsInRange :=
              getEquationBlocksInRange page (sp_start (b_position b))
                (sp_end (b_position b)) in
            arrGet equationsInRange (ourIndex el)
          else None
        else None
      else None
  | None => None
  end.

End Resolver.

(* ================================================================== *)
(** * Rendered elements *)
(* ================================================================== *)

Section Renderers.

Context {E : Externals}.

(** The rendered display-math elements, with the identity test that
    [Array.prototype.includes] applies to them. *)
Context {El : Type} (sameEl : forall a b : El, {a = b} + {a <> b}).

Definition includes (l : list El) (x : El) : bool :=
  existsb (fun y => if sameEl y x then true else false) l.

(** Live preview: the elements that [updateEquationNumber] visits, from
    the matches [topLevelMjx] of the top-level selector and the matches
    [calloutMjx] of the callout selector. *)
Definition mjxContainerElements (topLevelMjx calloutMjx : list El) : list El :=
  fold_left (fun acc el => if includes acc el then acc else acc ++ [el])
            calloutMjx topLevelMjx.

(** The [$id] of an equation block, a field of the page classes. *)
Context (idOf : JsonMarkdownBlock -> str).

(** PDF export: the loop that collects the equation blocks of a page,
    section by section and block by block. *)
Definition collectEquationBlocks (page : JsonMarkdownPage) : list JsonMarkdownBlock :=
  fold_left
    (fun acc section =>
       fold_left (fun acc' block => if isEquationBlock block then acc' ++ [block] else acc')
                 (js_blocks section) acc)
    (p_sections page) [].

(** The loop [for (let i = 0; i < n; i++)] of the export pass, [i] being
    the next index and [n0] the number of turns left: each turn sets the
    attribute [data-equation-id] of [divs[i]] to the id of [blocks[i]].
    The result lists the calls of [setAttribute] in order; a turn that
    reads past either array raises, which ends the pass. *)
Fixpoint setIds (blocks : list JsonMarkdownBlock) (divs : list El) (i : nat) (n0 : nat)
    : list (El * str) :=
  match n0 with
  | O => []
  | S n0' =>
      match nth_error blocks i, nth_error divs i with
      | Some block, Some div => (div, idOf block) :: setIds blocks divs (S i) n0'
      | _, _ => []
      end
  end.

(** [preprocessForPdfExport]: [topLevel] are the matches of the first
    selector, [allMath] those of the looser one, [page] the indexed page if
    there is one. *)
Definition preprocessForPdfExport (topLevel allMath : list El)
    (page : option JsonMarkdownPage) : list (El * str) :=
  let topLevelMathDivs :=
    if (length topLevel =? 0)%nat then allMath else topLevel in
  match page with
  | None => []
  | Some page =>
      let equationBlocks := collectEquationBlocks page in
      if (length equationBlocks =? length topLevelMathDivs)%nat then
        setIds equationBlocks topLevelMathDivs 0 (length equationBlocks)
      else
        let minCount := Nat.min (length equationBlocks) (length topLevelMathDivs) in
        setIds equationBlocks topLevelMathDivs 0 minCount
  end.

End Renderers.

(* ================================================================== *)
(** * A concrete setting for examples *)
(* ================================================================== *)

(** An instance of the external modules on which the indexer can be run: a
    link is its target with its optional display text, a callout is a
    theorem callout when its header starts with the theorem marker, and the
    examples carry no comments. *)
Module Sample.

Definition linkEq (a b : str * option str) : bool :=
  str_eqb (fst a) (fst b)
  && match snd a, snd b with
     | Some x, Some y => str_eqb x y
     | None, None => true
     | _, _ => false
     end.

Definition externals : Externals :=
  {| Link := (str * option str)%type;
     Link_infer := fun l => (l, None);
     Link_inferFrontmatter := fun l d => (l, d);
     Link_equals := linkEq;
     MinimalTheoremCalloutSettings := str;
     legacy := fun _ => false;
     getFileTitle := fun p => p;
     readTheoremCalloutSettings := fun header _ =>
       match header with
       | Some h => if isPrefix (lit "> [!theorem]") h then Some (lit "theorem") else None
       | None => None
       end;
     trimMathText := trim;
     parseLatexComment := fun _ => None;
     parseYamlLike := fun _ => [];
     parseMarkdownComment := fun _ => [] |}.

Definition at_ (l o : Z) : Loc := {| loc_line := l; loc_col := 0; loc_offset := o |}.

Definition heading_ (title : String.string) (lvl l : Z) : HeadingCache :=
  {| heading := lit title; level := lvl; h_position := mkPos (at_ l 0) (at_ l 0) |}.

Definition block_ (type : String.string) (l1 o1 l2 o2 : Z) : SectionCache :=
  {| sc_type := lit type; sc_position := mkPos (at_ l1 o1) (at_ l2 o2); sc_id := None |}.

Definition link_ (target : String.string) (l : Z) : LinkCache :=
  {| lc_link := lit target; lc_position := mkPos (at_ l 0) (at_ l 0) |}.

Definition outline (hs : list HeadingCache) (bs : list SectionCache)
    (ls : list LinkCache) : CachedMetadata :=
  {| md_headings := Some hs; md_sections := Some bs; md_links := Some ls;
     md_frontmatterLinks := None |}.

(** A theorem callout with two display-math regions on its second and
    third line. *)
Definition calloutText : str := lit "> [!theorem] T
> $$a$$
> $$b$$".

Definition calloutOutline : CachedMetadata :=
  outline [] [block_ "callout" 0 0 2 30] [].

(** The page of a run, for the examples: an empty page stands for a run
    that raises. *)
Definition pageOf (run : CachedMetadata * option (JsonMarkdownPage (E := externals)))
    : JsonMarkdownPage (E := externals) :=
  valueOr (snd run)
    {| p_path := []; p_links := []; p_sections := []; p_extension := [];
       p_position := {| sp_start := 0; sp_end := 0 |} |}.

Definition noBlock : JsonMarkdownBlock (E := externals) :=
  genericBlock 0 (block_ "" 0 0 0 0).

Definition calloutPage : JsonMarkdownPage (E := externals) :=
  pageOf (markdownImport (lit "a.md") calloutText calloutOutline false).

(** A theorem callout with a display-math region on its header line. *)
Definition headerMathText : str := lit "> [!theorem] $$x$$".

Definition headerMathOutline : CachedMetadata :=
  outline [] [block_ "callout" 0 0 0 18] [].

(** A theorem callout with two display-math regions on one line. *)
Definition sameLineText : str := lit "> [!theorem] T
> $$a$$ $$b$$".

Definition sameLineOutline : CachedMetadata :=
  outline [] [block_ "callout" 0 0 1 28] [].

(** A blank line, then a heading. *)
Definition lateHeadingText : str := lit "
# H".

Definition lateHeadingOutline : CachedMetadata :=
  outline [heading_ "H" 1 1] [block_ "heading" 1 1 1 4] [].

(** A paragraph, a blank line, a heading and a paragraph, with two equal
    links on line 3 and one on line 0. *)
Definition introText : str := lit "intro

# H1
body
".

Definition introOutline : CachedMetadata :=
  outline [heading_ "H1" 1 2]
    [block_ "paragraph" 0 0 0 5; block_ "heading" 2 7 2 11; block_ "paragraph" 3 12 3 16]
    [link_ "x" 3; link_ "x" 3; link_ "y" 0].

Definition introPage : JsonMarkdownPage (E := externals) :=
  pageOf (markdownImport (lit "a.md") introText introOutline false).

(** The block index of the same run. *)
Definition introBlocks : BTree.t (JsonMarkdownBlock (E := externals)) :=
  fst (buildBlocks introText (split_nl introText) false (orEmpty (md_sections introOutline))).

Definition noSection : JsonMarkdownSection (E := externals) :=
  {| js_ordinal := 0; js_title := []; js_level := 0;
     js_position := {| sp_start := 0; sp_end := 0 |};
     js_blocks := []; js_links := [] |}.

(** The same document with an outline that lists two headings on line 2. *)
Definition twinOutline : CachedMetadata :=
  outline [heading_ "A" 1 2; heading_ "B" 2 2]
    [block_ "paragraph" 0 0 0 5; block_ "heading" 2 7 2 11; block_ "paragraph" 3 12 3 16]
    [].

Definition twinPage : JsonMarkdownPage (E := externals) :=
  pageOf (markdownImport (lit "a.md") introText twinOutline false).

(** The same document with an outline that lists a later heading first. *)
Definition swappedOutline (swap : bool) : CachedMetadata :=
  outline (if swap then [heading_ "H1" 1 2; heading_ "H0" 1 0]
           else [heading_ "H0" 1 0; heading_ "H1" 1 2])
    [block_ "paragraph" 0 0 0 5; block_ "heading" 2 7 2 11; block_ "paragraph" 3 12 3 16]
    [].

(** A callout line whose display math starts with a space and a quote
    marker. *)
Definition quotedMathText : str := lit "> $$ >x$$".

(** Two lines of text, for an outline without headings and for one with a
    heading on the first line. *)
Definition twoLineText : str := lit "a
b".

Definition noHeadingOutline : CachedMetadata := outline [] [] [].

Definition firstLineHeadingOutline : CachedMetadata :=
  outline [heading_ "a" 1 0] [] [].

End Sample.


(* ================================================================== *)
(** * Strings: counting lines, searching, slicing *)
(* ================================================================== *)

Lemma split_nl_nonempty (s : str) : split_nl s <> [].
Proof.
  induction s as [|c r IH]; simpl; [discriminate|].
  destruct (Ascii.eqb c nl); [discriminate|].
  destruct (split_nl r); [contradiction | discriminate].
Qed.

(** Splitting at line breaks yields one piece more than there are line
    breaks. *)
Lemma split_nl_length (s : str) : length (split_nl s) = S (lineBreaks s).
Proof.
  unfold lineBreaks.
  induction s as [|c r IH]; simpl; [reflexivity|].
  destruct (Ascii.eqb_spec c nl) as [->|Hne].
  - simpl. destruct (ascii_dec nl nl); [|contradiction]. now rewrite IH.
  - destruct (ascii_dec c nl) as [->|_]; [contradiction|].
    destruct (split_nl r) eqn:Hs; [now apply split_nl_nonempty in Hs|].
    simpl in *. exact IH.
Qed.

Lemma relIndex_nat (n k : nat) :
  relIndex (Z.of_nat n) (Z.of_nat k) = Z.of_nat (Nat.min k n).
Proof.
  unfold relIndex.
  destruct (Z.ltb_spec (Z.of_nat k) 0); lia.
Qed.

(** With natural indices, [slice] is a plain sub-list. *)
Lemma slice_nat {A : Type} (l : list A) (a b : nat) :
  slice l (Z.of_nat a) (Z.of_nat b) = firstn (b - a) (skipn a l).
Proof.
  unfold slice. rewrite !relIndex_nat.
  replace (Z.to_nat (Z.of_nat (Nat.min b (length l)) - Z.of_nat (Nat.min a (length l))))
    with (Nat.min b (length l) - Nat.min a (length l)) by lia.
  rewrite Nat2Z.id.
  destruct (Nat.le_gt_cases (length l) a) as [Hle|Hgt].
  - rewrite (Nat.min_r a) by lia.
    rewrite (skipn_all2 l Hle), skipn_all. now rewrite !firstn_nil.
  - rewrite (Nat.min_l a) by lia.
    destruct (Nat.le_gt_cases b (length l)) as [Hb|Hb].
    + now rewrite Nat.min_l by lia.
    + rewrite Nat.min_r by lia.
      rewrite !firstn_all2; [reflexivity | rewrite length_skipn; lia | rewrite length_skipn; lia].
Qed.

Lemma slice_prefix {A : Type} (l : list A) (b : nat) :
  slice l 0 (Z.of_nat b) = firstn b l.
Proof.
  change 0%Z with (Z.of_nat 0). rewrite slice_nat. simpl. now rewrite Nat.sub_0_r.
Qed.

Lemma isPrefix_length (d s : str) : isPrefix d s = true -> length d <= length s.
Proof.
  revert s; induction d as [|a d IH]; intros [|b s]; simpl; try lia; try discriminate.
  intros H. apply andb_true_iff in H as [_ H]. apply IH in H. lia.
Qed.

(** What [findFrom] returns: the first position, from [pos] on, where the
    pattern starts. *)
Lemma findFrom_Some (d s : str) (pos p : nat) :
  findFrom d s pos = Some p ->
  pos <= p /\ p - pos <= length s
  /\ isPrefix d (skipn (p - pos) s) = true
  /\ forall q, q < p - pos -> isPrefix d (skipn q s) = false.
Proof.
  revert pos; induction s as [|c r IH]; intros pos; simpl.
  - destruct (isPrefix d []) eqn:Hp; [|discriminate].
    intros [= <-]. rewrite Nat.sub_diag. simpl. repeat split; auto; lia.
  - destruct (isPrefix d (c :: r)) eqn:Hp.
    + intros [= <-]. rewrite Nat.sub_diag. simpl. repeat split; auto; lia.
    + intros H. apply IH in H as (H1 & H2 & H3 & H4).
      replace (p - pos) with (S (p - S pos)) by lia. simpl.
      repeat split; try lia; auto.
      intros [|q] Hq; simpl; auto. apply H4. lia.
Qed.

Lemma findFrom_None (d s : str) (pos : nat) :
  findFrom d s pos = None -> forall q, isPrefix d (skipn q s) = false.
Proof.
  revert pos; induction s as [|c r IH]; intros pos; simpl.
  - destruct (isPrefix d []) eqn:Hp; [discriminate|].
    intros _ q. now rewrite skipn_nil.
  - destruct (isPrefix d (c :: r)) eqn:Hp; [discriminate|].
    intros H [|q]; simpl; eauto.
Qed.

Lemma findFrom_complete (d s : str) (pos k : nat) :
  isPrefix d (skipn k s) = true ->
  (forall q, q < k -> isPrefix d (skipn q s) = false) ->
  k <= length s ->
  findFrom d s pos = Some (pos + k).
Proof.
  revert pos k; induction s as [|c r IH]; intros pos k Hk Hmin Hlen.
  - simpl in Hlen. assert (k = 0) by lia. subst. simpl in *. rewrite Hk.
    now rewrite Nat.add_0_r.
  - destruct k as [|k].
    + simpl in Hk. simpl. rewrite Hk. now rewrite Nat.add_0_r.
    + pose proof (Hmin 0 ltac:(lia)) as H0. simpl in H0.
      simpl. rewrite H0.
      rewrite (IH (S pos) k).
      * f_equal; lia.
      * exact Hk.
      * intros q Hq. apply (Hmin (S q)). lia.
      * simpl in Hlen. lia.
Qed.

Lemma indexOf_Some (d s : str) (i p : nat) :
  indexOf d s i = Some p ->
  Nat.min i (length s) <= p /\ p <= length s
  /\ isPrefix d (skipn p s) = true
  /\ forall q, Nat.min i (length s) <= q -> q < p -> isPrefix d (skipn q s) = false.
Proof.
  unfold indexOf. set (i' := Nat.min i (length s)). intros H.
  apply findFrom_Some in H as (H1 & H2 & H3 & H4).
  rewrite length_skipn in H2. rewrite skipn_skipn in H3.
  replace (p - i' + i') with p in H3 by lia.
  repeat split; auto; try lia.
  intros q Hq1 Hq2. specialize (H4 (q - i')). rewrite skipn_skipn in H4.
  replace (q - i' + i') with q in H4 by lia. apply H4. lia.
Qed.

Lemma indexOf_None (d s : str) (i : nat) :
  indexOf d s i = None ->
  forall q, i <= q -> isPrefix d (skipn q s) = false.
Proof.
  unfold indexOf. set (i' := Nat.min i (length s)). intros H q Hq.
  destruct (Nat.le_gt_cases q (length s)) as [Hle|Hgt].
  - pose proof (findFrom_None _ _ _ H (q - i')) as H'.
    rewrite skipn_skipn in H'. replace (q - i' + i') with q in H' by lia. exact H'.
  - pose proof (findFrom_None _ _ _ H (length s - i')) as H'.
    rewrite skipn_skipn in H'. replace (length s - i' + i') with (length s) in H' by lia.
    rewrite skipn_all in H'. rewrite skipn_all2 by lia. exact H'.
Qed.

(** A delimiter found has both its characters inside the text. *)
Lemma indexOf_delimiter_bound (s : str) (i p : nat) :
  indexOf delimiter s i = Some p -> i <= p /\ p + 2 <= length s.
Proof.
  intros H. apply indexOf_Some in H as (H1 & H2 & H3 & _).
  apply isPrefix_length in H3. rewrite length_skipn in H3.
  change (length delimiter) with 2 in H3. lia.
Qed.

(** The search for a delimiter finds the first one, and fails exactly when
    there is none. *)
Lemma indexOf_first (text : str) (i s : nat) :
  indexOf delimiter text i = Some s <-> firstDelimiter text i s.
Proof.
  unfold firstDelimiter, delimiterAt. split.
  - intros H. pose proof (indexOf_delimiter_bound _ _ _ H) as [Hle Hlen].
    apply indexOf_Some in H as (Hmin & _ & Hs & Hbefore).
    repeat split; auto.
    intros q Hq1 Hq2. rewrite (Hbefore q) by lia. discriminate.
  - intros (Hle & Hs & Hbefore).
    pose proof (isPrefix_length _ _ Hs) as Hlen. rewrite length_skipn in Hlen.
    change (length delimiter) with 2 in Hlen.
    unfold indexOf. rewrite Nat.min_l by lia.
    replace s with (i + (s - i)) at 1 by lia.
    apply findFrom_complete.
    + rewrite skipn_skipn. now replace (s - i + i) with s by lia.
    + intros q Hq. rewrite skipn_skipn.
      specialize (Hbefore (q + i) ltac:(lia) ltac:(lia)).
      now destruct (isPrefix delimiter (skipn (q + i) text)).
    + rewrite length_skipn. lia.
Qed.

Lemma indexOf_none (text : str) (i : nat) :
  indexOf delimiter text i = None <-> noDelimiter text i.
Proof.
  unfold noDelimiter, delimiterAt. split.
  - intros H q Hq. rewrite (indexOf_None _ _ _ H q Hq). discriminate.
  - intros H. destruct (indexOf delimiter text i) as [p|] eqn:Hp; [|reflexivity].
    pose proof (indexOf_delimiter_bound _ _ _ Hp) as [Hle _].
    apply indexOf_Some in Hp as (_ & _ & Hs & _).
    elim (H p Hle Hs).
Qed.

(* ================================================================== *)
(** * The callout math extractor *)
(* ================================================================== *)

(** The record that a turn of the loop pushes for the delimiters found at
    [s] and [e] is the region of that pair. *)
Lemma pushed_region (text : str) (L O : Z) (s e : nat) :
  {| lineStart := (L + (Z.of_nat (length (split_nl (slice text 0 (Z.of_nat s)))) - 1))%Z;
     lineEnd := (L + (Z.of_nat (length (split_nl (slice text 0 (Z.of_nat e)))) - 1))%Z;
     startOffset := (O + Z.of_nat s)%Z;
     endOffset := (O + Z.of_nat (e + length delimiter))%Z;
     mathText := cleanMath (slice text (Z.of_nat (s + length delimiter)) (Z.of_nat e)) |}
  = regionOf text L O (s, e).
Proof.
  unfold regionOf. rewrite !slice_prefix, !split_nl_length, slice_nat.
  change (length delimiter) with 2.
  f_equal; lia.
Qed.

Lemma findLoop_S (fuel : nat) (text : str) (L O : Z) (i : nat) (acc : list MathRegion) :
  findLoop (S fuel) text L O i acc =
  match indexOf delimiter text i with
  | None => acc
  | Some s =>
      match indexOf delimiter text (s + 2) with
      | None => acc
      | Some e => findLoop fuel text L O (e + 2) (acc ++ [regionOf text L O (s, e)])
      end
  end.
Proof.
  simpl. destruct (indexOf delimiter text i) as [s|]; [|reflexivity].
  change (length delimiter) with 2.
  destruct (indexOf delimiter text (s + 2)) as [e|]; [|reflexivity].
  pose proof (pushed_region text L O s e) as H.
  change (length delimiter) with 2 in H. now rewrite H.
Qed.

(** The loop only ever appends to the results it was given. *)
Lemma findLoop_acc (fuel : nat) (text : str) (L O : Z) (i : nat) (acc : list MathRegion) :
  findLoop fuel text L O i acc = acc ++ findLoop fuel text L O i [].
Proof.
  revert i acc; induction fuel as [|fuel IH]; intros i acc.
  - simpl. now rewrite app_nil_r.
  - rewrite !findLoop_S.
    destruct (indexOf delimiter text i) as [s|]; [|now rewrite app_nil_r].
    destruct (indexOf delimiter text (s + 2)) as [e|]; [|now rewrite app_nil_r].
    rewrite (IH _ (acc ++ _)), (IH _ ([] ++ _)). now rewrite <- app_assoc.
Qed.

(** Fuel beyond the length of the text that is left to scan changes
    nothing: the loop has left through one of its two exits. *)
Lemma findLoop_fuel (text : str) (L O : Z) (f1 f2 i : nat) (acc : list MathRegion) :
  length text - i < f1 -> length text - i < f2 ->
  findLoop f1 text L O i acc = findLoop f2 text L O i acc.
Proof.
  revert f2 i acc; induction f1 as [|f1 IH]; intros f2 i acc H1 H2; [lia|].
  destruct f2 as [|f2]; [lia|].
  rewrite !findLoop_S.
  destruct (indexOf delimiter text i) as [s|] eqn:Hs; [|reflexivity].
  destruct (indexOf delimiter text (s + 2)) as [e|] eqn:He; [|reflexivity].
  apply indexOf_delimiter_bound in Hs, He.
  apply IH; lia.
Qed.

Lemma findLoop_regions (text : str) (L O : Z) (fuel i : nat) :
  Forall (fun r => exists s e,
            delimiterAt text s /\ firstDelimiter text (s + 2) e
            /\ r = regionOf text L O (s, e))
         (findLoop fuel text L O i []).
Proof.
  revert i; induction fuel as [|fuel IH]; intros i; [constructor|].
  rewrite findLoop_S.
  destruct (indexOf delimiter text i) as [s|] eqn:Hs; [|constructor].
  destruct (indexOf delimiter text (s + 2)) as [e|] eqn:He; [|constructor].
  rewrite findLoop_acc. simpl. constructor; [|apply IH].
  exists s, e.
  apply indexOf_first in Hs as (_ & Hs & _). apply indexOf_first in He.
  repeat split; auto; apply He.
Qed.

Lemma findLoop_scan (text : str) (L O : Z) (i : nat) (pairs : list (nat * nat)) (s : nat) :
  ScanTo text i pairs s ->
  forall fuel, length text - i < fuel ->
  findLoop fuel text L O i [] = map (regionOf text L O) pairs.
Proof.
  induction 1 as [i s Hs He | i s0 e pairs s Hs He Hscan IH]; intros fuel Hfuel.
  - apply indexOf_first in Hs. apply indexOf_none in He.
    destruct fuel as [|fuel]; [lia|]. rewrite findLoop_S, Hs, He. reflexivity.
  - apply indexOf_first in Hs, He.
    destruct fuel as [|fuel]; [lia|]. rewrite findLoop_S, Hs, He.
    rewrite findLoop_acc. simpl. f_equal.
    apply indexOf_delimiter_bound in Hs, He.
    apply IH. lia.
Qed.

(* ================================================================== *)
(** * The sorted map *)
(* ================================================================== *)

Module BTreeFacts.

Import BTree.

Section Facts.

Context {V : Type}.

Implicit Types (m : BTree.t V) (k : Z) (v : V).

Lemma get_set m k v k' :
  get k' (set k v m) = if (k' =? k)%Z then Some v else get k' m.
Proof.
  induction m as [|[k0 v0] r IH]; simpl.
  - destruct (Z.eqb_spec k' k); reflexivity.
  - destruct (Z.ltb_spec k k0); [|destruct (Z.eqb_spec k k0)]; simpl.
    + destruct (Z.eqb_spec k' k); reflexivity.
    + subst. destruct (Z.eqb_spec k' k0); reflexivity.
    + rewrite IH. destruct (Z.eqb_spec k' k0), (Z.eqb_spec k' k); try reflexivity; lia.
Qed.

Lemma get_In m k v : get k m = Some v -> In (k, v) m.
Proof.
  induction m as [|[k0 v0] r IH]; simpl; [discriminate|].
  destruct (Z.eqb_spec k k0) as [->|_].
  - intros [= ->]. now left.
  - intros H. right. auto.
Qed.

Lemma In_set m k v k' v' :
  In (k', v') (set k v m) -> (k' = k /\ v' = v) \/ In (k', v') m.
Proof.
  induction m as [|[k0 v0] r IH]; simpl.
  - intros [[= <- <-]|[]]. now left.
  - destruct (Z.ltb_spec k k0); [|destruct (Z.eqb_spec k k0)]; simpl.
    + intros [[= <- <-]|H']; auto.
    + intros [[= <- <-]|H']; auto.
    + intros [H'|H']; auto. destruct (IH H'); auto.
Qed.

Lemma keys_set_In m k v k' :
  In k' (keys (set k v m)) <-> k' = k \/ In k' (keys m).
Proof.
  unfold keys. induction m as [|[k0 v0] r IH]; simpl.
  - intuition.
  - destruct (Z.ltb_spec k k0); [|destruct (Z.eqb_spec k k0)]; simpl.
    + intuition.
    + subst. intuition.
    + rewrite IH. intuition.
Qed.

Lemma sorted_nil : sorted (@empty V).
Proof. constructor. Qed.

Lemma sorted_set m k v : sorted m -> sorted (set k v m).
Proof.
  unfold sorted, keys. induction m as [|[k0 v0] r IH]; simpl; intros Hs.
  - repeat constructor.
  - inversion Hs as [|? ? Hr Hall]; subst.
    destruct (Z.ltb_spec k k0); [|destruct (Z.eqb_spec k k0)]; simpl.
    + constructor; [exact Hs|]. constructor; [lia|].
      eapply Forall_impl; [|exact Hall]. simpl. intros; lia.
    + subst. constructor; assumption.
    + constructor; [now apply IH|].
      apply Forall_forall. intros k' Hk'.
      apply (keys_set_In r k v k') in Hk' as [->|Hk']; [lia|].
      rewrite Forall_forall in Hall. now apply Hall.
Qed.

Lemma keys_update m k f : keys (update k f m) = keys m.
Proof.
  unfold keys. induction m as [|[k0 v0] r IH]; simpl; [reflexivity|].
  destruct (Z.eqb_spec k k0); simpl; [reflexivity|]. now rewrite IH.
Qed.

Lemma sorted_update m k f : sorted m -> sorted (update k f m).
Proof. unfold sorted. now rewrite keys_update. Qed.

Lemma get_update m k f k' :
  get k' (update k f m) = if (k' =? k)%Z then option_map f (get k' m) else get k' m.
Proof.
  induction m as [|[k0 v0] r IH]; simpl.
  - now destruct (k' =? k)%Z.
  - destruct (Z.eqb_spec k k0) as [->|Hne]; simpl.
    + destruct (Z.eqb_spec k' k0); reflexivity.
    + rewrite IH. destruct (Z.eqb_spec k' k0), (Z.eqb_spec k' k); try reflexivity; lia.
Qed.

(** In a sorted map an entry is what [get] returns at its key. *)
Lemma In_get m k v : sorted m -> In (k, v) m -> get k m = Some v.
Proof.
  unfold sorted, keys. induction m as [|[k0 v0] r IH]; simpl; intros Hs [].
  - injection H as -> ->. now rewrite Z.eqb_refl.
  - inversion Hs as [|? ? Hr Hall]; subst.
    destruct (Z.eqb_spec k k0) as [->|_]; [|auto].
    rewrite Forall_forall in Hall.
    specialize (Hall k0 (in_map fst _ _ H)). simpl in Hall. lia.
Qed.

Lemma lower_In m k k' v :
  getPairOrNextLower k m = Some (k', v) -> In (k', v) m /\ (k' <= k)%Z.
Proof.
  induction m as [|[k0 v0] r IH]; simpl; [discriminate|].
  destruct (Z.leb_spec k0 k); [|discriminate].
  destruct (getPairOrNextLower k r) as [p|].
  - intros [= ->]. destruct (IH eq_refl). auto.
  - intros [= <- <-]. auto.
Qed.

Lemma higher_In m k k' v :
  getPairOrNextHigher k m = Some (k', v) -> In (k', v) m /\ (k <= k')%Z.
Proof.
  induction m as [|[k0 v0] r IH]; simpl; [discriminate|].
  destruct (Z.leb_spec k k0).
  - intros [= <- <-]. auto.
  - intros H'. destruct (IH H'). auto.
Qed.

Lemma lower_get m k k' v :
  sorted m -> getPairOrNextLower k m = Some (k', v) -> get k' m = Some v.
Proof. intros Hs H. apply In_get; [assumption|]. now apply lower_In in H. Qed.

Lemma higher_get m k k' v :
  sorted m -> getPairOrNextHigher k m = Some (k', v) -> get k' m = Some v.
Proof. intros Hs H. apply In_get; [assumption|]. now apply higher_In in H. Qed.

(** The at-or-below lookup returns the greatest key at or below. *)
Lemma lower_greatest m k k' v :
  sorted m -> getPairOrNextLower k m = Some (k', v) ->
  forall k2, In k2 (keys m) -> (k2 <= k)%Z -> (k2 <= k')%Z.
Proof.
  unfold sorted, keys. induction m as [|[k0 v0] r IH]; simpl; [discriminate|].
  intros Hs. inversion Hs as [|? ? Hr Hall]; subst.
  destruct (Z.leb_spec k0 k); [|discriminate].
  destruct (getPairOrNextLower k r) as [p|] eqn:Hp.
  - intros [= ->] k2 [<-|Hk2] Hle.
    + apply lower_In in Hp as [Hin _].
      rewrite Forall_forall in Hall.
      specialize (Hall k' (in_map fst _ _ Hin)). simpl in Hall. lia.
    + eapply IH; eauto.
  - intros [= <- <-] k2 [<-|Hk2] Hle; [lia|].
    exfalso. clear IH Hs Hall.
    induction r as [|[k1 v1] r IH]; simpl in *; [contradiction|].
    inversion Hr as [|? ? Hr' Hall']; subst.
    destruct (Z.leb_spec k1 k).
    * destruct (getPairOrNextLower k r); discriminate.
    * destruct Hk2 as [<-|Hk2]; [lia|].
      rewrite Forall_forall in Hall'. specialize (Hall' _ Hk2). lia.
Qed.

Lemma lower_None m k :
  sorted m -> getPairOrNextLower k m = None ->
  forall k2, In k2 (keys m) -> (k < k2)%Z.
Proof.
  unfold sorted, keys. destruct m as [|[k0 v0] r]; simpl; [contradiction|].
  intros Hs. inversion Hs as [|? ? Hr Hall]; subst.
  destruct (Z.leb_spec k0 k).
  - destruct (getPairOrNextLower k r); discriminate.
  - intros _ k2 [<-|Hk2]; [lia|].
    rewrite Forall_forall in Hall. specialize (Hall _ Hk2). lia.
Qed.

Lemma related_refl (R : V -> V -> Prop) m :
  (forall v, R v v) -> related R m m.
Proof. intros HR. induction m; constructor; auto. Qed.

Lemma related_trans (R : V -> V -> Prop) m1 m2 m3 :
  (forall a b c, R a b -> R b c -> R a c) ->
  related R m1 m2 -> related R m2 m3 -> related R m1 m3.
Proof.
  unfold related. intros HR H12; revert m3.
  induction H12 as [|a b l1 l2 [Hk Hv] _ IH]; intros m3 H23.
  - inversion H23; subst. constructor.
  - inversion H23 as [|? c ? l3 [Hk' Hv'] Hr]; subst. constructor.
    + split; [congruence | eauto].
    + apply IH. exact Hr.
Qed.

Lemma related_keys (R : V -> V -> Prop) m m' :
  related R m m' -> keys m = keys m'.
Proof.
  unfold keys. induction 1 as [|a b l1 l2 [Hk _] _ IH]; simpl; congruence.
Qed.

Lemma related_update (R : V -> V -> Prop) m k f :
  (forall v, R v v) -> (forall v, R v (f v)) -> related R m (update k f m).
Proof.
  intros Hrefl Hf. induction m as [|[k0 v0] r IH]; simpl; [constructor|].
  destruct (Z.eqb_spec k k0); constructor; simpl; auto.
  now apply related_refl.
Qed.

Lemma related_lower (R : V -> V -> Prop) m m' k :
  related R m m' ->
  match getPairOrNextLower k m, getPairOrNextLower k m' with
  | Some (k1, v1), Some (k2, v2) => k1 = k2 /\ R v1 v2
  | None, None => True
  | _, _ => False
  end.
Proof.
  induction 1 as [|[k1 v1] [k2 v2] l1 l2 [Hk Hv] _ IH]; simpl in *; [exact I|].
  subst k2. destruct (Z.leb_spec k1 k); [|exact I].
  destruct (getPairOrNextLower k l1) as [[? ?]|], (getPairOrNextLower k l2) as [[? ?]|];
    auto; contradiction.
Qed.

Lemma related_higher (R : V -> V -> Prop) m m' k :
  related R m m' ->
  match getPairOrNextHigher k m, getPairOrNextHigher k m' with
  | Some (k1, v1), Some (k2, v2) => k1 = k2 /\ R v1 v2
  | None, None => True
  | _, _ => False
  end.
Proof.
  induction 1 as [|[k1 v1] [k2 v2] l1 l2 [Hk Hv] _ IH]; simpl in *; [exact I|].
  subst k2. destruct (Z.leb_spec k k1); auto.
Qed.

Lemma related_get (R : V -> V -> Prop) m m' k :
  related R m m' ->
  match get k m, get k m' with
  | Some v1, Some v2 => R v1 v2
  | None, None => True
  | _, _ => False
  end.
Proof.
  induction 1 as [|[k1 v1] [k2 v2] l1 l2 [Hk Hv] _ IH]; simpl in *; [exact I|].
  subst k2. destruct (Z.eqb_spec k k1); auto.
Qed.

(** A property of all stored objects. *)
Lemma Forall_values_set (P : V -> Prop) m k v :
  P v -> Forall P (values m) -> Forall P (values (set k v m)).
Proof.
  unfold values. intros Hv Hm. rewrite Forall_forall in *.
  intros x Hx. apply in_map_iff in Hx as ([k' v'] & <- & Hin).
  apply In_set in Hin as [[_ ->]|Hin]; [assumption|].
  apply Hm. now apply (in_map snd) in Hin.
Qed.

Lemma Forall_values_update (P : V -> Prop) m k f :
  (forall v, P v -> P (f v)) -> Forall P (values m) -> Forall P (values (update k f m)).
Proof.
  unfold values. intros Hf. induction m as [|[k0 v0] r IH]; simpl; intros Hm; [constructor|].
  inversion Hm; subst.
  destruct (Z.eqb_spec k k0); simpl; constructor; auto.
Qed.

Lemma related_values (R : V -> V -> Prop) m m' v' :
  related R m m' -> In v' (values m') -> exists v, In v (values m) /\ R v v'.
Proof.
  unfold values. induction 1 as [|a b l1 l2 [Hk Hv] _ IH]; simpl; [contradiction|].
  intros [<-|Hin]; [eauto|]. destruct (IH Hin) as (v & ? & ?). eauto.
Qed.

Lemma related_Forall (P : V -> Prop) (R : V -> V -> Prop) m m' :
  (forall v v', R v v' -> P v -> P v') ->
  related R m m' -> Forall P (values m) -> Forall P (values m').
Proof.
  intros HR Hrel Hm. rewrite Forall_forall in *. intros v' Hv'.
  destruct (related_values R m m' v' Hrel Hv') as (v & Hv & HRv). eauto.
Qed.

(** What a sequence of [set] calls leaves at a key. *)
Lemma get_writes (ws : list (Z * V)) m k :
  get k (fold_left (fun t w => set (fst w) (snd w) t) ws m) =
  match lastWrite k ws with
  | Some v => Some v
  | None => get k m
  end.
Proof.
  revert m; induction ws as [|[k0 v0] ws IH]; intros m; simpl; [reflexivity|].
  rewrite IH. destruct (lastWrite k ws); [reflexivity|].
  rewrite get_set. now destruct (k =? k0)%Z.
Qed.

Lemma sorted_writes (ws : list (Z * V)) m :
  sorted m -> sorted (fold_left (fun t w => set (fst w) (snd w) t) ws m).
Proof.
  revert m; induction ws as [|[k0 v0] ws IH]; intros m Hm; simpl; [assumption|].
  apply IH. now apply sorted_set.
Qed.

Lemma Forall_values_writes (P : V -> Prop) (ws : list (Z * V)) m :
  Forall (fun w => P (snd w)) ws -> Forall P (values m) ->
  Forall P (values (fold_left (fun t w => set (fst w) (snd w) t) ws m)).
Proof.
  revert m; induction ws as [|[k0 v0] ws IH]; intros m Hws Hm; simpl; [assumption|].
  inversion Hws; subst. apply IH; [assumption|]. now apply Forall_values_set.
Qed.

(** The last write at a key is one of the writes, and no later write
    has that key. *)
Lemma lastWrite_nth (ws : list (Z * V)) k v :
  lastWrite k ws = Some v ->
  exists n, nth_error ws n = Some (k, v)
            /\ forall n' v', (n < n')%nat -> nth_error ws n' <> Some (k, v').
Proof.
  induction ws as [|[k0 v0] ws IH]; simpl; [discriminate|].
  destruct (lastWrite k ws) as [x|] eqn:Hl.
  - intros [= ->]. destruct (IH eq_refl) as (n & Hn & Hlater).
    exists (S n). split; [exact Hn|].
    intros [|n'] v' Hlt; [lia|]. simpl. apply Hlater. lia.
  - destruct (Z.eqb_spec k k0) as [->|_]; [|discriminate].
    intros [= ->]. exists 0%nat. split; [reflexivity|].
    intros [|n'] v' Hlt; [lia|]. simpl. intros Hn'.
    clear IH. revert n' Hn' Hlt Hl. induction ws as [|[k1 v1] ws IH']; intros n' Hn' _.
    + now destruct n'.
    + simpl. destruct (lastWrite k0 ws) eqn:Hl'; [discriminate|].
      destruct n' as [|n']; simpl in Hn'.
      * injection Hn' as -> ->. now rewrite Z.eqb_refl.
      * intros _. eapply (IH' n'); eauto. lia.
Qed.

Lemma nth_lastWrite (ws : list (Z * V)) n k v :
  nth_error ws n = Some (k, v) ->
  exists n' v', (n <= n')%nat /\ nth_error ws n' = Some (k, v')
                /\ lastWrite k ws = Some v'.
Proof.
  revert n; induction ws as [|[k0 v0] ws IH]; intros [|n]; simpl; try discriminate.
  - intros [= -> ->]. destruct (lastWrite k ws) as [x|] eqn:Hl.
    + apply lastWrite_nth in Hl as (m & Hm & _).
      exists (S m), x. repeat split; [lia | exact Hm].
    + rewrite Z.eqb_refl. exists 0%nat, v. repeat split; lia.
  - intros Hn. destruct (IH n Hn) as (n' & v' & Hle & Hn' & Hl).
    exists (S n'), v'. rewrite Hl. repeat split; [lia | exact Hn'].
Qed.

Lemma lower_update m k k' v f L :
  sorted m -> getPairOrNextLower L m = Some (k, v) ->
  getPairOrNextLower L (update k' f m) = Some (k, if (k =? k')%Z then f v else v).
Proof.
  intros Hs Hl.
  pose proof (related_lower (fun _ _ => True) m (update k' f m) L
                (related_update _ m k' f (fun _ => I) (fun _ => I))) as Hrel.
  rewrite Hl in Hrel.
  destruct (getPairOrNextLower L (update k' f m)) as [[k2 v2]|] eqn:Hl2; [|contradiction].
  destruct Hrel as [<- _].
  apply lower_get in Hl2; [|now apply sorted_update].
  apply lower_get in Hl; [|assumption].
  rewrite get_update, Hl in Hl2.
  destruct (k =? k')%Z; simpl in Hl2; congruence.
Qed.

Lemma higher_update m k k' v f L :
  sorted m -> getPairOrNextHigher L m = Some (k, v) ->
  getPairOrNextHigher L (update k' f m) = Some (k, if (k =? k')%Z then f v else v).
Proof.
  intros Hs Hl.
  pose proof (related_higher (fun _ _ => True) m (update k' f m) L
                (related_update _ m k' f (fun _ => I) (fun _ => I))) as Hrel.
  rewrite Hl in Hrel.
  destruct (getPairOrNextHigher L (update k' f m)) as [[k2 v2]|] eqn:Hl2; [|contradiction].
  destruct Hrel as [<- _].
  apply higher_get in Hl2; [|now apply sorted_update].
  apply higher_get in Hl; [|assumption].
  rewrite get_update, Hl in Hl2.
  destruct (k =? k')%Z; simpl in Hl2; congruence.
Qed.

Lemma higher_least m k k' v :
  sorted m -> getPairOrNextHigher k m = Some (k', v) ->
  forall k2, In k2 (keys m) -> (k <= k2)%Z -> (k' <= k2)%Z.
Proof.
  unfold sorted, keys. induction m as [|[k0 v0] r IH]; simpl; [discriminate|].
  intros Hs. inversion Hs as [|? ? Hr Hall]; subst.
  destruct (Z.leb_spec k k0).
  - intros [= <- <-] k2 [<-|Hk2] Hle; [lia|].
    rewrite Forall_forall in Hall. specialize (Hall _ Hk2). lia.
  - intros Hh k2 [<-|Hk2] Hle; [lia|]. eapply IH; eauto.
Qed.

Lemma higher_None m k :
  getPairOrNextHigher k m = None -> forall k2, In k2 (keys m) -> (k2 < k)%Z.
Proof.
  unfold keys. induction m as [|[k0 v0] r IH]; simpl; [contradiction|].
  destruct (Z.leb_spec k k0); [discriminate|].
  intros Hh k2 [<-|Hk2]; [lia | auto].
Qed.

Lemma related_map {B : Type} (R : V -> V -> Prop) (f : V -> B) m m' :
  (forall v v', R v v' -> f v' = f v) ->
  related R m m' -> map f (values m') = map f (values m).
Proof.
  unfold values. intros Hf. induction 1 as [|a b l1 l2 [Hk Hv] _ IH]; simpl; [reflexivity|].
  now rewrite IH, (Hf _ _ Hv).
Qed.

Lemma related_sorted (R : V -> V -> Prop) m m' :
  related R m m' -> sorted m -> sorted m'.
Proof. unfold sorted. intros H. now rewrite (related_keys R m m' H). Qed.

End Facts.

End BTreeFacts.

(* ================================================================== *)
(** * The block pass as a sequence of writes *)
(* ================================================================== *)

Section BlockPass.

Context {E : Externals}.

Import BTreeFacts.

Lemma len_app {A : Type} (l1 l2 : list A) : len (l1 ++ l2) = (len l1 + len l2)%Z.
Proof. unfold len. rewrite length_app. lia. Qed.

Lemma fold_over_map {A B C : Type} (f : A -> B -> A) (g : C -> B) (l : list C) (a : A) :
  fold_left f (map g l) a = fold_left (fun a x => f a (g x)) l a.
Proof. revert a; induction l as [|x l IH]; intros a; simpl; [reflexivity | apply IH]. Qed.

Lemma applyWrites_app (ws1 ws2 : list (Z * JsonMarkdownBlock)) t :
  applyWrites (ws1 ++ ws2) t = applyWrites ws2 (applyWrites ws1 t).
Proof. unfold applyWrites. apply fold_left_app. Qed.

Lemma nestedWrites_len (o : Z) (eqs : list MathRegion) :
  len (nestedWrites o eqs) = len eqs.
Proof.
  unfold len. revert o; induction eqs as [|eq r IH]; intros o; simpl; [reflexivity|].
  specialize (IH (o + 1)%Z). lia.
Qed.

Lemma nested_fold (eqs : list MathRegion) t (o : Z) :
  fold_left nestedEquation eqs (t, o)
  = (applyWrites (nestedWrites o eqs) t, (o + len eqs)%Z).
Proof.
  revert t o; induction eqs as [|eq r IH]; intros t o; simpl.
  - unfold len. simpl. f_equal. lia.
  - rewrite IH. unfold len. simpl length. f_equal. lia.
Qed.

(** One turn of the block loop performs exactly the writes listed by
    [blockWrites] and consumes one ordinal for each. *)
Lemma processBlock_writes markdown lines excludeExample t (o : Z) block :
  processBlock markdown lines excludeExample (t, o) block
  = (applyWrites (blockWrites markdown lines excludeExample o block) t,
     (o + len (blockWrites markdown lines excludeExample o block))%Z).
Proof.
  unfold processBlock, blockWrites.
  destruct (str_eqb (sc_type block) (lit "heading")).
  { unfold len. simpl. f_equal. lia. }
  destruct (str_eqb (sc_type block) (lit "math")).
  { reflexivity. }
  destruct (if str_eqb (sc_type block) (lit "callout") then _ else None) as [settings|].
  - rewrite nested_fold, applyWrites_app, len_app, nestedWrites_len.
    apply f_equal2; [reflexivity|]. unfold len. simpl length. lia.
  - reflexivity.
Qed.

Lemma pass_fold markdown lines excludeExample bs t (o : Z) :
  fold_left (processBlock markdown lines excludeExample) bs (t, o)
  = (applyWrites (passWrites markdown lines excludeExample o bs) t,
     (o + len (passWrites markdown lines excludeExample o bs))%Z).
Proof.
  revert t o; induction bs as [|b r IH]; intros t o; simpl.
  - unfold len. simpl. f_equal. lia.
  - rewrite processBlock_writes, IH, applyWrites_app, len_app. f_equal. lia.
Qed.

Lemma buildBlocks_writes markdown lines excludeExample bs :
  buildBlocks markdown lines excludeExample bs
  = (applyWrites (passWrites markdown lines excludeExample 1 bs) BTree.empty,
     (1 + len (passWrites markdown lines excludeExample 1 bs))%Z).
Proof. apply pass_fold. Qed.

Lemma writesOk_app (o : Z) ws1 ws2 :
  writesOk o ws1 -> writesOk (o + len ws1) ws2 -> writesOk o (ws1 ++ ws2).
Proof.
  intros H1 H2 n k b Hn.
  destruct (Nat.lt_ge_cases n (length ws1)) as [Hlt|Hge].
  - rewrite nth_error_app1 in Hn by assumption. now apply H1.
  - rewrite nth_error_app2 in Hn by assumption.
    destruct (H2 _ _ _ Hn) as (Ho & Hl & Hk). unfold len in Ho.
    repeat split; auto. lia.
Qed.

Lemma writesOk_one (o k : Z) b :
  b_ordinal b = o -> b_links b = [] -> sp_start (b_position b) = k ->
  writesOk o [(k, b)].
Proof.
  intros Ho Hl Hk [|[|n]] k' b'; simpl; try discriminate.
  intros [= <- <-]. repeat split; auto. lia.
Qed.

Lemma writesOk_nil (o : Z) : writesOk o [].
Proof. intros [|n] k b; discriminate. Qed.

Lemma nestedWrites_ok (o : Z) (eqs : list MathRegion) : writesOk o (nestedWrites o eqs).
Proof.
  revert o; induction eqs as [|eq r IH]; intros o; [apply writesOk_nil|].
  change (nestedWrites o (eq :: r))
    with ([(lineStart eq, nestedEquationBlock o eq)] ++ nestedWrites (o + 1) r).
  apply writesOk_app; [now apply writesOk_one | apply IH].
Qed.

Lemma blockWrites_ok markdown lines excludeExample (o : Z) block :
  writesOk o (blockWrites markdown lines excludeExample o block).
Proof.
  unfold blockWrites.
  destruct (str_eqb (sc_type block) (lit "heading")); [apply writesOk_nil|].
  destruct (str_eqb (sc_type block) (lit "math")); [now apply writesOk_one|].
  destruct (if str_eqb (sc_type block) (lit "callout") then _ else None) as [settings|].
  - apply writesOk_app; [apply nestedWrites_ok|].
    rewrite nestedWrites_len. now apply writesOk_one.
  - now apply writesOk_one.
Qed.

Lemma passWrites_ok markdown lines excludeExample (o : Z) bs :
  writesOk o (passWrites markdown lines excludeExample o bs).
Proof.
  revert o; induction bs as [|b r IH]; intros o; simpl; [apply writesOk_nil|].
  apply writesOk_app; [apply blockWrites_ok | apply IH].
Qed.

Lemma nestedWrites_indexed (k : Z) (a : nat) (eqs : list MathRegion) :
  nestedWrites (k + Z.of_nat a) eqs
  = map (fun p : nat * MathRegion =>
           (lineStart (snd p), nestedEquationBlock (k + Z.of_nat (fst p)) (snd p)))
        (combine (seq a (length eqs)) eqs).
Proof.
  revert a; induction eqs as [|eq r IH]; intros a; simpl; [reflexivity|].
  f_equal. rewrite <- IH. f_equal. lia.
Qed.

Lemma buildBlocks_sorted markdown lines excludeExample bs :
  BTree.sorted (fst (buildBlocks markdown lines excludeExample bs)).
Proof.
  rewrite buildBlocks_writes. simpl. apply sorted_writes, sorted_nil.
Qed.

Lemma buildBlocks_nolinks markdown lines excludeExample bs :
  Forall (fun b => b_links b = [])
         (BTree.values (fst (buildBlocks markdown lines excludeExample bs))).
Proof.
  rewrite buildBlocks_writes. simpl. apply Forall_values_writes; [|constructor].
  apply Forall_forall. intros [k b] Hin.
  apply In_nth_error in Hin as [n Hn].
  now apply passWrites_ok in Hn.
Qed.

End BlockPass.

(* ================================================================== *)
(** * Link arrays and the growth of the store *)
(* ================================================================== *)

Section Links.

Context {E : Externals}.

Import BTreeFacts.

Lemma addLink_incl (l : list Link) (y v : Link) : In v l -> In v (addLink l y).
Proof.
  unfold addLink. destruct (existsb _ l); [auto|]. intros H. apply in_or_app. now left.
Qed.

Lemma Present_addLink_keep (l : list Link) (x y : Link) :
  Present x l -> Present x (addLink l y).
Proof. intros (v & Hin & Hv). exists v. split; [now apply addLink_incl | exact Hv]. Qed.

Lemma Present_addLink_new (l : list Link) (x : Link) : Present x (addLink l x).
Proof.
  unfold addLink. destruct (existsb _ l) eqn:Hex.
  - apply existsb_exists in Hex as (v & Hin & Hv). exists v. auto.
  - exists x. split; [|now left]. apply in_or_app. right. now left.
Qed.

Lemma LinksDistinct_nil : LinksDistinct [].
Proof. intros i j a b _ Hi. now destruct i. Qed.

(** [addLink] keeps a link array free of repetitions. *)
Lemma LinksDistinct_addLink (l : list Link) (x : Link) :
  LinksDistinct l -> LinksDistinct (addLink l x).
Proof.
  unfold addLink. destruct (existsb _ l) eqn:Hex; [auto|].
  intros Hl i j a b Hij Hi Hj.
  assert (Hjlen : j < length (l ++ [x])) by (apply nth_error_Some; congruence).
  rewrite length_app in Hjlen. simpl in Hjlen.
  rewrite nth_error_app1 in Hi by lia.
  destruct (Nat.lt_ge_cases j (length l)) as [Hlt|Hge].
  - rewrite nth_error_app1 in Hj by lia. exact (Hl i j a b Hij Hi Hj).
  - rewrite nth_error_app2 in Hj by lia.
    replace (j - length l) with 0 in Hj by lia. injection Hj as <-.
    apply nth_error_In in Hi.
    destruct (Link_equals a x) eqn:Heq; [|reflexivity].
    assert (existsb (fun v => Link_equals v x) l = true)
      by (apply existsb_exists; eauto).
    congruence.
Qed.

Lemma sectionGrows_refl s : sectionGrows s s.
Proof. repeat split; auto. Qed.

Lemma sectionGrows_trans a b c : sectionGrows a b -> sectionGrows b c -> sectionGrows a c.
Proof.
  intros (H1 & H2 & H3 & H4 & H5) (G1 & G2 & G3 & G4 & G5).
  repeat split; try congruence. auto.
Qed.

Lemma blockGrows_refl b : blockGrows b b.
Proof. repeat split; auto. Qed.

Lemma blockGrows_trans a b c : blockGrows a b -> blockGrows b c -> blockGrows a c.
Proof.
  intros (H1 & H2 & H3 & H4 & H5 & H6) (G1 & G2 & G3 & G4 & G5 & G6).
  repeat split; try congruence. auto.
Qed.

Lemma sectionGrows_pushBlock ref s : sectionGrows s (pushBlock ref s).
Proof. repeat split; auto. Qed.

Lemma sectionGrows_addLink x s : sectionGrows s (addLinkToSection x s).
Proof. repeat split; auto. simpl. intros y. apply Present_addLink_keep. Qed.

Lemma blockGrows_addLink x b : blockGrows b (addLinkToBlock x b).
Proof. repeat split; auto. simpl. intros y. apply Present_addLink_keep. Qed.

Lemma storeGrows_refl st : storeGrows st st.
Proof.
  repeat split; auto.
  - apply related_refl, sectionGrows_refl.
  - apply related_refl, blockGrows_refl.
Qed.

Lemma storeGrows_trans a b c : storeGrows a b -> storeGrows b c -> storeGrows a c.
Proof.
  intros (H1 & H2 & H3) (G1 & G2 & G3). repeat split; auto.
  - eapply related_trans; eauto using sectionGrows_trans.
  - eapply related_trans; eauto using blockGrows_trans.
Qed.

Lemma sections_update_grows (m : BTree.t SectionObj) k x :
  BTree.related sectionGrows m (BTree.update k (addLinkToSection x) m).
Proof. apply related_update; [apply sectionGrows_refl | apply sectionGrows_addLink]. Qed.

Lemma blocks_update_grows (m : BTree.t JsonMarkdownBlock) k x :
  BTree.related blockGrows m (BTree.update k (addLinkToBlock x) m).
Proof. apply related_update; [apply blockGrows_refl | apply blockGrows_addLink]. Qed.

Lemma linkStep_blocks st linkdef :
  st_blocks (linkStep st linkdef)
  = blocksHigher (loc_line (pos_start (lc_position linkdef))) (Link_infer (lc_link linkdef))
      (blocksLower (loc_line (pos_start (lc_position linkdef)))
         (Link_infer (lc_link linkdef)) (st_blocks st)).
Proof. reflexivity. Qed.

Lemma blocksLower_grows line link blocks :
  BTree.related blockGrows blocks (blocksLower line link blocks).
Proof.
  unfold blocksLower.
  destruct (BTree.getPairOrNextLower line blocks) as [[k b]|];
    [destruct (_ >=? _)%Z|]; auto using blocks_update_grows, related_refl, blockGrows_refl.
Qed.

Lemma blocksHigher_grows line link blocks :
  BTree.related blockGrows blocks (blocksHigher line link blocks).
Proof.
  unfold blocksHigher.
  destruct (BTree.getPairOrNextHigher line blocks) as [[k b]|];
    [destruct (_ >=? _)%Z|]; auto using blocks_update_grows, related_refl, blockGrows_refl.
Qed.

Lemma linkStep_grows st linkdef : storeGrows st (linkStep st linkdef).
Proof.
  split; [|split].
  - intros x. apply Present_addLink_keep.
  - simpl. destruct (BTree.getPairOrNextLower _ (st_sections st)) as [[k s]|];
      [destruct (_ >=? _)%Z|];
      auto using sections_update_grows, related_refl, sectionGrows_refl.
  - rewrite linkStep_blocks.
    eapply related_trans; [exact blockGrows_trans | apply blocksLower_grows | apply blocksHigher_grows].
Qed.

Lemma frontmatterStep_grows st linkdef : storeGrows st (frontmatterStep st linkdef).
Proof.
  split; [|split]; simpl.
  - intros x. apply Present_addLink_keep.
  - apply related_refl, sectionGrows_refl.
  - apply related_refl, blockGrows_refl.
Qed.

Lemma links_fold_grows ls st : storeGrows st (fold_left linkStep ls st).
Proof.
  revert st; induction ls as [|l r IH]; intros st; simpl; [apply storeGrows_refl|].
  eapply storeGrows_trans; [apply linkStep_grows | apply IH].
Qed.

Lemma frontmatter_fold_grows ls st : storeGrows st (fold_left frontmatterStep ls st).
Proof.
  revert st; induction ls as [|l r IH]; intros st; simpl; [apply storeGrows_refl|].
  eapply storeGrows_trans; [apply frontmatterStep_grows | apply IH].
Qed.

Lemma frontmatter_fold_same ls st :
  st_sections (fold_left frontmatterStep ls st) = st_sections st
  /\ st_blocks (fold_left frontmatterStep ls st) = st_blocks st.
Proof.
  revert st; induction ls as [|l r IH]; intros st; simpl; [auto|].
  destruct (IH (frontmatterStep st l)) as [-> ->]. auto.
Qed.

(** Each step keeps every link array free of repetitions. *)
Lemma linkStep_distinct st linkdef : storeDistinct st -> storeDistinct (linkStep st linkdef).
Proof.
  intros (H1 & H2 & H3). split; [|split].
  - now apply LinksDistinct_addLink.
  - simpl. destruct (BTree.getPairOrNextLower _ (st_sections st)) as [[k s]|];
      [destruct (_ >=? _)%Z|]; auto.
    apply Forall_values_update; [|assumption].
    intros v Hv. simpl. now apply LinksDistinct_addLink.
  - rewrite linkStep_blocks.
    assert (Hupd : forall k x m,
               Forall (fun b => LinksDistinct (b_links b)) (BTree.values m) ->
               Forall (fun b => LinksDistinct (b_links b))
                      (BTree.values (BTree.update k (addLinkToBlock x) m))).
    { intros k x m Hm. apply Forall_values_update; [|assumption].
      intros v Hv. simpl. now apply LinksDistinct_addLink. }
    unfold blocksHigher, blocksLower.
    destruct (BTree.getPairOrNextLower _ (st_blocks st)) as [[k b]|];
      [destruct (_ >=? _)%Z|];
      match goal with
      | |- context [BTree.getPairOrNextHigher ?l ?m] =>
          destruct (BTree.getPairOrNextHigher l m) as [[k' b']|];
          [destruct (_ >=? _)%Z|]
      end; auto.
Qed.

Lemma frontmatterStep_distinct st linkdef :
  storeDistinct st -> storeDistinct (frontmatterStep st linkdef).
Proof.
  intros (H1 & H2 & H3). split; [|split]; simpl; auto.
  now apply LinksDistinct_addLink.
Qed.

Lemma links_fold_distinct ls st :
  storeDistinct st -> storeDistinct (fold_left linkStep ls st).
Proof.
  revert st; induction ls as [|l r IH]; intros st H; simpl; [assumption|].
  apply IH. now apply linkStep_distinct.
Qed.

Lemma frontmatter_fold_distinct ls st :
  storeDistinct st -> storeDistinct (fold_left frontmatterStep ls st).
Proof.
  revert st; induction ls as [|l r IH]; intros st H; simpl; [assumption|].
  apply IH. now apply frontmatterStep_distinct.
Qed.

End Links.

(* ================================================================== *)
(** * The section builder *)
(* ================================================================== *)

Section Sections.

Context {E : Externals}.

Import BTreeFacts.

Lemma insertHeading_In h l x : In x (insertHeading h l) <-> x = h \/ In x l.
Proof.
  induction l as [|h' r IH]; simpl; [intuition|].
  destruct (headingLine h <=? headingLine h')%Z; simpl; [intuition|].
  rewrite IH. intuition.
Qed.

Lemma sortHeadings_In l x : In x (sortHeadings l) <-> In x l.
Proof.
  induction l as [|h r IH]; simpl; [reflexivity|].
  rewrite insertHeading_In, IH. intuition.
Qed.

Lemma insertHeading_sorted h l :
  StronglySorted byLine l -> StronglySorted byLine (insertHeading h l).
Proof.
  induction l as [|h' r IH]; simpl; intros Hs.
  - repeat constructor.
  - inversion Hs as [|? ? Hr Hall]; subst.
    destruct (Z.leb_spec (headingLine h) (headingLine h')).
    + constructor; [assumption|]. constructor; [assumption|].
      eapply Forall_impl; [|exact Hall]. unfold byLine. intros; lia.
    + constructor; [auto|]. apply Forall_forall. intros x Hx.
      apply insertHeading_In in Hx as [->|Hx]; [unfold byLine; lia|].
      rewrite Forall_forall in Hall. auto.
Qed.

Lemma sortHeadings_sorted l : StronglySorted byLine (sortHeadings l).
Proof.
  induction l as [|h r IH]; simpl; [constructor | now apply insertHeading_sorted].
Qed.

(** Sorting leaves a sorted array as it is. *)
Lemma sortHeadings_fixed l : StronglySorted byLine l -> sortHeadings l = l.
Proof.
  induction 1 as [|h r Hr IH Hall]; simpl; [reflexivity|].
  rewrite IH. destruct r as [|h' r']; simpl; [reflexivity|].
  inversion Hall as [|? ? Hh _]; subst. unfold byLine in Hh.
  destruct (Z.leb_spec (headingLine h) (headingLine h')); [reflexivity | lia].
Qed.

Lemma sortHeadings_idem l : sortHeadings (sortHeadings l) = sortHeadings l.
Proof. apply sortHeadings_fixed, sortHeadings_sorted. Qed.

Lemma insertHeading_lines_NoDup h l :
  ~ In (headingLine h) (map headingLine l) -> NoDup (map headingLine l) ->
  NoDup (map headingLine (insertHeading h l)).
Proof.
  induction l as [|h' r IH]; simpl; intros Hnin Hnd.
  - constructor; [auto | constructor].
  - destruct (headingLine h <=? headingLine h')%Z; simpl.
    + constructor; assumption.
    + inversion Hnd as [|? ? Hn' Hnd']; subst. constructor.
      * intros Hin. apply in_map_iff in Hin as (x & Hx & Hin).
        apply insertHeading_In in Hin as [->|Hin]; [intuition|].
        apply Hn'. rewrite <- Hx. apply (in_map headingLine). exact Hin.
      * apply IH; intuition.
Qed.

Lemma sortHeadings_lines_NoDup l :
  NoDup (map headingLine l) -> NoDup (map headingLine (sortHeadings l)).
Proof.
  induction l as [|h r IH]; simpl; intros Hnd; [constructor|].
  inversion Hnd as [|? ? Hn Hnd']; subst.
  apply insertHeading_lines_NoDup; [|auto].
  intros Hin. apply Hn. apply in_map_iff in Hin as (x & Hx & Hin).
  apply (proj1 (sortHeadings_In _ _)) in Hin. rewrite <- Hx. apply (in_map headingLine). exact Hin.
Qed.

(** Headings on distinct lines come out of the sort on strictly ascending
    lines. *)
Lemma sorted_distinct_strict l :
  StronglySorted byLine l -> NoDup (map headingLine l) ->
  StronglySorted Z.lt (map headingLine l).
Proof.
  induction 1 as [|h r Hr IH Hall]; simpl; intros Hnd; [constructor|].
  inversion Hnd as [|? ? Hn Hnd']; subst. constructor; [auto|].
  apply Forall_forall. intros k Hk.
  apply in_map_iff in Hk as (x & <- & Hx).
  rewrite Forall_forall in Hall. specialize (Hall x Hx). unfold byLine in Hall.
  assert (headingLine h <> headingLine x)
    by (intros Heq; apply Hn; rewrite Heq; now apply in_map).
  lia.
Qed.

(** *** The heading loop *)

Lemma set_last {V : Type} (m : BTree.t V) (k : Z) (v : V) :
  Forall (fun k' => (k' < k)%Z) (BTree.keys m) -> BTree.set k v m = m ++ [(k, v)].
Proof.
  unfold BTree.keys. induction m as [|[k0 v0] r IH]; simpl; intros H; [reflexivity|].
  inversion H; subst. simpl in *.
  destruct (Z.ltb_spec k k0); [lia|]. destruct (Z.eqb_spec k k0); [lia|].
  now rewrite IH.
Qed.

Lemma headingSections_entries hs (index nlines : Z) (m : BTree.t SectionObj) :
  StronglySorted Z.lt (map headingLine hs) ->
  (forall k h, In k (BTree.keys m) -> In h hs -> (k < headingLine h)%Z) ->
  headingSections hs index nlines m = m ++ headingEntries hs index nlines.
Proof.
  revert index m; induction hs as [|h r IH]; intros index m Hs Hlt; simpl.
  - now rewrite app_nil_r.
  - inversion Hs as [|? ? Hr Hall]; subst.
    rewrite IH; [| assumption |].
    + rewrite set_last; [now rewrite <- app_assoc|].
      apply Forall_forall. intros k Hk. apply Hlt; [assumption | now left].
    + intros k h' Hk Hh'. apply keys_set_In in Hk as [->|Hk].
      * rewrite Forall_forall in Hall. apply Hall. now apply in_map.
      * apply Hlt; [assumption | now right].
Qed.

(** Facts on the heading loop that hold for any heading array. *)
Lemma headingSections_keys hs (index nlines : Z) (m : BTree.t SectionObj) k :
  In k (BTree.keys (headingSections hs index nlines m))
  <-> In k (BTree.keys m) \/ In k (map headingLine hs).
Proof.
  revert index m; induction hs as [|h r IH]; intros index m; simpl; [intuition|].
  rewrite IH, keys_set_In. intuition.
Qed.

Lemma headingSections_sorted hs (index nlines : Z) (m : BTree.t SectionObj) :
  BTree.sorted m -> BTree.sorted (headingSections hs index nlines m).
Proof.
  revert index m; induction hs as [|h r IH]; intros index m Hm; simpl; [assumption|].
  apply IH. now apply sorted_set.
Qed.

Lemma headingSections_values hs (index nlines : Z) (m : BTree.t SectionObj) :
  (0 <= index)%Z ->
  Forall headingMade (BTree.values m) ->
  Forall headingMade (BTree.values (headingSections hs index nlines m)).
Proof.
  revert index m; induction hs as [|h r IH]; intros index m Hi Hm; simpl; [assumption|].
  apply IH; [lia|]. apply Forall_values_set; [|assumption].
  repeat split; simpl; auto. lia.
Qed.

Lemma headingSections_start hs (index nlines : Z) (m : BTree.t SectionObj) :
  Forall (fun e => sp_start (s_position (snd e)) = fst e) m ->
  Forall (fun e => sp_start (s_position (snd e)) = fst e)
         (headingSections hs index nlines m).
Proof.
  revert index m; induction hs as [|h r IH]; intros index m Hm; simpl; [assumption|].
  apply IH. apply Forall_forall. intros [k v] Hin.
  apply In_set in Hin as [[-> ->]|Hin]; [reflexivity|].
  rewrite Forall_forall in Hm. now apply (Hm (k, v)).
Qed.

(** *** Blank lines *)

Lemma arrGet_Some {A : Type} (l : list A) (i : Z) :
  (0 <= i < len l)%Z -> exists x, arrGet l i = Some x.
Proof.
  unfold arrGet, len. intros H. destruct (Z.ltb_spec i 0); [lia|].
  destruct (nth_error l (Z.to_nat i)) eqn:Hn; [eauto|].
  apply nth_error_None in Hn. lia.
Qed.

Lemma arrGet_In {A : Type} (l : list A) (i : Z) x : arrGet l i = Some x -> In x l.
Proof.
  unfold arrGet. destruct (i <? 0)%Z; [discriminate|]. apply nth_error_In.
Qed.

Lemma arrGet_range {A : Type} (l : list A) (i : Z) x :
  arrGet l i = Some x -> (0 <= i < len l)%Z.
Proof.
  unfold arrGet, len. destruct (Z.ltb_spec i 0); [discriminate|].
  intros Hn. assert (Z.to_nat i < length l) by (apply nth_error_Some; congruence). lia.
Qed.

Lemma isEmptyStr_true (s : str) : isEmptyStr s = true <-> s = [].
Proof. destruct s; simpl; split; congruence. Qed.

(** Within the document [emptylines] returns: [true] when every line of
    the range is blank, [false] when one of them is not. *)
Lemma emptylinesLoop_spec lines (index : Z) (n : nat) :
  (0 <= index)%Z -> (index + Z.of_nat n <= len lines)%Z ->
  (emptylinesLoop lines index n = Some true
   /\ forall j l, (index <= j < index + Z.of_nat n)%Z ->
                  arrGet lines j = Some l -> trim l = [])
  \/ (emptylinesLoop lines index n = Some false
      /\ exists j l, (index <= j < index + Z.of_nat n)%Z
                     /\ arrGet lines j = Some l /\ trim l <> []).
Proof.
  revert index; induction n as [|n IH]; intros index H0 Hlen; simpl emptylinesLoop.
  - left. split; [reflexivity|]. intros j l Hj; lia.
  - destruct (arrGet_Some lines index ltac:(lia)) as [l0 Hl0]. rewrite Hl0.
    destruct (isEmptyStr (trim l0)) eqn:He.
    + apply isEmptyStr_true in He.
      destruct (IH (index + 1)%Z ltac:(lia) ltac:(lia))
        as [[Hb Hall]|[Hb (j & l & Hj & Hjl & Hne)]].
      * left. split; [exact Hb|]. intros j l Hj Hjl.
        destruct (Z.eq_dec j index) as [->|Hne]; [congruence|].
        apply (Hall j); [lia|assumption].
      * right. split; [exact Hb|]. exists j, l. repeat split; auto; lia.
    + right. split; [reflexivity|]. exists index, l0. repeat split; auto; try lia.
      intros Hnil. rewrite Hnil in He. discriminate.
Qed.

Lemma emptylines_spec lines (e : Z) :
  (0 <= e <= len lines)%Z ->
  (emptylines lines 0 e = Some true /\ blankBefore lines e)
  \/ (emptylines lines 0 e = Some false /\ contentBefore lines e).
Proof.
  intros He. unfold emptylines, blankBefore, contentBefore.
  destruct (emptylinesLoop_spec lines 0 (Z.to_nat (e - 0)) ltac:(lia) ltac:(lia))
    as [[Hb Hall]|[Hb (j & l & Hj & Hjl & Hne)]].
  - left. split; [exact Hb|]. intros j l Hj. apply Hall. lia.
  - right. split; [exact Hb|]. exists j, l. repeat split; auto; lia.
Qed.

(** The blank-document flag of the indexer. *)
Lemma empty_flag lines :
  negb (existsb (fun line => negb (isEmptyStr (trim line))) lines) = true
  <-> forall l, In l lines -> trim l = [].
Proof.
  rewrite negb_true_iff. split.
  - intros H l Hl. apply isEmptyStr_true.
    destruct (isEmptyStr (trim l)) eqn:He; [reflexivity|].
    assert (existsb (fun line => negb (isEmptyStr (trim line))) lines = true)
      by (apply existsb_exists; exists l; rewrite He; auto).
    congruence.
  - intros H. destruct (existsb _ lines) eqn:Hex; [|reflexivity].
    apply existsb_exists in Hex as (l & Hl & Hne).
    apply H, isEmptyStr_true in Hl. rewrite Hl in Hne. discriminate.
Qed.

(** *** The four outcomes of the section builder *)

Lemma firstHeading_line hs h0 h1 :
  firstHeading hs h0 -> firstHeading hs h1 -> headingLine h0 = headingLine h1.
Proof. intros [Hin0 Hmin0] [Hin1 Hmin1]. specialize (Hmin0 _ Hin1). specialize (Hmin1 _ Hin0). lia. Qed.

Lemma values_In {V : Type} (m : BTree.t V) k v : In (k, v) m -> In v (BTree.values m).
Proof. intros H. apply (in_map snd) in H. exact H. Qed.

Lemma buildSections_cases path lines empty hs :
  Forall (fun h => (0 <= headingLine h < len lines)%Z) hs ->
  (empty = true <-> forall l, In l lines -> trim l = []) ->
  let sections := headingSections (sortHeadings hs) 0 (len lines) BTree.empty in
  (hs = [] /\ (forall l, In l lines -> trim l = [])
   /\ buildSections path lines empty (sortHeadings hs) = Some [])
  \/ (hs = [] /\ (exists l, In l lines /\ trim l <> [])
      /\ buildSections path lines empty (sortHeadings hs)
         = Some [(0%Z, implicitSection path (len lines))])
  \/ (exists h0, firstHeading hs h0 /\ blankBefore lines (headingLine h0)
      /\ buildSections path lines empty (sortHeadings hs) = Some sections)
  \/ (exists h0, firstHeading hs h0 /\ contentBefore lines (headingLine h0)
      /\ buildSections path lines empty (sortHeadings hs)
         = Some (BTree.set 0%Z (implicitSection path (headingLine h0 - 1)) sections)).
Proof.
  intros Hrange Hempty sections. unfold buildSections. fold sections.
  assert (Hsorted : BTree.sorted sections)
    by (apply headingSections_sorted, sorted_nil).
  assert (Hstart : Forall (fun e => sp_start (s_position (snd e)) = fst e) sections)
    by (apply headingSections_start; constructor).
  assert (Hkeys : forall k, In k (BTree.keys sections) <-> exists h, In h hs /\ headingLine h = k).
  { intros k. unfold sections. rewrite headingSections_keys. simpl.
    rewrite in_map_iff. split.
    - intros [[]|(h & Hh & Hin)]. exists h. split; [|exact Hh].
      now apply (proj1 (sortHeadings_In _ _)).
    - intros (h & Hin & Hh). right. exists h. split; [exact Hh|].
      now apply sortHeadings_In. }
  rewrite Forall_forall in Hrange.
  destruct (BTree.getPairOrNextHigher 0 sections) as [[k first]|] eqn:Hfirst.
  - (* there is a first section *)
    pose proof (higher_In _ _ _ _ Hfirst) as [Hin Hk0].
    assert (Hst : sp_start (s_position first) = k).
    { rewrite Forall_forall in Hstart. exact (Hstart _ Hin). }
    rewrite Hst.
    destruct (proj1 (Hkeys k) (in_map fst _ _ Hin)) as (h0 & Hh0 & Hline).
    assert (Hfh : firstHeading hs h0).
    { split; [exact Hh0|]. intros h Hh. rewrite Hline.
      apply (higher_least _ _ _ _ Hsorted Hfirst).
      - apply Hkeys. eauto.
      - specialize (Hrange _ Hh). lia. }
    specialize (Hrange _ Hh0).
    destruct (emptylines_spec lines k ltac:(lia)) as [[-> Hb]|[-> Hc]].
    + right; right; left. exists h0. rewrite Hline. auto.
    + right; right; right. exists h0. rewrite Hline. auto.
  - (* no section at all *)
    assert (Hnil : hs = []).
    { destruct hs as [|h r]; [reflexivity|]. exfalso.
      assert (In (headingLine h) (BTree.keys sections))
        by (apply Hkeys; exists h; split; [now left | reflexivity]).
      pose proof (higher_None _ _ Hfirst _ H).
      specialize (Hrange h (or_introl eq_refl)). lia. }
    subst hs. simpl in sections. subst sections. simpl.
    destruct empty; simpl.
    + left. repeat split; auto. now apply Hempty.
    + right; left. repeat split; auto.
      assert (Hne : ~ forall l, In l lines -> trim l = [])
        by (intros H; apply Hempty in H; discriminate).
      clear -Hne. induction lines as [|l r IH]; [exfalso; apply Hne; intros ? []|].
      destruct (trim l) eqn:Ht.
      * destruct IH as (l' & Hl' & Hne').
        { intros H. apply Hne. intros l' [<-|Hl']; auto. }
        exists l'. split; [now right | assumption].
      * exists l. split; [now left | congruence].
Qed.

End Sections.

(* ================================================================== *)
(** * The page assembler *)
(* ================================================================== *)

Section Assembly.

Context {E : Externals}.

Import BTreeFacts.

Lemma addBlocks_grows blocks sections :
  BTree.related sectionGrows sections (addBlocksToSections blocks sections).
Proof.
  unfold addBlocksToSections.
  revert sections; induction blocks as [|kb r IH]; intros sections; simpl.
  - apply related_refl, sectionGrows_refl.
  - eapply related_trans; [exact sectionGrows_trans | | apply IH].
    unfold addBlockToSection.
    destruct (BTree.getPairOrNextLower _ sections) as [[k s]|];
      [destruct (_ >=? _)%Z|]; try (apply related_refl, sectionGrows_refl).
    apply related_update; [apply sectionGrows_refl | apply sectionGrows_pushBlock].
Qed.

Lemma addBlocks_nolinks blocks sections :
  Forall (fun s => s_links s = []) (BTree.values sections) ->
  Forall (fun s => s_links s = []) (BTree.values (addBlocksToSections blocks sections)).
Proof.
  unfold addBlocksToSections.
  revert sections; induction blocks as [|kb r IH]; intros sections H; simpl; [assumption|].
  apply IH. unfold addBlockToSection.
  destruct (BTree.getPairOrNextLower _ sections) as [[k s]|];
    [destruct (_ >=? _)%Z|]; auto.
  apply Forall_values_update; auto.
Qed.

Lemma buildSections_inv path lines empty hs secs :
  buildSections path lines empty hs = Some secs ->
  BTree.sorted secs /\ Forall (fun s => s_links s = []) (BTree.values secs).
Proof.
  unfold buildSections.
  set (sections := headingSections hs 0 (len lines) BTree.empty).
  assert (Hs : BTree.sorted sections) by (apply headingSections_sorted, sorted_nil).
  assert (Hl : Forall (fun s => s_links s = []) (BTree.values sections)).
  { eapply Forall_impl; [|apply headingSections_values; [lia | constructor]].
    intros s (_ & H & _). exact H. }
  assert (Hset : forall e, BTree.sorted (BTree.set 0%Z (implicitSection path e) sections)
                           /\ Forall (fun s => s_links s = [])
                                (BTree.values (BTree.set 0%Z (implicitSection path e) sections))).
  { intros e. split; [now apply sorted_set | now apply Forall_values_set]. }
  destruct (BTree.getPairOrNextHigher 0 sections) as [[k first]|].
  - destruct (emptylines lines 0 _) as [[|]|]; intros [= <-]; auto.
  - destruct (negb empty); intros [= <-]; auto.
Qed.

Lemma finalStore_unfold path markdown metadata excludeExample :
  finalStore path markdown metadata excludeExample =
  match buildSections path (split_nl markdown)
          (negb (existsb (fun line => negb (isEmptyStr (trim line))) (split_nl markdown)))
          (sortHeadings (orEmpty (md_headings metadata))) with
  | None => None
  | Some secs =>
      Some (fold_left frontmatterStep (orEmpty (md_frontmatterLinks metadata))
              (fold_left linkStep (orEmpty (md_links metadata))
                 (initialStore markdown excludeExample metadata secs)))
  end.
Proof. reflexivity. Qed.

Lemma markdownImport_snd (path markdown : str) (metadata : CachedMetadata)
    (excludeExample : bool) :
  snd (markdownImport path markdown metadata excludeExample) =
  match finalStore path markdown metadata excludeExample with
  | None => None
  | Some st =>
      Some {| p_path := path;
              p_links := st_links st;
              p_sections := map (exportSection (st_blocks st))
                                (BTree.values (st_sections st));
              p_extension := lit "md";
              p_position := {| sp_start := 0; sp_end := len (split_nl markdown) |} |}
  end.
Proof. reflexivity. Qed.

Lemma markdownImport_fst (path markdown : str) (metadata : CachedMetadata)
    (excludeExample : bool) :
  fst (markdownImport path markdown metadata excludeExample) =
  {| md_headings := option_map sortHeadings (md_headings metadata);
     md_sections := md_sections metadata;
     md_links := md_links metadata;
     md_frontmatterLinks := md_frontmatterLinks metadata |}.
Proof. reflexivity. Qed.

(** The page of a run whose section builder returned [secs]: its sections
    are those of [secs], in order, with the same ordinal, title, level and
    span. *)
Lemma page_of_sections path markdown metadata excludeExample secs :
  buildSections path (split_nl markdown)
    (negb (existsb (fun line => negb (isEmptyStr (trim line))) (split_nl markdown)))
    (sortHeadings (orEmpty (md_headings metadata))) = Some secs ->
  exists page,
    snd (markdownImport path markdown metadata excludeExample) = Some page
    /\ map exportedFields (p_sections page) = map sectionFields (BTree.values secs)
    /\ p_position page = {| sp_start := 0; sp_end := len (split_nl markdown) |}.
Proof.
  intros Hsecs. rewrite markdownImport_snd, finalStore_unfold, Hsecs.
  eexists. split; [reflexivity|]. split; [|reflexivity]. simpl.
  set (st := fold_left frontmatterStep _ _).
  assert (Hgrow : BTree.related sectionGrows secs (st_sections st)).
  { eapply related_trans; [exact sectionGrows_trans | apply addBlocks_grows |].
    assert (H : storeGrows (initialStore markdown excludeExample metadata secs) st)
      by (eapply storeGrows_trans; [apply links_fold_grows | apply frontmatter_fold_grows]).
    exact (proj1 (proj2 H)). }
  rewrite map_map.
  change (fun x => exportedFields (exportSection (st_blocks st) x)) with sectionFields.
  apply (related_map sectionGrows sectionFields); [|exact Hgrow].
  intros v v' (H1 & H2 & H3 & H4 & _). unfold sectionFields. congruence.
Qed.

Lemma initialStore_distinct markdown excludeExample metadata secs :
  Forall (fun s => s_links s = []) (BTree.values secs) ->
  storeDistinct (initialStore markdown excludeExample metadata secs).
Proof.
  intros Hsecs. split; [apply LinksDistinct_nil|]. split; simpl.
  - eapply Forall_impl; [|apply addBlocks_nolinks; exact Hsecs].
    intros s ->. apply LinksDistinct_nil.
  - eapply Forall_impl; [|apply buildBlocks_nolinks].
    intros b ->. apply LinksDistinct_nil.
Qed.

Lemma storeGrows_sorted st st' :
  storeGrows st st' ->
  BTree.sorted (st_sections st) -> BTree.sorted (st_blocks st) ->
  BTree.sorted (st_sections st') /\ BTree.sorted (st_blocks st').
Proof.
  intros (_ & Hs & Hb) H1 H2. split; eapply related_sorted; eauto.
Qed.

Lemma blocksLower_placed L link blocks k b :
  BTree.sorted blocks ->
  BTree.getPairOrNextLower L (blocksLower L link blocks) = Some (k, b) ->
  (sp_end (b_position b) >= L)%Z -> Present link (b_links b).
Proof.
  intros Hs. unfold blocksLower.
  destruct (BTree.getPairOrNextLower L blocks) as [[k1 b1]|] eqn:Hl.
  - destruct (Z.geb_spec (sp_end (b_position b1)) L).
    + rewrite (lower_update _ _ k1 _ _ _ Hs Hl), Z.eqb_refl.
      intros [= <- <-] _. apply Present_addLink_new.
    + rewrite Hl. intros [= <- <-]. lia.
  - rewrite Hl. discriminate.
Qed.

Lemma blocksHigher_placed L link blocks k b :
  BTree.sorted blocks ->
  BTree.getPairOrNextHigher L (blocksHigher L link blocks) = Some (k, b) ->
  (sp_end (b_position b) >= L)%Z -> Present link (b_links b).
Proof.
  intros Hs. unfold blocksHigher.
  destruct (BTree.getPairOrNextHigher L blocks) as [[k1 b1]|] eqn:Hl.
  - destruct (Z.geb_spec (sp_end (b_position b1)) L).
    + rewrite (higher_update _ _ k1 _ _ _ Hs Hl), Z.eqb_refl.
      intros [= <- <-] _. apply Present_addLink_new.
    + rewrite Hl. intros [= <- <-]. lia.
  - rewrite Hl. discriminate.
Qed.

(** Right after its step, a link is where the step puts it. *)
Lemma linkStep_placed st linkdef :
  BTree.sorted (st_sections st) -> BTree.sorted (st_blocks st) ->
  linkPlaced (Link_infer (lc_link linkdef)) (loc_line (pos_start (lc_position linkdef)))
             (linkStep st linkdef).
Proof.
  intros Hss Hsb.
  set (link := Link_infer (lc_link linkdef)).
  set (L := loc_line (pos_start (lc_position linkdef))).
  split; [apply Present_addLink_new|]. split; [|split].
  - intros k s. simpl. fold L link.
    destruct (BTree.getPairOrNextLower L (st_sections st)) as [[k1 s1]|] eqn:Hl.
    + destruct (Z.geb_spec (sp_end (s_position s1)) L).
      * rewrite (lower_update _ _ k1 _ _ _ Hss Hl), Z.eqb_refl.
        intros [= <- <-] _. apply Present_addLink_new.
      * rewrite Hl. intros [= <- <-]. lia.
    + rewrite Hl. discriminate.
  - intros k b Hl Hend. rewrite linkStep_blocks in Hl. fold L link in Hl.
    pose proof (related_lower _ _ _ L (blocksHigher_grows L link (blocksLower L link (st_blocks st))))
      as Hrel.
    rewrite Hl in Hrel.
    destruct (BTree.getPairOrNextLower L (blocksLower L link (st_blocks st)))
      as [[k1 b1]|] eqn:Hl1; [|contradiction].
    destruct Hrel as [-> (_ & Hpos & _ & _ & _ & Hgrow)].
    apply Hgrow.
    apply (blocksLower_placed L link (st_blocks st) k b1 Hsb Hl1).
    rewrite <- Hpos. exact Hend.
  - intros k b Hl Hend. rewrite linkStep_blocks in Hl. fold L link in Hl.
    apply (blocksHigher_placed L link (blocksLower L link (st_blocks st)) k b);
      [|exact Hl|exact Hend].
    eapply related_sorted; [apply blocksLower_grows | exact Hsb].
Qed.

(** Later steps leave a link where it is. *)
Lemma linkPlaced_grows link L st st' :
  storeGrows st st' -> linkPlaced link L st -> linkPlaced link L st'.
Proof.
  intros (Hl & Hs & Hb) (P1 & P2 & P3 & P4). split; [auto|]. split; [|split].
  - intros k s' Hlow Hend.
    pose proof (related_lower _ _ _ L Hs) as Hrel. rewrite Hlow in Hrel.
    destruct (BTree.getPairOrNextLower L (st_sections st)) as [[k1 s1]|] eqn:Hl1;
      [|contradiction].
    destruct Hrel as [-> (_ & _ & _ & Hpos & Hgrow)].
    apply Hgrow. apply (P2 _ _ eq_refl). rewrite <- Hpos. exact Hend.
  - intros k b' Hlow Hend.
    pose proof (related_lower _ _ _ L Hb) as Hrel. rewrite Hlow in Hrel.
    destruct (BTree.getPairOrNextLower L (st_blocks st)) as [[k1 b1]|] eqn:Hl1;
      [|contradiction].
    destruct Hrel as [-> (_ & Hpos & _ & _ & _ & Hgrow)].
    apply Hgrow. apply (P3 _ _ eq_refl). rewrite <- Hpos. exact Hend.
  - intros k b' Hhigh Hend.
    pose proof (related_higher _ _ _ L Hb) as Hrel. rewrite Hhigh in Hrel.
    destruct (BTree.getPairOrNextHigher L (st_blocks st)) as [[k1 b1]|] eqn:Hl1;
      [|contradiction].
    destruct Hrel as [-> (_ & Hpos & _ & _ & _ & Hgrow)].
    apply Hgrow. apply (P4 _ _ eq_refl). rewrite <- Hpos. exact Hend.
Qed.

Lemma links_fold_placed ls st linkdef :
  BTree.sorted (st_sections st) -> BTree.sorted (st_blocks st) ->
  In linkdef ls ->
  linkPlaced (Link_infer (lc_link linkdef)) (loc_line (pos_start (lc_position linkdef)))
             (fold_left linkStep ls st).
Proof.
  intros Hss Hsb Hin. apply in_split in Hin as (l1 & l2 & ->).
  rewrite fold_left_app. simpl.
  eapply linkPlaced_grows; [apply links_fold_grows|].
  destruct (storeGrows_sorted _ _ (links_fold_grows l1 st) Hss Hsb).
  now apply linkStep_placed.
Qed.

Lemma frontmatter_fold_present ls st linkdef :
  In linkdef ls ->
  Present (Link_inferFrontmatter (fl_link linkdef) (fl_displayText linkdef))
          (st_links (fold_left frontmatterStep ls st)).
Proof.
  intros Hin. apply in_split in Hin as (l1 & l2 & ->).
  rewrite fold_left_app. simpl.
  apply (frontmatter_fold_grows l2). simpl. apply Present_addLink_new.
Qed.

(** The blocks a section lists are blocks of the index. *)
Lemma derefBlocks_In blocks refs b :
  In b (derefBlocks blocks refs) -> In b (BTree.values blocks).
Proof.
  unfold derefBlocks. rewrite in_flat_map. intros (k & _ & Hb).
  destruct (BTree.get k blocks) as [b'|] eqn:Hget; [|contradiction].
  destruct Hb as [<-|[]]. apply get_In in Hget. now apply (in_map snd) in Hget.
Qed.

Lemma pageBlocks_In blocks (secs : list SectionObj) b :
  In b (flat_map js_blocks (map (exportSection blocks) secs)) ->
  In b (BTree.values blocks).
Proof.
  rewrite in_flat_map. intros (s & Hs & Hb).
  apply in_map_iff in Hs as (s0 & <- & _). simpl in Hb.
  now apply derefBlocks_In in Hb.
Qed.

(** C6.  Let [st] be the store when the indexer returns: the page's link
    array and the section and block objects of the page.  (1) For every
    link occurrence of the outline on a line [L], its link is in the
    page's link array, in the link array of the section found at or below
    [L] if that section ends at or after [L], in that of the block found
    at or below [L] if that block ends at or after [L], and in that of the
    block found at or above [L] if that block ends at or after [L]; "in"
    means that the array holds the link or one that equals it, since every
    insertion goes through [addLink].  (2) No link array of the store, and
    so none of the page, holds two links of which the earlier equals the
    later.  (3) The link of every frontmatter occurrence is in the page's
    array, and the sections and blocks are the same whatever the
    frontmatter links are. *)
Theorem C6_link_assignment (path markdown : str) (metadata : CachedMetadata)
    (excludeExample : bool) (st : Store) :
  finalStore path markdown metadata excludeExample = Some st ->
  (forall linkdef, In linkdef (orEmpty (md_links metadata)) ->
     linkPlaced (Link_infer (lc_link linkdef))
                (loc_line (pos_start (lc_position linkdef))) st)
  /\ storeDistinct st
  /\ (exists page,
        snd (markdownImport path markdown metadata excludeExample) = Some page
        /\ p_links page = st_links st
        /\ p_sections page
           = map (exportSection (st_blocks st)) (BTree.values (st_sections st))
        /\ LinksDistinct (p_links page)
        /\ forall section, In section (p_sections page) ->
             LinksDistinct (js_links section)
             /\ forall b, In b (js_blocks section) -> LinksDistinct (b_links b))
  /\ (forall linkdef, In linkdef (orEmpty (md_frontmatterLinks metadata)) ->
        Present (Link_inferFrontmatter (fl_link linkdef) (fl_displayText linkdef))
                (st_links st))
  /\ (forall others,
        exists st',
          finalStore path markdown
            {| md_headings := md_headings metadata;
               md_sections := md_sections metadata;
               md_links := md_links metadata;
               md_frontmatterLinks := others |} excludeExample = Some st'
          /\ st_sections st' = st_sections st /\ st_blocks st' = st_blocks st).
Proof.
  intros Hst. pose proof Hst as Hst0.
  rewrite finalStore_unfold in Hst.
  destruct (buildSections _ _ _ _) as [secs|] eqn:Hsecs; [|discriminate].
  injection Hst as Hst.
  destruct (buildSections_inv _ _ _ _ _ Hsecs) as [Hsorted Hnolinks].
  set (st0 := initialStore markdown excludeExample metadata secs) in *.
  set (st1 := fold_left linkStep (orEmpty (md_links metadata)) st0) in *.
  assert (Hs0 : BTree.sorted (st_sections st0) /\ BTree.sorted (st_blocks st0)).
  { split; simpl.
    - eapply related_sorted; [apply addBlocks_grows | exact Hsorted].
    - apply buildBlocks_sorted. }
  assert (Hdist : storeDistinct st).
  { rewrite <- Hst. apply frontmatter_fold_distinct, links_fold_distinct.
    now apply initialStore_distinct. }
  split; [|split; [exact Hdist|split; [|split]]].
  - intros linkdef Hin. rewrite <- Hst.
    eapply linkPlaced_grows; [apply frontmatter_fold_grows|].
    destruct Hs0. now apply links_fold_placed.
  - rewrite markdownImport_snd, Hst0. eexists. split; [reflexivity|]. simpl.
    destruct Hdist as (D1 & D2 & D3).
    repeat split; auto.
    + apply in_map_iff in H as (s0 & <- & Hs0in). simpl.
      rewrite Forall_forall in D2. auto.
    + intros b Hb. apply in_map_iff in H as (s0 & <- & Hs0in). simpl in Hb.
      apply derefBlocks_In in Hb. rewrite Forall_forall in D3. auto.
  - intros linkdef Hin. rewrite <- Hst. now apply frontmatter_fold_present.
  - intros others. rewrite finalStore_unfold. simpl. rewrite Hsecs.
    eexists. split; [reflexivity|].
    change (initialStore markdown excludeExample _ secs) with st0.
    fold st1. rewrite <- Hst.
    destruct (frontmatter_fold_same (orEmpty others) st1) as [-> ->].
    destruct (frontmatter_fold_same (orEmpty (md_frontmatterLinks metadata)) st1) as [-> ->].
    auto.
Qed.

End Assembly.

(* ================================================================== *)
(** * Verified properties *)
(* ================================================================== *)

(** ** The callout math extractor *)

Lemma ScanTo_bounds (text : str) (i : nat) (pairs : list (nat * nat)) (s : nat) :
  ScanTo text i pairs s ->
  i <= s /\ Forall (fun p => i <= fst p /\ fst p + 2 <= snd p /\ snd p + 2 <= s) pairs.
Proof.
  induction 1 as [i s Hs He | i s0 e pairs s Hs He Hscan [IHle IHall]].
  - destruct Hs as [Hle _]. split; [lia | constructor].
  - destruct Hs as [Hle _], He as [Hle' _]. split; [lia|].
    constructor; [simpl; lia|].
    eapply Forall_impl; [|exact IHall]. simpl. intros p. lia.
Qed.

(** C5.  When the scan of a callout text matches the delimiter pairs
    [pairs] and then meets, at [s], an opening delimiter that no closing
    delimiter follows, the extractor returns: its result is exactly the
    regions of [pairs], in order, all of them ending before [s], and the
    loop has left through its exit (more turns would change nothing). *)
Theorem C5_unterminated_math (text : str) (L O : Z) (pairs : list (nat * nat)) (s : nat) :
  ScanTo text 0 pairs s ->
  findDisplayMathInCalloutBlock text L O = map (regionOf text L O) pairs
  /\ Forall (fun p => snd p + 2 <= s) pairs
  /\ forall fuel, length text < fuel ->
       findLoop fuel text L O 0 [] = findDisplayMathInCalloutBlock text L O.
Proof.
  intros Hscan. split; [|split].
  - unfold findDisplayMathInCalloutBlock. eapply findLoop_scan; [exact Hscan | lia].
  - apply ScanTo_bounds in Hscan as [_ H].
    eapply Forall_impl; [|exact H]. simpl. intros p. lia.
  - intros fuel Hfuel. unfold findDisplayMathInCalloutBlock. apply findLoop_fuel; lia.
Qed.

Lemma C5_unterminated_math_witness :
  ScanTo (lit "> $$a$$ $$b") 0 [(2, 5)] 8
  /\ findDisplayMathInCalloutBlock (lit "> $$a$$ $$b") 3 40
     = [ {| lineStart := 3; lineEnd := 3; startOffset := 42; endOffset := 47;
            mathText := lit "a" |} ].
Proof.
  assert (H : ScanTo (lit "> $$a$$ $$b") 0 [(2, 5)] 8).
  { apply scan_pair with (e := 5);
      [apply indexOf_first; reflexivity | apply indexOf_first; reflexivity |].
    apply scan_open; [apply indexOf_first | apply indexOf_none]; reflexivity. }
  split; [exact H|].
  exact (proj1 (C5_unterminated_math (lit "> $$a$$ $$b") 3 40 [(2, 5)] 8 H)).
Defined.

(** ** Manual tags *)

(** C8.  On a math text whose tag-command is followed, on the same line, by
    another closing brace, the extracted manual tag is not the argument of
    the tag-command: the capture runs on to the last closing brace of the
    line. *)
Theorem C8_manual_tag_overruns :
  manualTag (lit "a = b \tag{1} \label{eq}") = Some (lit "1} \label{eq")
  /\ manualTag (lit "a = b \tag{1} \label{eq}") <> Some (lit "1").
Proof. split; [reflexivity | discriminate]. Qed.

Lemma manualTag_cons (c : ascii) (r : str) :
  manualTag (c :: r) =
  match tagAt (c :: r) with
  | Some g => Some g
  | None => manualTag r
  end.
Proof. reflexivity. Qed.

Lemma tagAt_no_prefix (s : str) : isPrefix tagOpen s = false -> tagAt s = None.
Proof. intros H. unfold tagAt. now rewrite H. Qed.

(** Without a tag-command the manual tag is null. *)
Lemma manualTag_absent (s : str) :
  (forall q, isPrefix tagOpen (skipn q s) = false) -> manualTag s = None.
Proof.
  induction s as [|c r IH]; intros H; [reflexivity|].
  pose proof (tagAt_no_prefix _ (H 0)) as H0.
  change (tagAt (c :: r) = None) in H0.
  rewrite manualTag_cons, H0.
  apply IH. intros q. exact (H (S q)).
Qed.

(** A tag-command whose argument has no closing brace and no line break,
    and after which the line has no closing brace, yields its argument,
    provided no tag-command starts before it. *)
Lemma dotRun_app (g rest : str) :
  (forall c, In c g -> isLineTerminator c = false) ->
  dotRun (g ++ rest) = g ++ dotRun rest.
Proof.
  induction g as [|c g IH]; intros H; simpl; [reflexivity|].
  rewrite (H c (or_introl eq_refl)). f_equal. apply IH. intros c' Hc'. apply H. now right.
Qed.

Lemma lastBrace_none_app (g rest : str) :
  lastBrace rest = None -> (forall c, In c g -> c <> "}"%char) ->
  lastBrace (g ++ "}"%char :: rest) = Some (length g).
Proof.
  intros Hrest. induction g as [|c g IH]; intros H; simpl.
  - now rewrite Hrest.
  - rewrite IH; [reflexivity|]. intros c' Hc'. apply H. now right.
Qed.

Lemma tagAt_simple (g post : str) :
  (forall c, In c g -> isLineTerminator c = false /\ c <> "}"%char) ->
  lastBrace (dotRun post) = None ->
  tagAt (tagOpen ++ g ++ "}"%char :: post) = Some g.
Proof.
  intros Hg Hpost. unfold tagAt.
  change (isPrefix tagOpen (tagOpen ++ g ++ "}"%char :: post))
    with (isPrefix [] (g ++ "}"%char :: post)).
  assert (Hp : forall x, isPrefix [] x = true) by (now intros [|? ?]). rewrite Hp.
  change (skipn (length tagOpen) (tagOpen ++ g ++ "}"%char :: post))
    with (g ++ "}"%char :: post).
  rewrite dotRun_app by (intros c Hc; now apply Hg). simpl.
  rewrite lastBrace_none_app; [|assumption|intros c Hc; now apply Hg].
  now rewrite firstn_app, Nat.sub_diag, firstn_all, app_nil_r.
Qed.

Lemma manualTag_simple (pre g post : str) :
  (forall q, q < length pre -> tagAt (skipn q (pre ++ tagOpen ++ g ++ "}"%char :: post)) = None) ->
  (forall c, In c g -> isLineTerminator c = false /\ c <> "}"%char) ->
  lastBrace (dotRun post) = None ->
  manualTag (pre ++ tagOpen ++ g ++ "}"%char :: post) = Some g.
Proof.
  intros Hpre Hg Hpost. induction pre as [|c pre IH].
  - pose proof (tagAt_simple g post Hg Hpost) as Ht.
    change ([] ++ tagOpen ++ g ++ "}"%char :: post)
      with ("\"%char :: skipn 1 tagOpen ++ g ++ "}"%char :: post) in *.
    change (tagOpen ++ g ++ "}"%char :: post)
      with ("\"%char :: skipn 1 tagOpen ++ g ++ "}"%char :: post) in Ht.
    now rewrite manualTag_cons, Ht.
  - change ((c :: pre) ++ tagOpen ++ g ++ "}"%char :: post)
      with (c :: (pre ++ tagOpen ++ g ++ "}"%char :: post)).
    rewrite manualTag_cons.
    pose proof (Hpre 0 ltac:(simpl; lia)) as H0.
    change (tagAt (c :: (pre ++ tagOpen ++ g ++ "}"%char :: post)) = None) in H0.
    rewrite H0.
    apply IH. intros q Hq. exact (Hpre (S q) ltac:(simpl; lia)).
Qed.

(** ** The block pass *)

Section BlockClaims.

Context {E : Externals}.

Import BTreeFacts.

(** C1 (amended).  For a callout whose header line parses as theorem
    settings and whose text has [N] display-math regions, a turn of the
    block loop that starts with ordinal [k] stores the [N] synthesized
    equation blocks first, the [i]-th of them (from 0) with ordinal
    [k + i] under the key of its own start line, and then the callout
    itself with ordinal [k + N], and leaves [k + N + 1] for the next
    top-level block: the ordinal of a nested equation is strictly less
    than that of its enclosing callout. *)
Theorem C1_callout_ordinals (markdown : str) (lines : list str) (excludeExample : bool)
    (blocks : BTree.t JsonMarkdownBlock) (k : Z) (block : SectionCache)
    (settings : MinimalTheoremCalloutSettings) :
  sc_type block = lit "callout" ->
  readTheoremCalloutSettings
    (arrGet lines (loc_line (pos_start (sc_position block)))) excludeExample
  = Some settings ->
  let start := loc_line (pos_start (sc_position block)) in
  let eqs := findDisplayMathInCalloutBlock (getBlockText markdown block) start
               (loc_offset (pos_start (sc_position block))) in
  let N := len eqs in
  processBlock markdown lines excludeExample (blocks, k) block
  = (BTree.set start (theoremBlock (k + N) lines block settings)
       (fold_left
          (fun t (p : nat * MathRegion) =>
             BTree.set (lineStart (snd p))
               (nestedEquationBlock (k + Z.of_nat (fst p)) (snd p)) t)
          (combine (seq 0 (length eqs)) eqs) blocks),
     (k + N + 1)%Z)
  /\ b_ordinal (theoremBlock (k + N) lines block settings) = (k + N)%Z
  /\ forall i eq, nth_error eqs i = Some eq ->
       b_ordinal (nestedEquationBlock (k + Z.of_nat i) eq) = (k + Z.of_nat i)%Z
       /\ (b_ordinal (nestedEquationBlock (k + Z.of_nat i) eq)
           < b_ordinal (theoremBlock (k + N) lines block settings))%Z.
Proof.
  intros Htype Hsettings start eqs N. split; [|split].
  - rewrite processBlock_writes. unfold blockWrites.
    rewrite Htype.
    replace (str_eqb (lit "callout") (lit "heading")) with false by reflexivity.
    replace (str_eqb (lit "callout") (lit "math")) with false by reflexivity.
    replace (str_eqb (lit "callout") (lit "callout")) with true by reflexivity.
    rewrite Hsettings.
    fold start. fold eqs. fold N.
    rewrite applyWrites_app, len_app, nestedWrites_len. fold N.
    apply f_equal2; [|change (len [_]) with 1%Z; lia].
    unfold applyWrites at 1. simpl fold_left. f_equal.
    replace k with (k + Z.of_nat 0)%Z at 1 by lia.
    rewrite nestedWrites_indexed. unfold applyWrites.
    rewrite fold_over_map. reflexivity.
  - reflexivity.
  - intros i eq Hi. simpl. split; [reflexivity|].
    assert (i < length eqs) by (apply nth_error_Some; congruence).
    unfold N, len. lia.
Qed.

(** C10.  Let [ws] be the calls of [blocks.set] that the block pass makes,
    in order.  The block index is what these calls leave, keyed by start
    line.  When the calls number [i] and [j], [i < j], have the same key
    [k], the key holds the object of a call at or after [j]; the block of
    call [i], which consumed the ordinal [1 + i], is in no entry of the
    index, and in no section of the page that [markdownImport] returns;
    the ordinal counter has still moved past it. *)
Theorem C10_last_writer_wins (path markdown : str) (metadata : CachedMetadata)
    (excludeExample : bool) (i j : nat) (k : Z) (b1 b2 : JsonMarkdownBlock) :
  let lines := split_nl markdown in
  let bs := orEmpty (md_sections metadata) in
  let ws := passWrites markdown lines excludeExample 1 bs in
  let blocks := fst (buildBlocks markdown lines excludeExample bs) in
  i < j -> nth_error ws i = Some (k, b1) -> nth_error ws j = Some (k, b2) ->
  blocks = applyWrites ws BTree.empty
  /\ snd (buildBlocks markdown lines excludeExample bs) = (1 + len ws)%Z
  /\ b_ordinal b1 = (1 + Z.of_nat i)%Z
  /\ sp_start (b_position b1) = k /\ sp_start (b_position b2) = k
  /\ (exists j' b', j <= j' /\ nth_error ws j' = Some (k, b')
                    /\ BTree.get k blocks = Some b')
  /\ (forall b, In b (BTree.values blocks) -> b_ordinal b <> b_ordinal b1)
  /\ (forall page,
        snd (markdownImport path markdown metadata excludeExample) = Some page ->
        forall section b, In section (p_sections page) -> In b (js_blocks section) ->
                          b_ordinal b <> b_ordinal b1).
Proof.
  intros lines bs ws blocks Hij Hi Hj.
  assert (Hblocks : blocks = applyWrites ws BTree.empty)
    by (unfold blocks; now rewrite buildBlocks_writes).
  pose proof (passWrites_ok markdown lines excludeExample 1 bs) as Hok. fold ws in Hok.
  destruct (Hok _ _ _ Hi) as (Ho1 & _ & Hk1).
  destruct (Hok _ _ _ Hj) as (_ & _ & Hk2).
  assert (Habsent : forall b, In b (BTree.values blocks) -> b_ordinal b <> b_ordinal b1).
  { intros b Hb Heq. unfold BTree.values in Hb.
    apply in_map_iff in Hb as ([k0 b0] & Hb0 & Hin). simpl in Hb0. subst b0.
    apply In_get in Hin; [|unfold blocks; apply buildBlocks_sorted].
    rewrite Hblocks in Hin. unfold applyWrites in Hin. rewrite get_writes in Hin.
    destruct (BTree.lastWrite k0 ws) as [x|] eqn:Hlast; [|discriminate].
    injection Hin as ->.
    apply lastWrite_nth in Hlast as (n & Hn & Hlater).
    destruct (Hok _ _ _ Hn) as (Hon & _ & _).
    assert (n = i) by lia. subst n.
    rewrite Hi in Hn. injection Hn as -> _.
    exact (Hlater j b2 Hij Hj). }
  repeat split; auto.
  - unfold blocks. now rewrite buildBlocks_writes.
  - destruct (nth_lastWrite _ _ _ _ Hj) as (j' & b' & Hle & Hj' & Hlast).
    exists j', b'. repeat split; auto.
    rewrite Hblocks. unfold applyWrites. now rewrite get_writes, Hlast.
  - intros page Hpage section b Hsec Hb.
    unfold markdownImport in Hpage. simpl in Hpage.
    rewrite finalStore_unfold in Hpage.
    destruct (buildSections _ _ _ _) as [secs|]; [|discriminate].
    injection Hpage as <-. simpl in Hsec.
    set (st := fold_left frontmatterStep _ _) in *.
    assert (Hin : In b (BTree.values (st_blocks st))).
    { apply (pageBlocks_In _ (BTree.values (st_sections st))).
      apply in_flat_map. eauto. }
    assert (Hgrow : storeGrows (initialStore markdown excludeExample metadata secs) st).
    { eapply storeGrows_trans; [apply links_fold_grows | apply frontmatter_fold_grows]. }
    destruct Hgrow as (_ & _ & Hb').
    destruct (related_values _ _ _ _ Hb' Hin) as (b0 & Hb0 & (Hord & _)).
    rewrite Hord. now apply Habsent.
Qed.

End BlockClaims.

(** ** Determinism *)

Section Determinism.

Context {E : Externals}.

Lemma orEmpty_sorted (h : option (list HeadingCache)) :
  sortHeadings (orEmpty (option_map sortHeadings h)) = sortHeadings (orEmpty h).
Proof. destruct h as [l|]; simpl; [apply sortHeadings_idem | reflexivity]. Qed.

(** C9.  A run of the indexer is a function of its four inputs and of
    nothing else.  The one thing a run changes is the heading array of the
    outline, which it sorts in place; a second run on the same path, text
    and flag and on the outline object as the first run left it returns
    the same page (or raises as the first did) and leaves the outline as
    it found it. *)
Theorem C9_deterministic (path markdown : str) (metadata : CachedMetadata)
    (excludeExample : bool) :
  let run1 := markdownImport path markdown metadata excludeExample in
  let run2 := markdownImport path markdown (fst run1) excludeExample in
  snd run2 = snd run1 /\ fst run2 = fst run1.
Proof.
  assert (Hstore : finalStore path markdown
                     (fst (markdownImport path markdown metadata excludeExample))
                     excludeExample
                   = finalStore path markdown metadata excludeExample).
  { rewrite !finalStore_unfold. simpl. now rewrite orEmpty_sorted. }
  cbv zeta. split.
  - rewrite !markdownImport_snd. now rewrite Hstore.
  - rewrite !markdownImport_fst. simpl. f_equal.
    destruct (md_headings metadata) as [l|]; simpl; [|reflexivity].
    now rewrite sortHeadings_idem.
Qed.

End Determinism.

(** ** The section builder *)

Section SectionClaims.

Context {E : Externals}.

Import BTreeFacts.

Lemma exported_In (page : JsonMarkdownPage) (secs : BTree.t SectionObj) s :
  map exportedFields (p_sections page) = map sectionFields (BTree.values secs) ->
  In s (p_sections page) ->
  exists s0, In s0 (BTree.values secs) /\ sectionFields s0 = exportedFields s.
Proof.
  intros Hmap Hin. apply (in_map exportedFields) in Hin. rewrite Hmap in Hin.
  apply in_map_iff in Hin as (s0 & H1 & H2). eauto.
Qed.

Lemma exported_ex (page : JsonMarkdownPage) (secs : BTree.t SectionObj) s0 :
  map exportedFields (p_sections page) = map sectionFields (BTree.values secs) ->
  In s0 (BTree.values secs) ->
  exists s, In s (p_sections page) /\ exportedFields s = sectionFields s0.
Proof.
  intros Hmap Hin. apply (in_map sectionFields) in Hin. rewrite <- Hmap in Hin.
  apply in_map_iff in Hin as (s & H1 & H2). eauto.
Qed.

Lemma heading_sections_ordinal hs (nlines : Z) s :
  In s (BTree.values (headingSections hs 0 nlines BTree.empty)) -> (1 <= s_ordinal s)%Z.
Proof.
  intros Hin.
  pose proof (headingSections_values hs 0 nlines BTree.empty ltac:(lia) ltac:(constructor)) as H.
  rewrite Forall_forall in H. now apply H.
Qed.

Lemma content_not_blank lines e : contentBefore lines e -> blankBefore lines e -> False.
Proof. intros (j & l & Hj & Hl & Hne) Hb. exact (Hne (Hb j l Hj Hl)). Qed.

(** When the implicit leading section is made.  For an outline whose
    headings are on lines of the document, the indexer returns a page, and
    the page has a section of ordinal 0 if and only if either there is a
    heading, the first heading is not on line 0 and some line before it is
    not blank, or there is no heading and some line of the document is not
    blank.  Such a section has level 1 and the title derived from the
    path; its span starts at line 0 and ends on the line before the first
    heading.  Without headings the end that the code stores is the number
    of lines, which is also the end position of the page: one more than
    the number of the last line. *)
Lemma implicit_section_cases (path markdown : str) (metadata : CachedMetadata)
    (excludeExample : bool) :
  let lines := split_nl markdown in
  let hs := orEmpty (md_headings metadata) in
  Forall (fun h => (0 <= headingLine h < len lines)%Z) hs ->
  exists page,
    snd (markdownImport path markdown metadata excludeExample) = Some page
    /\ ((exists s, In s (p_sections page) /\ js_ordinal s = 0%Z)
        <-> ((exists h0, firstHeading hs h0 /\ headingLine h0 <> 0%Z
                         /\ contentBefore lines (headingLine h0))
             \/ (hs = [] /\ exists l, In l lines /\ trim l <> [])))
    /\ forall s, In s (p_sections page) -> js_ordinal s = 0%Z ->
         js_level s = 1%Z /\ js_title s = getFileTitle path
         /\ sp_start (js_position s) = 0%Z
         /\ (forall h0, firstHeading hs h0 ->
               sp_end (js_position s) = (headingLine h0 - 1)%Z)
         /\ (hs = [] -> sp_end (js_position s) = len lines
                        /\ sp_end (js_position s) = sp_end (p_position page)).
Proof.
  intros lines hs Hrange.
  destruct (buildSections_cases path lines _ hs Hrange (empty_flag lines))
    as [(Hnil & Hblank & Hsecs)|[(Hnil & Hcontent & Hsecs)|
        [(h0 & Hfirst & Hblank & Hsecs)|(h0 & Hfirst & Hcontent & Hsecs)]]];
    destruct (page_of_sections _ _ _ excludeExample _ Hsecs) as (page & Hpage & Hfields & Hpos);
    exists page; (split; [exact Hpage|]).
  - (* no heading, blank document *)
    simpl in Hfields. apply map_eq_nil in Hfields. rewrite Hfields. split.
    + split.
      * intros (s & [] & _).
      * intros [(h & [Hin _] & _)|(_ & l & Hl & Hne)].
        -- rewrite Hnil in Hin. destruct Hin.
        -- elim Hne. auto.
    + intros s [].
  - (* no heading, some content *)
    split.
    + split; [intros _; right; auto|]. intros _.
      destruct (exported_ex page _ (implicitSection path (len lines)) Hfields
                  (or_introl eq_refl)) as (s & Hs & Hf).
      exists s. split; [exact Hs|]. now injection Hf.
    + intros s Hs Hord.
      destruct (exported_In page _ s Hfields Hs) as (s0 & [<-|[]] & Hf).
      injection Hf as _ Ht Hl Hp. rewrite <- Hp, <- Ht, <- Hl, Hpos. simpl.
      do 3 (split; [reflexivity|]). split.
      * intros h [Hin _]. rewrite Hnil in Hin. destruct Hin.
      * intros _. split; reflexivity.
  - (* headings, only blank lines before the first *)
    split.
    + split.
      * intros (s & Hs & Hord).
        destruct (exported_In page _ s Hfields Hs) as (s0 & Hs0 & Hf).
        apply heading_sections_ordinal in Hs0. injection Hf as Ho _ _ _. lia.
      * intros [(h & Hh & _ & Hc)|(Hnil & _)].
        -- rewrite (firstHeading_line _ _ _ Hh Hfirst) in Hc.
           elim (content_not_blank _ _ Hc Hblank).
        -- destruct Hfirst as [Hin _]. rewrite Hnil in Hin. destruct Hin.
    + intros s Hs Hord.
      destruct (exported_In page _ s Hfields Hs) as (s0 & Hs0 & Hf).
      apply heading_sections_ordinal in Hs0. injection Hf as Ho _ _ _. lia.
  - (* headings, content before the first *)
    assert (Hne : headingLine h0 <> 0%Z)
      by (destruct Hcontent as (j & l & Hj & _); lia).
    split.
    + split; [intros _; left; eauto|]. intros _.
      destruct (exported_ex page _ (implicitSection path (headingLine h0 - 1)) Hfields)
        as (s & Hs & Hf).
      { apply (values_In _ 0%Z). apply get_In. rewrite get_set. reflexivity. }
      exists s. split; [exact Hs|]. now injection Hf.
    + intros s Hs Hord.
      destruct (exported_In page _ s Hfields Hs) as (s0 & Hs0 & Hf).
      unfold BTree.values in Hs0. apply in_map_iff in Hs0 as ([k0 v0] & Hv & Hin).
      simpl in Hv. subst v0.
      apply In_set in Hin as [[_ ->]|Hin].
      * injection Hf as _ Ht Hl Hp. rewrite <- Hp, <- Ht, <- Hl. simpl.
        do 3 (split; [reflexivity|]). split.
        -- intros h Hh. now rewrite (firstHeading_line _ _ _ Hh Hfirst).
        -- intros Hnil. destruct Hfirst as [Hin _]. rewrite Hnil in Hin. destruct Hin.
      * apply values_In in Hin. apply heading_sections_ordinal in Hin.
        injection Hf as Ho _ _ _. lia.
Qed.

(** *** Coverage *)

Lemma coverCount_cons (sp : Span) (spans : list Span) (l : Z) :
  coverCount (sp :: spans) l = (if covers sp l then 1 else 0) + coverCount spans l.
Proof. unfold coverCount. simpl. now destruct (covers sp l). Qed.

(** The sections of headings on strictly ascending lines follow one
    another without gap or overlap, from the first heading to the last
    line. *)
Lemma chain_cover (hs : list HeadingCache) (index nlines l : Z) (h0 : HeadingCache)
    (r : list HeadingCache) :
  hs = h0 :: r ->
  StronglySorted Z.lt (map headingLine hs) ->
  Forall (fun h => (headingLine h <= nlines - 1)%Z) hs ->
  coverCount (map s_position (BTree.values (headingEntries hs index nlines))) l
  = if ((headingLine h0 <=? l)%Z && (l <=? nlines - 1)%Z)%bool then 1 else 0.
Proof.
  revert index h0 r; induction hs as [|h hs IH]; intros index h0 r Heq Hs Hle;
    [discriminate|].
  injection Heq as -> ->.
  inversion Hs as [|? ? Hs' Hall]; subst.
  inversion Hle as [|? ? Hh0 Hle']; subst.
  simpl headingEntries. unfold BTree.values. simpl map.
  rewrite coverCount_cons. unfold covers at 1. simpl.
  destruct r as [|h1 r'].
  - simpl. unfold coverCount. simpl.
    destruct (headingLine h0 <=? l)%Z, (l <=? nlines - 1)%Z; reflexivity.
  - change (map s_position (map snd (headingEntries (h1 :: r') (index + 1) nlines)))
      with (map s_position (BTree.values (headingEntries (h1 :: r') (index + 1) nlines))).
    rewrite (IH (index + 1)%Z h1 r' eq_refl Hs' Hle').
    inversion Hall as [|? ? Hlt _]; subst.
    inversion Hle' as [|? ? Hh1 _]; subst.
    destruct (Z.leb_spec (headingLine h0) l), (Z.leb_spec l (headingLine h1 - 1)),
      (Z.leb_spec (headingLine h1) l), (Z.leb_spec l (nlines - 1)); simpl; lia.
Qed.

Lemma exported_spans (page : JsonMarkdownPage) (secs : BTree.t SectionObj) :
  map exportedFields (p_sections page) = map sectionFields (BTree.values secs) ->
  map js_position (p_sections page) = map s_position (BTree.values secs).
Proof.
  intros H. apply (f_equal (map snd)) in H. rewrite !map_map in H. exact H.
Qed.

(** The head of the sorted heading array is a first heading. *)
Lemma sorted_head_first hs h r :
  sortHeadings hs = h :: r -> firstHeading hs h.
Proof.
  intros Heq. split.
  - apply (proj1 (sortHeadings_In _ _)). rewrite Heq. now left.
  - intros x Hx. apply sortHeadings_In in Hx. rewrite Heq in Hx.
    pose proof (sortHeadings_sorted hs) as Hs. rewrite Heq in Hs.
    inversion Hs as [|? ? _ Hall]; subst.
    destruct Hx as [->|Hx]; [lia|].
    rewrite Forall_forall in Hall. exact (Hall x Hx).
Qed.

(** C2 (amended).  For an outline whose headings are on distinct
    non-blank lines of the document, the indexer returns a page whose
    section spans are as follows.  An entirely blank document has no
    section.  A document without headings and with a non-blank line has
    one section, which starts at line 0 and contains every line.  With
    headings, the spans do not overlap and cover exactly the lines from
    a first covered line to the last line, each of them once: the first
    covered line is 0 when some line before the first heading is not
    blank, and the line of the first heading when all lines before it are
    blank. *)
Theorem C2_sections_cover (path markdown : str) (metadata : CachedMetadata)
    (excludeExample : bool) :
  let lines := split_nl markdown in
  let hs := orEmpty (md_headings metadata) in
  let lastLine := (len lines - 1)%Z in
  Forall (fun h => exists l, arrGet lines (headingLine h) = Some l /\ trim l <> []) hs ->
  NoDup (map headingLine hs) ->
  exists page,
    snd (markdownImport path markdown metadata excludeExample) = Some page
    /\ ((forall l, In l lines -> trim l = []) -> p_sections page = [])
    /\ (hs = [] -> (exists l, In l lines /\ trim l <> []) ->
        exists sp, map js_position (p_sections page) = [sp]
                   /\ sp_start sp = 0%Z /\ (lastLine <= sp_end sp)%Z)
    /\ (forall h0, firstHeading hs h0 ->
          (contentBefore lines (headingLine h0) ->
           coversExactly (map js_position (p_sections page)) 0 lastLine)
          /\ (blankBefore lines (headingLine h0) ->
              coversExactly (map js_position (p_sections page)) (headingLine h0) lastLine)).
Proof.
  intros lines hs lastLine Htext Hnodup.
  assert (Hrange : Forall (fun h => (0 <= headingLine h < len lines)%Z) hs).
  { eapply Forall_impl; [|exact Htext]. intros h (l & Hl & _).
    now apply arrGet_range in Hl. }
  assert (Hentries :
            headingSections (sortHeadings hs) 0 (len lines) BTree.empty
            = headingEntries (sortHeadings hs) 0 (len lines)).
  { rewrite headingSections_entries; [reflexivity| |intros k h []].
    apply sorted_distinct_strict;
      [apply sortHeadings_sorted | now apply sortHeadings_lines_NoDup]. }
  assert (Hchain : forall h0 l, firstHeading hs h0 ->
            coverCount (map s_position
                          (BTree.values (headingEntries (sortHeadings hs) 0 (len lines)))) l
            = if ((headingLine h0 <=? l)%Z && (l <=? lastLine)%Z)%bool then 1 else 0).
  { intros h0 l Hfirst.
    destruct (sortHeadings hs) as [|h r] eqn:Hsort.
    - destruct Hfirst as [Hin _]. apply sortHeadings_In in Hin.
      rewrite Hsort in Hin. destruct Hin.
    - rewrite (firstHeading_line _ _ _ Hfirst (sorted_head_first _ _ _ Hsort)).
      apply (chain_cover _ _ _ _ h r eq_refl).
      + rewrite <- Hsort. apply sorted_distinct_strict;
          [apply sortHeadings_sorted | now apply sortHeadings_lines_NoDup].
      + apply Forall_forall. intros x Hx. rewrite <- Hsort in Hx.
        apply (proj1 (sortHeadings_In _ _)) in Hx.
        rewrite Forall_forall in Hrange. specialize (Hrange x Hx). lia. }
  assert (Hheadtext : forall h0, In h0 hs -> ~ (forall l, In l lines -> trim l = [])).
  { intros h0 Hin Hblank. rewrite Forall_forall in Htext.
    destruct (Htext h0 Hin) as (l & Hl & Hne). apply Hne, Hblank.
    now apply arrGet_In in Hl. }
  destruct (buildSections_cases path lines _ hs Hrange (empty_flag lines))
    as [(Hnil & Hblank & Hsecs)|[(Hnil & Hcontent & Hsecs)|
        [(h0 & Hfirst & Hblank & Hsecs)|(h0 & Hfirst & Hcontent & Hsecs)]]];
    destruct (page_of_sections _ _ _ excludeExample _ Hsecs) as (page & Hpage & Hfields & Hpos);
    exists page; (split; [exact Hpage|]);
    pose proof (exported_spans _ _ Hfields) as Hspans.
  - (* no heading, blank document *)
    simpl in Hfields. apply map_eq_nil in Hfields. split; [auto|]. split.
    + intros _ (l & Hl & Hne). elim Hne. auto.
    + intros h [Hin _]. rewrite Hnil in Hin. destruct Hin.
  - (* no heading, some content *)
    split; [|split].
    + intros Hblank. destruct Hcontent as (l & Hl & Hne). elim Hne. auto.
    + intros _ _. rewrite Hspans. simpl. eexists. split; [reflexivity|].
      simpl. unfold lastLine. split; lia.
    + intros h [Hin _]. rewrite Hnil in Hin. destruct Hin.
  - (* headings, only blank lines before the first *)
    split; [|split].
    + intros Hb. elim (Hheadtext h0 (proj1 Hfirst) Hb).
    + intros Hnil. destruct Hfirst as [Hin _]. rewrite Hnil in Hin. destruct Hin.
    + intros h Hh. rewrite (firstHeading_line _ _ _ Hh Hfirst). split.
      * intros Hc. elim (content_not_blank _ _ Hc Hblank).
      * intros _ l. rewrite Hspans, Hentries. now apply Hchain.
  - (* headings, content before the first *)
    assert (Hpos0 : (0 < headingLine h0)%Z)
      by (destruct Hcontent as (j & l & Hj & _); lia).
    split; [|split].
    + intros Hb. elim (Hheadtext h0 (proj1 Hfirst) Hb).
    + intros Hnil. destruct Hfirst as [Hin _]. rewrite Hnil in Hin. destruct Hin.
    + intros h Hh. rewrite (firstHeading_line _ _ _ Hh Hfirst). split.
      * intros _ l. rewrite Hspans, Hentries.
        pose proof (Hchain h0 l Hfirst) as Hc.
        destruct (sortHeadings hs) as [|h' r] eqn:Hsort.
        { destruct Hfirst as [Hin _]. apply sortHeadings_In in Hin.
          rewrite Hsort in Hin. destruct Hin. }
        pose proof (firstHeading_line _ _ _ Hfirst (sorted_head_first _ _ _ Hsort)) as Hl.
        simpl headingEntries in *. simpl BTree.set.
        destruct (Z.ltb_spec 0 (headingLine h')); [|lia].
        unfold BTree.values in *. simpl map in *.
        rewrite coverCount_cons. rewrite Hc. unfold covers. simpl.
        rewrite Forall_forall in Hrange. pose proof (Hrange h0 (proj1 Hfirst)).
        unfold lastLine.
        destruct (Z.leb_spec 0 l), (Z.leb_spec l (headingLine h0 - 1)),
          (Z.leb_spec (headingLine h0) l), (Z.leb_spec l (len lines - 1)); simpl; lia.
      * intros Hb. elim (content_not_blank _ _ Hcontent Hb).
Qed.

End SectionClaims.

(** ** The position resolver *)

Section ResolverClaims.

Context {E : Externals}.




End ResolverClaims.

(* ================================================================== *)
(** * The properties on concrete documents *)
(* ================================================================== *)

Section Examples.

Import Sample.

#[local] Existing Instance externals.

Lemma valueOr_Some {A : Type} (o : option A) (d : A) :
  isSome o = true -> o = Some (valueOr o d).
Proof. destruct o; [reflexivity | discriminate]. Qed.

(** C1, as first stated, fails: in the page of a theorem callout with two
    display-math regions, the callout has ordinal 3 and its two nested
    equations have the ordinals 1 and 2, which are not greater than 3. *)
Lemma C1_counterexample :
  snd (markdownImport (lit "a.md") calloutText calloutOutline false) = Some calloutPage
  /\ map (fun b => (isTheoremCalloutBlock b, isEquationBlock b, b_ordinal b))
         (pageBlocks calloutPage)
     = [(true, false, 3%Z); (false, true, 1%Z); (false, true, 2%Z)]
  /\ ~ (forall c e, In c (pageBlocks calloutPage) -> In e (pageBlocks calloutPage) ->
                    isTheoremCalloutBlock c = true -> isEquationBlock e = true ->
                    (b_ordinal c < b_ordinal e)%Z).
Proof.
  split; [apply valueOr_Some; vm_compute; reflexivity|].
  assert (Hlist : map (fun b => (isTheoremCalloutBlock b, isEquationBlock b, b_ordinal b))
                      (pageBlocks calloutPage)
                  = [(true, false, 3%Z); (false, true, 1%Z); (false, true, 2%Z)])
    by (vm_compute; reflexivity).
  split; [exact Hlist|].
  destruct (pageBlocks calloutPage) as [|c [|e rest]]; try discriminate Hlist.
  simpl in Hlist. injection Hlist as Hc1 Hc2 Hc3 He1 He2 He3 _.
  intros H.
  specialize (H c e (or_introl eq_refl) (or_intror (or_introl eq_refl)) Hc1 He2).
  lia.
Qed.

Lemma C1_callout_ordinals_witness :
  let eq := {| lineStart := 1; lineEnd := 1; startOffset := 17; endOffset := 22;
               mathText := lit "a" |} in
  let callout := theoremBlock 3 (split_nl calloutText) (block_ "callout" 0 0 2 30)
                   (lit "theorem" : MinimalTheoremCalloutSettings) in
  b_ordinal (nestedEquationBlock 1 eq) = 1%Z
  /\ (b_ordinal (nestedEquationBlock 1 eq) < b_ordinal callout)%Z.
Proof.
  exact (proj2 (proj2 (C1_callout_ordinals calloutText (split_nl calloutText) false
                         BTree.empty 1 (block_ "callout" 0 0 2 30)
                         (lit "theorem" : MinimalTheoremCalloutSettings)
                         eq_refl eq_refl))
           0 _ eq_refl).
Defined.

(** C2, as first stated, fails: for a document made of a blank line and a
    heading, which has a non-blank line, the only section spans line 1, so
    line 0 of the range from 0 to the last line (1) is in no section. *)
Lemma C2_counterexample :
  (exists l, In l (split_nl lateHeadingText) /\ trim l <> [])
  /\ (len (split_nl lateHeadingText) - 1 = 1)%Z
  /\ option_map (fun page => map js_position (p_sections page))
        (snd (markdownImport (lit "a.md") lateHeadingText lateHeadingOutline false))
     = Some [ {| sp_start := 1; sp_end := 1 |} ]
  /\ coverCount [ {| sp_start := 1; sp_end := 1 |} ] 0 = 0.
Proof.
  split; [exists (lit "# H"); split; [right; left; reflexivity | discriminate]|].
  split; [reflexivity|]. split; [vm_compute; reflexivity | reflexivity].
Qed.

Lemma C2_sections_cover_witness :
  exists page,
    snd (markdownImport (lit "a.md") introText introOutline false) = Some page
    /\ coversExactly (map js_position (p_sections page)) 0 4.
Proof.
  assert (Htext : Forall (fun h => exists l,
                      arrGet (split_nl introText) (headingLine h) = Some l /\ trim l <> [])
                    [heading_ "H1" 1 2]).
  { constructor; [|constructor]. exists (lit "# H1"). split; [reflexivity | discriminate]. }
  assert (Hnodup : NoDup (map headingLine [heading_ "H1" 1 2])).
  { constructor; [intros [] | constructor]. }
  destruct (C2_sections_cover (lit "a.md") introText introOutline false Htext Hnodup)
    as (page & Hpage & _ & _ & Hcover).
  exists page. split; [exact Hpage|].
  apply (Hcover (heading_ "H1" 1 2)).
  - split; [now left|]. intros h [<-|[]]. apply Z.le_refl.
  - exists 0%Z, (lit "intro").
    split; [vm_compute; split; [discriminate | reflexivity]|].
    split; [reflexivity | discriminate].
Defined.

(** C3.  The end of the implicit section of a document without headings.
    The document of the two lines [a] and [b], which has the lines 0 and 1
    and no line 2, gets one section, the implicit one of ordinal 0, and the
    code stores 2 as its end: the number of lines, one past the last line.
    For the same text with a heading on line 0 the section of that heading
    ends on line 1, the last line. *)
Theorem C3_headingless_end_overshoots :
  len (split_nl twoLineText) = 2%Z
  /\ arrGet (split_nl twoLineText) 1 = Some (lit "b")
  /\ arrGet (split_nl twoLineText) 2 = None
  /\ option_map (fun page => map (fun s => (js_ordinal s, js_position s)) (p_sections page))
       (snd (markdownImport (lit "a.md") twoLineText noHeadingOutline false))
     = Some [ (0%Z, {| sp_start := 0; sp_end := 2 |}) ]
  /\ option_map (fun page => map (fun s => (js_ordinal s, js_position s)) (p_sections page))
       (snd (markdownImport (lit "a.md") twoLineText firstLineHeadingOutline false))
     = Some [ (1%Z, {| sp_start := 0; sp_end := 1 |}) ].
Proof.
  split; [reflexivity|]. split; [reflexivity|]. split; [reflexivity|].
  split; vm_compute; reflexivity.
Qed.

(** C4, as first stated, fails: in the callout line whose display math is a
    space, a quote marker and [x], the text between the delimiters (the
    offsets 4 to 7) does not start with the quote marker, so removing the
    marker from every line and trimming leaves the marker and [x]; the
    extractor, which trims first, records [x]. *)
Lemma C4_counterexample :
  findDisplayMathInCalloutBlock quotedMathText 0 0
  = [ {| lineStart := 0; lineEnd := 0; startOffset := 2; endOffset := 9;
         mathText := lit "x" |} ]
  /\ slice quotedMathText 4 7 = lit " >x"
  /\ specMathText (lit " >x") = lit ">x"
  /\ lit "x" <> lit ">x".
Proof.
  split; [vm_compute; reflexivity|]. split; [reflexivity|].
  split; [vm_compute; reflexivity | discriminate].
Qed.

Example implicit_section_of_intro :
  exists page,
    snd (markdownImport (lit "a.md") introText introOutline false) = Some page
    /\ exists s, In s (p_sections page) /\ js_ordinal s = 0%Z.
Proof.
  assert (Hrange : Forall (fun h => (0 <= headingLine h < len (split_nl introText))%Z)
                     [heading_ "H1" 1 2]).
  { constructor; [|constructor]. vm_compute. split; [discriminate | reflexivity]. }
  destruct (implicit_section_cases (lit "a.md") introText introOutline false Hrange)
    as (page & Hpage & Hiff & _).
  exists page. split; [exact Hpage|].
  apply Hiff. left. exists (heading_ "H1" 1 2). split; [|split].
  - split; [now left|]. intros h [<-|[]]. apply Z.le_refl.
  - discriminate.
  - exists 0%Z, (lit "intro").
    split; [vm_compute; split; [discriminate | reflexivity]|].
    split; [reflexivity | discriminate].
Qed.

Lemma C6_link_assignment_witness :
  exists st,
    finalStore (lit "a.md") introText introOutline false = Some st
    /\ storeDistinct st
    /\ linkPlaced (Link_infer (lit "x")) 3 st.
Proof.
  assert (Hsome : isSome (finalStore (lit "a.md") introText introOutline false) = true)
    by (vm_compute; reflexivity).
  destruct (finalStore (lit "a.md") introText introOutline false) as [st|] eqn:Hst;
    [|discriminate Hsome].
  exists st. split; [reflexivity|].
  destruct (C6_link_assignment (lit "a.md") introText introOutline false st Hst)
    as (Hplaced & Hdistinct & _).
  split; [exact Hdistinct|].
  apply (Hplaced (link_ "x" 3)). now left.
Defined.


Lemma C10_last_writer_wins_witness :
  map (fun b => (isTheoremCalloutBlock b, b_ordinal b))
      (pageBlocks (pageOf (markdownImport (lit "a.md") headerMathText headerMathOutline false)))
  = [(true, 2%Z)]
  /\ forall page section b,
       snd (markdownImport (lit "a.md") headerMathText headerMathOutline false) = Some page ->
       In section (p_sections page) -> In b (js_blocks section) -> b_ordinal b <> 1%Z.
Proof.
  split; [vm_compute; reflexivity|].
  pose (ws := passWrites headerMathText (split_nl headerMathText) false 1
                (orEmpty (md_sections headerMathOutline))).
  pose (b1 := snd (valueOr (nth_error ws 0) (0%Z, noBlock))).
  pose (b2 := snd (valueOr (nth_error ws 1) (0%Z, noBlock))).
  assert (H1 : nth_error ws 0 = Some (0%Z, b1)).
  { rewrite (valueOr_Some (nth_error ws 0) (0%Z, noBlock)) by (vm_compute; reflexivity).
    apply (f_equal Some). apply injective_projections; [vm_compute; reflexivity | reflexivity]. }
  assert (H2 : nth_error ws 1 = Some (0%Z, b2)).
  { rewrite (valueOr_Some (nth_error ws 1) (0%Z, noBlock)) by (vm_compute; reflexivity).
    apply (f_equal Some). apply injective_projections; [vm_compute; reflexivity | reflexivity]. }
  destruct (C10_last_writer_wins (lit "a.md") headerMathText headerMathOutline false
              0 1 0 b1 b2 Nat.lt_0_1 H1 H2)
    as (_ & _ & Hord & _ & _ & _ & _ & Hpage).
  intros page section b Hp Hsection Hb.
  change (1%Z) with (1 + Z.of_nat 0)%Z. rewrite <- Hord.
  exact (Hpage page Hp section b Hsection Hb).
Defined.

(** Two display-math regions that start on the same line of a callout: the
    pass consumes the ordinals 1, 2 and 3, and the page keeps the callout
    (ordinal 3) and the second equation (ordinal 2) only. *)
Example same_line_regions :
  map (fun w => (fst w, b_ordinal (snd w)))
      (passWrites sameLineText (split_nl sameLineText) false 1
         (orEmpty (md_sections sameLineOutline)))
  = [(1%Z, 1%Z); (1%Z, 2%Z); (0%Z, 3%Z)]
  /\ map (fun b => (isEquationBlock b, b_ordinal b))
         (pageBlocks (pageOf (markdownImport (lit "a.md") sameLineText sameLineOutline false)))
     = [(false, 3%Z); (true, 2%Z)].
Proof. split; vm_compute; reflexivity. Qed.

End Examples.

(* ================================================================== *)
(** * Further properties of the callout math extractor *)
(* ================================================================== *)

Lemma findLoop_scan_all (text : str) (L O : Z) (i : nat) (pairs : list (nat * nat)) :
  ScanAll text i pairs ->
  forall fuel, length text - i < fuel ->
  findLoop fuel text L O i [] = map (regionOf text L O) pairs.
Proof.
  induction 1 as [i Hnone | i s0 e pairs Hs He Hscan IH]; intros fuel Hfuel.
  - apply indexOf_none in Hnone.
    destruct fuel as [|fuel]; [lia|]. rewrite findLoop_S, Hnone. reflexivity.
  - apply indexOf_first in Hs, He.
    destruct fuel as [|fuel]; [lia|]. rewrite findLoop_S, Hs, He.
    rewrite findLoop_acc. simpl. f_equal.
    apply indexOf_delimiter_bound in Hs, He.
    apply IH. lia.
Qed.

(** Every text reads, from any position, as a sequence of delimiter pairs
    followed either by no delimiter or by an unterminated one. *)
Lemma scan_total (text : str) (n i : nat) :
  length text - i < n ->
  exists pairs, ScanAll text i pairs \/ exists s, ScanTo text i pairs s.
Proof.
  revert i; induction n as [|n IH]; intros i Hn; [lia|].
  destruct (indexOf delimiter text i) as [s0|] eqn:Hs.
  - destruct (indexOf delimiter text (s0 + 2)) as [e|] eqn:He.
    + pose proof (indexOf_delimiter_bound _ _ _ Hs).
      pose proof (indexOf_delimiter_bound _ _ _ He).
      destruct (IH (e + 2) ltac:(lia)) as (pairs & [Hall | (s & Hto)]).
      * exists ((s0, e) :: pairs). left.
        apply scan_more; [now apply indexOf_first | now apply indexOf_first | exact Hall].
      * exists ((s0, e) :: pairs). right. exists s.
        apply scan_pair; [now apply indexOf_first | now apply indexOf_first | exact Hto].
    + exists []. right. exists s0.
      apply scan_open; [now apply indexOf_first | now apply indexOf_none].
  - exists []. left. apply scan_done. now apply indexOf_none.
Qed.

(** The scan of a text always ends, and the loop returns the regions of
    the pairs it met. *)
Lemma extractor_pairs (text : str) (L O : Z) :
  exists pairs,
    (ScanAll text 0 pairs \/ exists s, ScanTo text 0 pairs s)
    /\ findDisplayMathInCalloutBlock text L O = map (regionOf text L O) pairs.
Proof.
  destruct (scan_total text (S (length text)) 0 ltac:(lia)) as (pairs & Hscan).
  exists pairs. split; [exact Hscan|].
  unfold findDisplayMathInCalloutBlock.
  destruct Hscan as [Hall | (s & Hto)].
  - apply findLoop_scan_all; [exact Hall | lia].
  - eapply findLoop_scan; [exact Hto | lia].
Qed.

(** X1.  The extractor returns exactly the regions of the delimiter pairs
    of the text, in order: the text reads as a sequence of pairs followed by
    no further delimiter or by an unterminated opening delimiter, and the
    result is the list of the regions of these pairs. *)
Theorem extractor_is_the_pairs (text : str) (L O : Z) :
  exists pairs,
    (ScanAll text 0 pairs \/ exists s, ScanTo text 0 pairs s)
    /\ findDisplayMathInCalloutBlock text L O = map (regionOf text L O) pairs.
Proof. exact (extractor_pairs text L O). Qed.

Lemma lineBreaks_firstn_mono (text : str) (a b : nat) :
  a <= b -> lineBreaks (firstn a text) <= lineBreaks (firstn b text).
Proof.
  unfold lineBreaks. revert a b; induction text as [|c r IH]; intros a b Hab.
  - now rewrite !firstn_nil.
  - destruct a as [|a]; [simpl; lia|]. destruct b as [|b]; [lia|].
    simpl. specialize (IH a b ltac:(lia)). destruct (ascii_dec c nl); lia.
Qed.

Lemma ScanAll_pairsFrom (text : str) (i : nat) (pairs : list (nat * nat)) :
  ScanAll text i pairs -> pairsFrom i (length text) pairs.
Proof.
  induction 1 as [i Hnone | i s0 e pairs Hs He Hscan IH]; simpl; [exact I|].
  apply indexOf_first in Hs, He. apply indexOf_delimiter_bound in Hs, He.
  repeat split; auto; lia.
Qed.

Lemma ScanTo_pairsFrom (text : str) (i : nat) (pairs : list (nat * nat)) (s : nat) :
  ScanTo text i pairs s -> pairsFrom i (length text) pairs.
Proof.
  induction 1 as [i s Hs He | i s0 e pairs s Hs He Hscan IH]; simpl; [exact I|].
  apply indexOf_first in Hs, He. apply indexOf_delimiter_bound in Hs, He.
  repeat split; auto; lia.
Qed.

Lemma regions_of_pairs (text : str) (L O : Z) (i : nat) (pairs : list (nat * nat)) :
  pairsFrom i (length text) pairs ->
  regionsFrom (L + Z.of_nat (lineBreaks (firstn i text))) (O + Z.of_nat i)
              (O + Z.of_nat (length text)) (map (regionOf text L O) pairs).
Proof.
  revert i; induction pairs as [|[s e] r IH]; intros i; simpl; [auto|].
  intros (Hi & Hse & He & Hr).
  pose proof (lineBreaks_firstn_mono text i s Hi).
  pose proof (lineBreaks_firstn_mono text s e ltac:(lia)).
  pose proof (lineBreaks_firstn_mono text e (e + 2) ltac:(lia)).
  repeat split; try lia.
  specialize (IH (e + 2) Hr).
  clear -IH H1. revert IH.
  generalize (map (regionOf text L O) r). intros [|r0 rest]; simpl; [auto|].
  intros (A & B & C & D & F & G). repeat split; auto; lia.
Qed.

(** X2.  The regions of a callout come in the order of the text and do not
    overlap: each starts at or after the callout's start line and offset and
    where the previous one ended, spans at least its two delimiters, ends on
    or after its start line and within the callout text. *)
Theorem extractor_regions_ordered (text : str) (L O : Z) :
  regionsFrom L O (O + Z.of_nat (length text)) (findDisplayMathInCalloutBlock text L O).
Proof.
  destruct (extractor_pairs text L O) as (pairs & Hscan & ->).
  assert (Hp : pairsFrom 0 (length text) pairs).
  { destruct Hscan as [H | (s & H)];
      [now apply ScanAll_pairsFrom | now apply ScanTo_pairsFrom in H]. }
  pose proof (regions_of_pairs text L O 0 pairs Hp) as H.
  simpl in H. unfold lineBreaks in H. simpl in H.
  now rewrite !Z.add_0_r in H.
Qed.

Lemma pairs_count (i n : nat) (pairs : list (nat * nat)) :
  pairsFrom i n pairs -> i + 4 * length pairs <= n \/ pairs = [].
Proof.
  revert i; induction pairs as [|[s e] r IH]; intros i; simpl; [auto|].
  intros (Hi & Hse & He & Hr). left.
  destruct (IH _ Hr) as [H | ->]; simpl; lia.
Qed.

(** X3.  A region takes at least four characters of the callout text, so a
    text of [n] characters has at most [n / 4] regions; a text shorter than
    four characters has none. *)
Theorem extractor_region_count (text : str) (L O : Z) :
  4 * length (findDisplayMathInCalloutBlock text L O) <= length text.
Proof.
  destruct (extractor_pairs text L O) as (pairs & Hscan & ->).
  assert (Hp : pairsFrom 0 (length text) pairs).
  { destruct Hscan as [H | (s & H)];
      [now apply ScanAll_pairsFrom | now apply ScanTo_pairsFrom in H]. }
  rewrite length_map. destruct (pairs_count _ _ _ Hp) as [H | ->]; simpl; lia.
Qed.

(* ================================================================== *)
(** * The tag pattern *)
(* ================================================================== *)

Lemma isPrefix_app (d s : str) : isPrefix d s = true <-> exists r, s = d ++ r.
Proof.
  revert s; induction d as [|a d IH]; intros s; simpl.
  - split; [intros _; now exists s | reflexivity].
  - destruct s as [|b s].
    + split; [discriminate | intros (r & Hr); discriminate Hr].
    + rewrite andb_true_iff, IH. split.
      * intros (Hab & r & ->). apply Ascii.eqb_eq in Hab. subst. now exists r.
      * intros (r & Hr). injection Hr as -> ->. split; [apply Ascii.eqb_refl | now exists r].
Qed.

Lemma dotRun_split (s : str) :
  exists rest,
    s = dotRun s ++ rest
    /\ (forall c, In c (dotRun s) -> isLineTerminator c = false)
    /\ (rest = [] \/ exists c rest', rest = c :: rest' /\ isLineTerminator c = true).
Proof.
  induction s as [|c r (rest & Heq & Hrun & Hrest)]; simpl.
  - exists []. repeat split; auto. intros c [].
  - destruct (isLineTerminator c) eqn:Hc.
    + exists (c :: r). repeat split; auto; [intros ? []|]. right. eauto.
    + exists rest. simpl. repeat split; auto; [congruence|].
      intros c' [<-|Hin]; auto.
Qed.

Lemma lastBrace_None (l : str) : lastBrace l = None <-> ~ In "}"%char l.
Proof.
  induction l as [|c r IH]; simpl; [tauto|].
  destruct (lastBrace r) as [n|] eqn:Hr.
  - split; [discriminate|]. intros H. exfalso.
    assert (Hnone : Some n = None); [|discriminate Hnone].
    apply IH. intros Hin. apply H. now right.
  - destruct (Ascii.eqb_spec c "}"%char) as [->|Hne].
    + split; [discriminate|]. intros H. elim H. now left.
    + split; [|reflexivity]. intros _ [Heq|Hin]; [congruence|].
      now apply (proj1 IH).
Qed.

Lemma lastBrace_Some (l : str) (n : nat) :
  lastBrace l = Some n ->
  l = firstn n l ++ "}"%char :: skipn (S n) l
  /\ length (firstn n l) = n
  /\ lastBrace (skipn (S n) l) = None.
Proof.
  revert n; induction l as [|c r IH]; intros n; simpl; [discriminate|].
  destruct (lastBrace r) as [m|] eqn:Hr.
  - intros [= <-]. destruct (IH m eq_refl) as (Heq & Hlen & Hnone).
    split; [|split].
    + change (c :: r = c :: (firstn m r ++ "}"%char :: skipn (S m) r)).
      f_equal. exact Heq.
    + change (S (length (firstn m r)) = S m). now rewrite Hlen.
    + exact Hnone.
  - destruct (Ascii.eqb_spec c "}"%char) as [->|Hne]; [|discriminate].
    intros [= <-]. simpl. repeat split; auto.
Qed.

Lemma lastBrace_app_ge (a b : str) :
  exists m, lastBrace (a ++ "}"%char :: b) = Some m /\ length a <= m.
Proof.
  induction a as [|c a (m & Hm & Hle)]; simpl.
  - destruct (lastBrace b) as [n|]; eexists; split; eauto; lia.
  - rewrite Hm. exists (S m). split; [reflexivity | lia].
Qed.

Lemma closing_brace_not_terminator : isLineTerminator "}"%char = false.
Proof. reflexivity. Qed.

(** A match that starts at the head of the text. *)
Lemma tagAt_match (s g : str) : tagAt s = Some g -> TagMatch s 0 g.
Proof.
  unfold tagAt. destruct (isPrefix tagOpen s) eqn:Hp; [|discriminate].
  apply isPrefix_app in Hp as (rest & ->).
  change (skipn (length tagOpen) (tagOpen ++ rest)) with rest.
  destruct (lastBrace (dotRun rest)) as [n|] eqn:Hn; [|discriminate].
  intros [= <-].
  destruct (dotRun_split rest) as (tail & Heq & Hrun & _).
  destruct (lastBrace_Some _ _ Hn) as (Hsplit & _ & _).
  exists [], (skipn (S n) (dotRun rest) ++ tail). split; [|split; [reflexivity|]].
  - simpl app at 1. f_equal. rewrite Heq at 1. rewrite Hsplit at 1.
    now rewrite <- app_assoc.
  - intros c Hc. apply Hrun. rewrite Hsplit. apply in_or_app. now left.
Qed.

Lemma tagAt_longest (s g' : str) :
  TagMatch s 0 g' -> exists g, tagAt s = Some g /\ length g' <= length g.
Proof.
  intros (pre & post & -> & Hpre & Hg'). destruct pre; [|discriminate].
  change ([] ++ tagOpen ++ g' ++ "}"%char :: post) with (tagOpen ++ g' ++ "}"%char :: post).
  unfold tagAt.
  replace (isPrefix tagOpen (tagOpen ++ g' ++ "}"%char :: post)) with true
    by (symmetry; apply isPrefix_app; eauto).
  change (skipn (length tagOpen) (tagOpen ++ g' ++ "}"%char :: post))
    with (g' ++ "}"%char :: post).
  rewrite dotRun_app by assumption. simpl dotRun.
  destruct (lastBrace_app_ge g' (dotRun post)) as (m & Hm & Hle). rewrite Hm.
  eexists. split; [reflexivity|].
  apply lastBrace_Some in Hm as (_ & Hlen & _). lia.
Qed.

Lemma TagMatch_cons (c : ascii) (r : str) (p : nat) (g : str) :
  TagMatch (c :: r) (S p) g <-> TagMatch r p g.
Proof.
  split.
  - intros (pre & post & Heq & Hlen & Hg). destruct pre as [|c' pre]; [discriminate|].
    injection Heq as -> ->. injection Hlen as Hlen. exists pre, post. auto.
  - intros (pre & post & -> & Hlen & Hg). exists (c :: pre), post.
    simpl. repeat split; auto.
Qed.

(** X4.  The manual tag is the capture of the leftmost, then longest match
    of the tag pattern: when the tag is [g], the pattern matches at some
    position [p] with capture [g], no match starts before [p], and no match
    at [p] has a longer capture; the tag is null exactly when the pattern
    matches nowhere. *)
Theorem manualTag_leftmost_longest (s : str) :
  (forall g, manualTag s = Some g ->
     exists p, TagMatch s p g
               /\ forall p' g', TagMatch s p' g' ->
                    p <= p' /\ (p' = p -> length g' <= length g))
  /\ (manualTag s = None <-> forall p g, ~ TagMatch s p g).
Proof.
  induction s as [|c r [IHsome IHnone]].
  - assert (Hno : forall p g, ~ TagMatch [] p g).
    { intros p g (pre & post & Heq & _). destruct pre; discriminate Heq. }
    split; [discriminate|]. split; [intros _; exact Hno | reflexivity].
  - rewrite manualTag_cons. destruct (tagAt (c :: r)) as [g0|] eqn:Hat.
    + split.
      * intros g [= <-]. exists 0. split; [now apply tagAt_match|].
        intros p' g' Hm. split; [lia|]. intros ->.
        destruct (tagAt_longest _ _ Hm) as (g1 & Hg1 & Hle). congruence.
      * split; [discriminate|]. intros H. elim (H 0 g0). now apply tagAt_match.
    + assert (Hno0 : forall g, ~ TagMatch (c :: r) 0 g).
      { intros g Hm. destruct (tagAt_longest _ _ Hm) as (g1 & Hg1 & _). congruence. }
      split.
      * intros g Hg. destruct (IHsome g Hg) as (p & Hm & Hmin).
        exists (S p). split; [now apply TagMatch_cons|].
        intros [|p'] g' Hm'; [elim (Hno0 g' Hm')|].
        apply TagMatch_cons in Hm'. destruct (Hmin p' g' Hm') as [Hle Hlen].
        split; [lia|]. intros [= ->]. auto.
      * rewrite IHnone. split.
        -- intros H [|p] g Hm; [elim (Hno0 g Hm)|].
           apply TagMatch_cons in Hm. elim (H p g Hm).
        -- intros H p g Hm. apply (H (S p) g). now apply TagMatch_cons.
Qed.

Lemma manualTag_leftmost_longest_witness :
  exists p, TagMatch (lit "x \tag{a} y} z
\tag{b}") p (lit "a} y")
            /\ forall p' g', TagMatch (lit "x \tag{a} y} z
\tag{b}") p' g' -> p <= p' /\ (p' = p -> length g' <= length (lit "a} y")).
Proof.
  exact (proj1 (manualTag_leftmost_longest (lit "x \tag{a} y} z
\tag{b}")) (lit "a} y") eq_refl).
Defined.

(* ================================================================== *)
(** * Blank lines and the raising run *)
(* ================================================================== *)

Section Raising.

Context {E : Externals}.

Import BTreeFacts.

Lemma arrGet_None {A : Type} (l : list A) (i : Z) :
  (0 <= i)%Z -> (arrGet l i = None <-> (len l <= i)%Z).
Proof.
  unfold arrGet, len. intros Hi. destruct (Z.ltb_spec i 0); [lia|].
  rewrite nth_error_None. lia.
Qed.

(** The outcomes of the loop of [emptylines], by cases. *)
Lemma emptylines_cases (lines : list str) (start end' : Z) :
  (0 <= start)%Z ->
  (emptylines lines start end' = Some false
   /\ exists j l, (start <= j < end')%Z /\ arrGet lines j = Some l /\ trim l <> [])
  \/ (emptylines lines start end' = Some true
      /\ (forall j l, (start <= j < end')%Z -> arrGet lines j = Some l -> trim l = [])
      /\ (end' <= start \/ end' <= len lines)%Z)
  \/ (emptylines lines start end' = None
      /\ (forall j l, (start <= j < end')%Z -> arrGet lines j = Some l -> trim l = [])
      /\ (start < end')%Z /\ (len lines < end')%Z).
Proof.
  unfold emptylines. intros Hstart.
  assert (Hgen : forall n index, (0 <= index)%Z ->
    (emptylinesLoop lines index n = Some false
     /\ exists j l, (index <= j < index + Z.of_nat n)%Z
                    /\ arrGet lines j = Some l /\ trim l <> [])
    \/ (emptylinesLoop lines index n = Some true
        /\ (forall j l, (index <= j < index + Z.of_nat n)%Z ->
                        arrGet lines j = Some l -> trim l = [])
        /\ (n = 0 \/ (index + Z.of_nat n <= len lines)%Z))
    \/ (emptylinesLoop lines index n = None
        /\ (forall j l, (index <= j < index + Z.of_nat n)%Z ->
                        arrGet lines j = Some l -> trim l = [])
        /\ 0 < n /\ (len lines < index + Z.of_nat n)%Z)).
  { induction n as [|n IH]; intros index Hi; simpl emptylinesLoop.
    - right; left. split; [reflexivity|]. split; [intros j l Hj; lia | now left].
    - destruct (arrGet lines index) as [l0|] eqn:Hl0.
      + pose proof (arrGet_range _ _ _ Hl0) as Hr.
        destruct (isEmptyStr (trim l0)) eqn:He.
        * apply isEmptyStr_true in He.
          destruct (IH (index + 1)%Z ltac:(lia))
            as [(Hb & j & l & Hj & Hjl & Hne)|[(Hb & Hall & Hend)|(Hb & Hall & Hn & Hend)]].
          -- left. split; [exact Hb|]. exists j, l. repeat split; auto; lia.
          -- right; left. split; [exact Hb|]. split.
             ++ intros j l Hj Hjl. destruct (Z.eq_dec j index) as [->|Hne]; [congruence|].
                apply (Hall j); [lia | assumption].
             ++ right. destruct Hend as [->|Hend]; lia.
          -- right; right. split; [exact Hb|]. split; [|lia].
             intros j l Hj Hjl. destruct (Z.eq_dec j index) as [->|Hne]; [congruence|].
             apply (Hall j); [lia | assumption].
        * left. split; [reflexivity|]. exists index, l0. repeat split; auto; try lia.
          intros Hnil. rewrite Hnil in He. discriminate.
      + apply arrGet_None in Hl0; [|assumption].
        right; right. split; [reflexivity|]. split; [|lia].
        intros j l Hj Hjl. apply arrGet_range in Hjl. lia. }
  destruct (Hgen (Z.to_nat (end' - start)) start Hstart)
    as [(Hb & j & l & Hj & Hjl & Hne)|[(Hb & Hall & Hend)|(Hb & Hall & Hn & Hend)]].
  - left. split; [exact Hb|]. exists j, l. repeat split; auto; lia.
  - right; left. split; [exact Hb|]. split; [intros j l Hj; apply Hall; lia|].
    destruct Hend as [Hz|Hend]; lia.
  - right; right. split; [exact Hb|]. split; [intros j l Hj; apply Hall; lia | lia].
Qed.

(** X5.  The three outcomes of [emptylines] on a range that starts at a
    line [start >= 0]: it returns [false] when some line of the range is not
    blank; otherwise it returns [true] when the range is empty or ends
    within the document, and raises when the range runs past the last
    line. *)
Theorem emptylines_outcomes (lines : list str) (start end' : Z) :
  (0 <= start)%Z ->
  (emptylines lines start end' = Some false
   /\ exists j l, (start <= j < end')%Z /\ arrGet lines j = Some l /\ trim l <> [])
  \/ (emptylines lines start end' = Some true
      /\ (forall j l, (start <= j < end')%Z -> arrGet lines j = Some l -> trim l = [])
      /\ (end' <= start \/ end' <= len lines)%Z)
  \/ (emptylines lines start end' = None
      /\ (forall j l, (start <= j < end')%Z -> arrGet lines j = Some l -> trim l = [])
      /\ (start < end')%Z /\ (len lines < end')%Z).
Proof. exact (emptylines_cases lines start end'). Qed.

Lemma emptylines_outcomes_witness :
  emptylines [[]; lit " "] 0 5 = None
  /\ forall j l, (0 <= j < 5)%Z -> arrGet [[]; lit " "] j = Some l -> trim l = [].
Proof.
  destruct (emptylines_outcomes [[]; lit " "] 0 5 (Z.le_refl 0))
    as [(H & _)|[(H & _)|(H & Hall & _)]].
  - vm_compute in H. discriminate H.
  - vm_compute in H. discriminate H.
  - split; [exact H | exact Hall].
Defined.

Lemma heading_keys (hs : list HeadingCache) (nlines k : Z) :
  In k (BTree.keys (headingSections (sortHeadings hs) 0 nlines BTree.empty))
  <-> exists h, In h hs /\ headingLine h = k.
Proof.
  rewrite headingSections_keys. simpl. rewrite in_map_iff. split.
  - intros [[]|(h & Hh & Hin)]. exists h. split; [|exact Hh].
    now apply (proj1 (sortHeadings_In _ _)).
  - intros (h & Hin & Hh). right. exists h. split; [exact Hh|].
    now apply sortHeadings_In.
Qed.

Lemma lines_all_blank (lines : list str) :
  (forall j l, (0 <= j < len lines + 1)%Z -> arrGet lines j = Some l -> trim l = [])
  <-> (forall l, In l lines -> trim l = []).
Proof.
  split.
  - intros H l Hl. apply In_nth_error in Hl as [n Hn].
    apply (H (Z.of_nat n)).
    + assert (n < length lines) by (apply nth_error_Some; congruence). unfold len. lia.
    + unfold arrGet. destruct (Z.ltb_spec (Z.of_nat n) 0); [lia|]. now rewrite Nat2Z.id.
  - intros H j l _ Hl. apply H. now apply arrGet_In in Hl.
Qed.

(** X6.  The run of the indexer raises exactly when every line of the
    document is blank and the first heading of the outline (among those on a
    line [>= 0]) is on a line beyond [lines.length]: then [emptylines] reads
    a line that does not exist. *)
Theorem markdownImport_raises (path markdown : str) (metadata : CachedMetadata)
    (excludeExample : bool) :
  let lines := split_nl markdown in
  let hs := orEmpty (md_headings metadata) in
  snd (markdownImport path markdown metadata excludeExample) = None
  <-> ((forall l, In l lines -> trim l = [])
       /\ exists h0, In h0 hs /\ (len lines < headingLine h0)%Z
                     /\ forall h, In h hs -> (0 <= headingLine h)%Z ->
                                  (headingLine h0 <= headingLine h)%Z).
Proof.
  intros lines hs.
  rewrite markdownImport_snd, finalStore_unfold. fold lines. fold hs.
  set (empty := negb _).
  assert (Hiff : buildSections path lines empty (sortHeadings hs) = None
                 <-> ((forall l, In l lines -> trim l = [])
                      /\ exists h0, In h0 hs /\ (len lines < headingLine h0)%Z
                           /\ forall h, In h hs -> (0 <= headingLine h)%Z ->
                                        (headingLine h0 <= headingLine h)%Z)).
  { unfold buildSections.
    set (sections := headingSections (sortHeadings hs) 0 (len lines) BTree.empty).
    assert (Hsorted : BTree.sorted sections)
      by (apply headingSections_sorted, sorted_nil).
    assert (Hstart : Forall (fun e => sp_start (s_position (snd e)) = fst e) sections)
      by (apply headingSections_start; constructor).
    destruct (BTree.getPairOrNextHigher 0 sections) as [[k first]|] eqn:Hfirst.
    - pose proof (higher_In _ _ _ _ Hfirst) as [Hin Hk0].
      assert (Hst : sp_start (s_position first) = k).
      { rewrite Forall_forall in Hstart. exact (Hstart _ Hin). }
      rewrite Hst.
      destruct (proj1 (heading_keys hs (len lines) k) (in_map fst _ _ Hin))
        as (h0 & Hh0 & Hline).
      assert (Hleast : forall h, In h hs -> (0 <= headingLine h)%Z -> (k <= headingLine h)%Z).
      { intros h Hh Hpos. apply (higher_least _ _ _ _ Hsorted Hfirst); [|assumption].
        apply heading_keys. eauto. }
      destruct (emptylines_cases lines 0 k (Z.le_refl 0))
        as [(Hb & j & l & Hj & Hjl & Hne)|[(Hb & Hall & Hend)|(Hb & Hall & Hlt & Hend)]];
        rewrite Hb.
      + split; [discriminate|]. intros (Hblank & _). elim Hne. apply Hblank.
        now apply arrGet_In in Hjl.
      + split; [discriminate|]. intros (_ & h1 & Hh1 & Hbeyond & Hmin).
        specialize (Hmin h0 Hh0 ltac:(lia)).
        specialize (Hleast h1 Hh1 ltac:(unfold len in *; lia)).
        unfold len in *. lia.
      + split; [|reflexivity]. intros _. split.
        * apply lines_all_blank. intros j l Hj Hjl. apply (Hall j); [lia | assumption].
        * exists h0. rewrite Hline. auto.
    - split; [destruct (negb empty); discriminate|].
      intros (_ & h0 & Hh0 & Hbeyond & _). exfalso.
      assert (Hk : In (headingLine h0) (BTree.keys sections))
        by (apply heading_keys; eauto).
      pose proof (higher_None _ _ Hfirst _ Hk). unfold len in *. lia. }
  rewrite <- Hiff.
  destruct (buildSections path lines empty (sortHeadings hs)); split; congruence.
Qed.

End Raising.

(* ================================================================== *)
(** * Rendered elements *)
(* ================================================================== *)

Section RendererFacts.

Context {E : Externals}.

Context {El : Type} (sameEl : forall a b : El, {a = b} + {a <> b}).

Lemma includes_In (l : list El) (x : El) : includes sameEl l x = true <-> In x l.
Proof.
  unfold includes. rewrite existsb_exists. split.
  - intros (y & Hy & Heq). destruct (sameEl y x); [now subst | discriminate].
  - intros Hx. exists x. split; [assumption|]. destruct (sameEl x x); congruence.
Qed.

Lemma push_new_spec (callout acc : list El) :
  NoDup acc ->
  exists added,
    fold_left (fun acc el => if includes sameEl acc el then acc else acc ++ [el]) callout acc
    = acc ++ added
    /\ NoDup (acc ++ added)
    /\ (forall x, In x added <-> In x callout /\ ~ In x acc).
Proof.
  revert acc; induction callout as [|el r IH]; intros acc Hacc; simpl.
  - exists []. rewrite app_nil_r. split; [reflexivity|]. split; [assumption|].
    intros x. split; [intros [] | intros [[] _]].
  - destruct (includes sameEl acc el) eqn:Hinc.
    + apply includes_In in Hinc.
      destruct (IH acc Hacc) as (added & Heq & Hnd & Hin).
      exists added. split; [exact Heq|]. split; [exact Hnd|].
      intros x. split.
      * intros Hx. apply Hin in Hx as [Hx Hn]. split; [now right | assumption].
      * intros ([<-|Hx] & Hn); [contradiction|]. apply Hin. auto.
    + assert (Hnin : ~ In el acc).
      { intros Hin. apply includes_In in Hin. congruence. }
      assert (Hacc' : NoDup (acc ++ [el])).
      { apply NoDup_app; [assumption | repeat constructor; intros [] |].
        intros x Hx [<-|[]]. contradiction. }
      destruct (IH (acc ++ [el]) Hacc') as (added & Heq & Hnd & Hin).
      exists (el :: added). rewrite Heq, <- !app_assoc. simpl.
      split; [reflexivity|]. split; [now rewrite <- app_assoc in Hnd|].
      intros x. split.
      * intros [<-|Hx]; [split; [now left | assumption]|].
        apply Hin in Hx as [Hx Hn]. split; [now right|].
        intros Hacc2. apply Hn. apply in_or_app. now left.
      * intros ([<-|Hx] & Hn); [now left|].
        destruct (sameEl el x) as [->|Hne]; [now left|]. right.
        apply Hin. split; [assumption|]. intros Happ.
        apply in_app_or in Happ as [Ha|[Heq'|[]]]; [contradiction | congruence].
Qed.

(** X7.  Live preview visits every display-math element once: given the
    matches of the top-level selector (all different), the list of visited
    elements consists of these matches, in order, followed by the matches of
    the callout selector that are not among them, each once; nothing else is
    visited and nothing is visited twice. *)
Theorem mjxContainerElements_once (topLevelMjx calloutMjx : list El) :
  NoDup topLevelMjx ->
  exists added,
    mjxContainerElements sameEl topLevelMjx calloutMjx = topLevelMjx ++ added
    /\ NoDup (mjxContainerElements sameEl topLevelMjx calloutMjx)
    /\ (forall x, In x added <-> In x calloutMjx /\ ~ In x topLevelMjx)
    /\ (forall x, In x (mjxContainerElements sameEl topLevelMjx calloutMjx)
                  <-> In x topLevelMjx \/ In x calloutMjx).
Proof.
  intros Hnd. unfold mjxContainerElements.
  destruct (push_new_spec calloutMjx topLevelMjx Hnd) as (added & Heq & Hnd' & Hin).
  exists added. rewrite Heq. repeat split; auto; try (now apply Hin).
  - intros Hx. apply in_app_or in Hx as [Hx|Hx]; [now left | right; now apply Hin].
  - intros [Hx|Hx]; apply in_or_app; [now left|].
    destruct (in_dec sameEl x topLevelMjx); [now left | right; now apply Hin].
Qed.

(** ** PDF export *)

Context (idOf : JsonMarkdownBlock -> str).

Lemma collect_inner (blocks acc : list JsonMarkdownBlock) :
  fold_left (fun acc' block => if isEquationBlock block then acc' ++ [block] else acc')
            blocks acc
  = acc ++ filter isEquationBlock blocks.
Proof.
  revert acc; induction blocks as [|b r IH]; intros acc; simpl.
  - now rewrite app_nil_r.
  - rewrite IH. destruct (isEquationBlock b); [now rewrite <- app_assoc | reflexivity].
Qed.

Lemma collectEquationBlocks_filter (page : JsonMarkdownPage) :
  collectEquationBlocks page = filter isEquationBlock (pageBlocks page).
Proof.
  unfold collectEquationBlocks, pageBlocks.
  assert (H : forall secs acc,
             fold_left
               (fun acc section =>
                  fold_left (fun acc' block =>
                               if isEquationBlock block then acc' ++ [block] else acc')
                            (js_blocks section) acc) secs acc
             = acc ++ filter isEquationBlock (flat_map js_blocks secs)).
  { induction secs as [|s r IH]; intros acc; simpl.
    - now rewrite app_nil_r.
    - rewrite IH, collect_inner, filter_app, app_assoc. reflexivity. }
  apply (H _ []).
Qed.

Lemma skipn_nth {A : Type} (l : list A) (i : nat) (x : A) :
  nth_error l i = Some x -> skipn i l = x :: skipn (S i) l.
Proof.
  revert i; induction l as [|y l IH]; intros [|i]; simpl; try discriminate.
  - now intros [= ->].
  - intros H. now rewrite (IH i H).
Qed.

Lemma setIds_combine (blocks : list JsonMarkdownBlock) (divs : list El) (i n : nat) :
  i + n <= length blocks -> i + n <= length divs ->
  setIds idOf blocks divs i n
  = firstn n (combine (skipn i divs) (map idOf (skipn i blocks))).
Proof.
  revert i; induction n as [|n IH]; intros i Hb Hd; simpl setIds; [reflexivity|].
  destruct (nth_error blocks i) as [b|] eqn:Hbi;
    [|apply nth_error_None in Hbi; lia].
  destruct (nth_error divs i) as [d|] eqn:Hdi;
    [|apply nth_error_None in Hdi; lia].
  rewrite IH by lia.
  rewrite (skipn_nth _ _ _ Hbi), (skipn_nth _ _ _ Hdi). reflexivity.
Qed.

(** X8.  The PDF export pass tags the rendered math elements with the ids
    of the page's equation blocks pairwise and in order: the [i]-th element
    gets the id of the [i]-th equation block of the page (sections in order,
    blocks in order), up to the shorter of the two lists, and no other
    element is tagged; this is so whether or not the two counts agree.  The
    elements are the matches of the first selector, or those of the looser
    one when the first has none, and without an indexed page nothing is
    tagged. *)
Theorem preprocessForPdfExport_pairs (topLevel allMath : list El)
    (page : option JsonMarkdownPage) :
  preprocessForPdfExport idOf topLevel allMath page
  = match page with
    | None => []
    | Some page =>
        combine (match topLevel with [] => allMath | _ :: _ => topLevel end)
                (map idOf (filter isEquationBlock (pageBlocks page)))
    end.
Proof.
  unfold preprocessForPdfExport. destruct page as [page|]; [|reflexivity].
  rewrite collectEquationBlocks_filter.
  set (eqs := filter isEquationBlock (pageBlocks page)).
  replace (if length topLevel =? 0 then allMath else topLevel)
    with (match topLevel with [] => allMath | _ :: _ => topLevel end)
    by (now destruct topLevel).
  set (divs := match topLevel with [] => allMath | _ :: _ => topLevel end).
  assert (Hmin : setIds idOf eqs divs 0 (Nat.min (length eqs) (length divs))
                 = combine divs (map idOf eqs)).
  { rewrite setIds_combine by lia. simpl.
    apply firstn_all2. rewrite length_combine, length_map. lia. }
  destruct (Nat.eqb_spec (length eqs) (length divs)) as [Heq|_]; [|exact Hmin].
  rewrite <- Hmin. f_equal. lia.
Qed.

End RendererFacts.

(* ================================================================== *)
(** * The two rendering surfaces *)
(* ================================================================== *)

Section Surfaces.

Context {E : Externals}.

(** X9.  The two surfaces resolve alike: when the section info that the
    reading view gets for an element is the span of the block found on its
    first line, the reading view (without line offset) and the live preview
    (given that line) return the same equation for the element. *)
Theorem surfaces_agree (page : JsonMarkdownPage) (info : SectionInfo) (el : RenderedMath)
    (pos : Z) (b : JsonMarkdownBlock) :
  getBlockByLineNumber page (si_lineStart info) = Some b ->
  b_position b = {| sp_start := si_lineStart info; sp_end := si_lineEnd info |} ->
  getEquationCache (Some info) (Some page) el 0
  = updateEquationNumber_equation page (Some (si_lineStart info)) pos el.
Proof.
  intros Hb Hpos. unfold getEquationCache, updateEquationNumber_equation.
  rewrite Z.add_0_r, Hb, Hpos. simpl.
  destruct (isEquationBlock b); [reflexivity|].
  destruct (isTheoremCalloutBlock b); [|reflexivity].
  destruct (calloutEl el); simpl; [|reflexivity].
  destruct (Z.ltb_spec (ourIndex el) 0), (Z.geb_spec (ourIndex el) 0); try lia; reflexivity.
Qed.

End Surfaces.

(* ================================================================== *)
(** * Adding a link twice *)
(* ================================================================== *)

Section AddLinkFacts.

Context {E : Externals}.

(** X10.  [addLink] adds at most one link, at the end, and leaves the
    array alone when a link of the array equals the incoming one; when a
    link equals itself, adding it a second time changes nothing. *)
Theorem addLink_idempotent (target : list Link) (incoming : Link) :
  Link_equals incoming incoming = true ->
  addLink (addLink target incoming) incoming = addLink target incoming
  /\ (addLink target incoming = target
      \/ (addLink target incoming = target ++ [incoming]
          /\ forall v, In v target -> Link_equals v incoming = false)).
Proof.
  intros Hrefl. unfold addLink.
  destruct (existsb (fun v => Link_equals v incoming) target) eqn:Hex.
  - split; [now rewrite Hex | now left].
  - split.
    + rewrite existsb_app. simpl. rewrite Hrefl, orb_true_r. reflexivity.
    + right. split; [reflexivity|]. intros v Hv.
      destruct (Link_equals v incoming) eqn:Hve; [|reflexivity].
      assert (existsb (fun v => Link_equals v incoming) target = true)
        by (apply existsb_exists; eauto).
      congruence.
Qed.

End AddLinkFacts.

(* ================================================================== *)
(** * The order of the outline's headings *)
(* ================================================================== *)

Section HeadingOrder.

Context {E : Externals}.

Import BTreeFacts.

Lemma strict_same_elements {A : Type} (f : A -> Z) (l1 l2 : list A) :
  StronglySorted Z.lt (map f l1) -> StronglySorted Z.lt (map f l2) ->
  (forall x, In x l1 <-> In x l2) -> l1 = l2.
Proof.
  revert l2; induction l1 as [|a r1 IH]; intros [|b r2] H1 H2 Hsame.
  - reflexivity.
  - destruct (proj2 (Hsame b) (or_introl eq_refl)).
  - destruct (proj1 (Hsame a) (or_introl eq_refl)).
  - simpl in H1, H2.
    inversion H1 as [|? ? Hs1 Hall1]; subst. inversion H2 as [|? ? Hs2 Hall2]; subst.
    rewrite Forall_forall in Hall1, Hall2.
    assert (Hab : a = b).
    { destruct (proj1 (Hsame a) (or_introl eq_refl)) as [Heq|Hin]; [now symmetry|].
      destruct (proj2 (Hsame b) (or_introl eq_refl)) as [Heq|Hin']; [assumption|].
      pose proof (Hall2 _ (in_map f _ _ Hin)). pose proof (Hall1 _ (in_map f _ _ Hin')). lia. }
    subst b. f_equal. apply IH; auto.
    intros x. split; intros Hx.
    + destruct (proj1 (Hsame x) (or_intror Hx)) as [<-|Hin]; [|assumption].
      pose proof (Hall1 _ (in_map f _ _ Hx)). lia.
    + destruct (proj2 (Hsame x) (or_intror Hx)) as [<-|Hin]; [|assumption].
      pose proof (Hall2 _ (in_map f _ _ Hx)). lia.
Qed.

(** X11.  The page does not depend on the order in which the outline lists
    its headings: two outlines that differ only in the order of their
    headings, all on different lines, give the same page (or both raise). *)
Theorem heading_order_irrelevant (path markdown : str) (metadata metadata' : CachedMetadata)
    (excludeExample : bool) :
  md_sections metadata' = md_sections metadata ->
  md_links metadata' = md_links metadata ->
  md_frontmatterLinks metadata' = md_frontmatterLinks metadata ->
  NoDup (map headingLine (orEmpty (md_headings metadata))) ->
  NoDup (map headingLine (orEmpty (md_headings metadata'))) ->
  (forall h, In h (orEmpty (md_headings metadata)) <-> In h (orEmpty (md_headings metadata'))) ->
  snd (markdownImport path markdown metadata' excludeExample)
  = snd (markdownImport path markdown metadata excludeExample).
Proof.
  intros Hs Hl Hf Hnd Hnd' Hsame.
  assert (Hsort : sortHeadings (orEmpty (md_headings metadata'))
                  = sortHeadings (orEmpty (md_headings metadata))).
  { apply (strict_same_elements headingLine).
    - apply sorted_distinct_strict; [apply sortHeadings_sorted | now apply sortHeadings_lines_NoDup].
    - apply sorted_distinct_strict; [apply sortHeadings_sorted | now apply sortHeadings_lines_NoDup].
    - intros x. rewrite !sortHeadings_In. symmetry. apply Hsame. }
  rewrite !markdownImport_snd, !finalStore_unfold, Hsort.
  unfold initialStore. now rewrite Hs, Hl, Hf.
Qed.

(** ** Sections in ascending order *)


Lemma set_ascending (m : BTree.t SectionObj) (k : Z) (v : SectionObj) :
  StronglySorted entryBelow m ->
  (forall e, In e m -> (fst e <= k)%Z /\ (s_ordinal (snd e) < s_ordinal v)%Z) ->
  StronglySorted entryBelow (BTree.set k v m).
Proof.
  induction m as [|[k0 v0] r IH]; simpl; intros Hs Hle.
  - repeat constructor.
  - inversion Hs as [|? ? Hr Hall]; subst.
    destruct (Hle (k0, v0) (or_introl eq_refl)) as [Hk0 Ho0]. simpl in Hk0, Ho0.
    destruct (Z.ltb_spec k k0); [lia|]. destruct (Z.eqb_spec k k0) as [->|Hne].
    + constructor; [assumption|]. apply Forall_forall. intros e He.
      rewrite Forall_forall in Hall. destruct (Hall e He) as [Hlt _].
      destruct (Hle e (or_intror He)) as [Hle' _]. simpl in Hlt. lia.
    + constructor.
      * apply IH; [assumption|]. intros e He. apply Hle. now right.
      * apply Forall_forall. intros [k1 v1] He.
        apply In_set in He as [[-> ->]|He].
        -- split; simpl; lia.
        -- rewrite Forall_forall in Hall. now apply Hall.
Qed.

Lemma headingSections_ascending hs (index nlines : Z) (m : BTree.t SectionObj) :
  StronglySorted byLine hs ->
  StronglySorted entryBelow m ->
  (forall e, In e m -> (s_ordinal (snd e) <= index)%Z
                       /\ forall h, In h hs -> (fst e <= headingLine h)%Z) ->
  StronglySorted entryBelow (headingSections hs index nlines m).
Proof.
  revert index m; induction hs as [|h r IH]; intros index m Hhs Hm Hinv; simpl; [assumption|].
  inversion Hhs as [|? ? Hr Hall]; subst.
  apply IH; [assumption| |].
  - apply set_ascending; [assumption|]. intros e He.
    destruct (Hinv e He) as [Ho Hk]. simpl. split; [apply Hk; now left | lia].
  - intros [k1 v1] He. apply In_set in He as [[-> ->]|He]; simpl.
    + split; [lia|]. intros h' Hh'. rewrite Forall_forall in Hall. exact (Hall h' Hh').
    + destruct (Hinv _ He) as [Ho Hk]. simpl in *. split; [lia|].
      intros h' Hh'. apply Hk. now right.
Qed.

Lemma set_ascending_front (m : BTree.t SectionObj) (k : Z) (v : SectionObj) :
  StronglySorted entryBelow m ->
  (forall e, In e m -> (k <= fst e)%Z /\ (s_ordinal v < s_ordinal (snd e))%Z) ->
  StronglySorted entryBelow (BTree.set k v m).
Proof.
  destruct m as [|[k0 v0] r]; simpl; intros Hs Hle.
  - repeat constructor.
  - inversion Hs as [|? ? Hr Hall]; subst.
    destruct (Hle (k0, v0) (or_introl eq_refl)) as [Hk0 Ho0]. simpl in Hk0, Ho0.
    destruct (Z.ltb_spec k k0).
    + constructor; [assumption|]. apply Forall_forall. intros e He.
      destruct (Hle e He) as [Hk Ho]. destruct He as [<-|He].
      * split; simpl; lia.
      * rewrite Forall_forall in Hall. destruct (Hall e He) as [Hlt _]. simpl in Hlt.
        split; simpl; lia.
    + destruct (Z.eqb_spec k k0) as [->|Hne]; [|lia].
      constructor; [assumption|]. apply Forall_forall. intros e He.
      rewrite Forall_forall in Hall. destruct (Hall e He) as [Hlt _].
      destruct (Hle e (or_intror He)) as [_ Ho]. simpl in Hlt. split; simpl; lia.
Qed.

Lemma buildSections_start path lines empty hs secs :
  buildSections path lines empty hs = Some secs ->
  Forall (fun e => sp_start (s_position (snd e)) = fst e) secs.
Proof.
  unfold buildSections.
  set (sections := headingSections hs 0 (len lines) BTree.empty).
  assert (Hs : Forall (fun e => sp_start (s_position (snd e)) = fst e) sections)
    by (apply headingSections_start; constructor).
  assert (Hset : forall e, Forall (fun e => sp_start (s_position (snd e)) = fst e)
                             (BTree.set 0%Z (implicitSection path e) sections)).
  { intros e. apply Forall_forall. intros [k v] Hin.
    apply In_set in Hin as [[-> ->]|Hin]; [reflexivity|].
    rewrite Forall_forall in Hs. exact (Hs _ Hin). }
  destruct (BTree.getPairOrNextHigher 0 sections) as [[k first]|].
  - destruct (emptylines lines 0 _) as [[|]|]; intros [= <-]; auto.
  - destruct (negb empty); intros [= <-]; auto.
Qed.

Lemma buildSections_ascending path lines empty hs secs :
  StronglySorted byLine hs ->
  Forall (fun h => (0 <= headingLine h)%Z) hs ->
  buildSections path lines empty hs = Some secs ->
  StronglySorted entryBelow secs.
Proof.
  intros Hsorted Hnonneg. unfold buildSections.
  set (sections := headingSections hs 0 (len lines) BTree.empty).
  assert (Hs : StronglySorted entryBelow sections).
  { apply headingSections_ascending; [assumption | constructor | intros e []]. }
  assert (Hset : forall e, StronglySorted entryBelow
                             (BTree.set 0%Z (implicitSection path e) sections)).
  { intros e. apply set_ascending_front; [assumption|]. intros [k v] Hin. simpl. split.
    - assert (Hk : In k (BTree.keys sections)) by (apply (in_map fst) in Hin; exact Hin).
      apply (proj1 (headingSections_keys _ _ _ _ _)) in Hk as [[]|Hk].
      apply in_map_iff in Hk as (h & <- & Hh).
      rewrite Forall_forall in Hnonneg. now apply Hnonneg.
    - assert (Hv : Forall headingMade (BTree.values sections))
        by (apply headingSections_values; [lia | constructor]).
      rewrite Forall_forall in Hv.
      destruct (Hv v (values_In _ _ _ Hin)) as [Ho _]. lia. }
  destruct (BTree.getPairOrNextHigher 0 sections) as [[k first]|].
  - destruct (emptylines lines 0 _) as [[|]|]; intros [= <-]; auto.
  - destruct (negb empty); intros [= <-]; auto.
Qed.

Lemma ascending_ordinals (m : BTree.t SectionObj) :
  StronglySorted entryBelow m -> StronglySorted Z.lt (map s_ordinal (BTree.values m)).
Proof.
  unfold BTree.values. induction 1 as [|a l Hs IH Hall]; simpl; constructor; [assumption|].
  rewrite Forall_forall in *. intros o Ho. rewrite map_map in Ho.
  apply in_map_iff in Ho as (e & <- & He). exact (proj2 (Hall e He)).
Qed.

(** X12.  The sections of the returned page are in strictly ascending
    order of their start lines; when no heading of the outline has a
    negative line, their ordinals are strictly ascending as well. *)
Theorem page_sections_ascending (path markdown : str) (metadata : CachedMetadata)
    (excludeExample : bool) (page : JsonMarkdownPage) :
  snd (markdownImport path markdown metadata excludeExample) = Some page ->
  StronglySorted Z.lt (map (fun s => sp_start (js_position s)) (p_sections page))
  /\ (Forall (fun h => (0 <= headingLine h)%Z) (orEmpty (md_headings metadata)) ->
      StronglySorted Z.lt (map js_ordinal (p_sections page))).
Proof.
  intros Hpage.
  destruct (buildSections path (split_nl markdown)
              (negb (existsb (fun line => negb (isEmptyStr (trim line))) (split_nl markdown)))
              (sortHeadings (orEmpty (md_headings metadata)))) as [secs|] eqn:Hsecs.
  2:{ rewrite markdownImport_snd, finalStore_unfold, Hsecs in Hpage. discriminate. }
  destruct (page_of_sections _ _ _ excludeExample _ Hsecs) as (page' & Hp' & Hfields & _).
  rewrite Hpage in Hp'. injection Hp' as <-.
  assert (Hstart : map (fun s => sp_start (js_position s)) (p_sections page)
                   = map (fun s => sp_start (s_position s)) (BTree.values secs)).
  { change (fun s => sp_start (js_position s))
      with (fun s => (fun f : Z * str * Z * Span => sp_start (snd f)) (exportedFields s)).
    rewrite <- (map_map exportedFields), Hfields, map_map. reflexivity. }
  assert (Hord : map js_ordinal (p_sections page) = map s_ordinal (BTree.values secs)).
  { change js_ordinal
      with (fun s => (fun f : Z * str * Z * Span => fst (fst (fst f))) (exportedFields s)).
    rewrite <- (map_map exportedFields), Hfields, map_map. reflexivity. }
  split.
  - rewrite Hstart. unfold BTree.values. rewrite map_map.
    destruct (buildSections_inv _ _ _ _ _ Hsecs) as [Hsorted _].
    pose proof (buildSections_start _ _ _ _ _ Hsecs) as Hst.
    replace (map (fun x => sp_start (s_position (snd x))) secs) with (BTree.keys secs);
      [exact Hsorted|].
    unfold BTree.keys. apply map_ext_in. intros e He.
    rewrite Forall_forall in Hst. symmetry. exact (Hst e He).
  - intros Hnonneg. rewrite Hord. apply ascending_ordinals.
    refine (buildSections_ascending _ _ _ _ _ (sortHeadings_sorted _) _ Hsecs).
    apply Forall_forall. intros h Hh. apply (proj1 (sortHeadings_In _ _)) in Hh.
    rewrite Forall_forall in Hnonneg. now apply Hnonneg.
Qed.

End HeadingOrder.

(* ================================================================== *)
(** * The block index *)
(* ================================================================== *)

Lemma str_eqb_eq (a b : str) : str_eqb a b = true <-> a = b.
Proof.
  revert b; induction a as [|x a IH]; intros [|y b]; simpl; split; intros H;
    try reflexivity; try discriminate.
  - apply andb_prop in H as [Hx Ha]. apply Ascii.eqb_eq in Hx. apply IH in Ha. congruence.
  - injection H as -> ->. rewrite Ascii.eqb_refl. simpl. now apply IH.
Qed.

Section BlockIndex.

Context {E : Externals}.

Import BTreeFacts.

Lemma nestedWrites_variant (o : Z) (eqs : list MathRegion) k b :
  In (k, b) (nestedWrites o eqs) -> isEquationBlock b = true.
Proof.
  revert o; induction eqs as [|eq r IH]; intros o; simpl; [contradiction|].
  intros [[= <- <-]|Hin]; [reflexivity | eauto].
Qed.


Lemma blockWrites_variant markdown lines excludeExample (o : Z) block k b :
  In (k, b) (blockWrites markdown lines excludeExample o block) -> notHeadingOrMath b.
Proof.
  unfold blockWrites, notHeadingOrMath.
  destruct (str_eqb (sc_type block) (lit "heading")) eqn:Hh; [contradiction|].
  destruct (str_eqb (sc_type block) (lit "math")) eqn:Hm.
  - intros [[= <- <-]|[]] ty Hty. discriminate Hty.
  - destruct (if str_eqb (sc_type block) (lit "callout") then _ else None) as [settings|].
    + intros Hin ty Hty. apply in_app_or in Hin as [Hin|[[= <- <-]|[]]].
      * apply nestedWrites_variant in Hin. unfold isEquationBlock in Hin.
        rewrite Hty in Hin. discriminate.
      * discriminate Hty.
    + intros [[= <- <-]|[]] ty [= <-]. split; intros Heq.
      * apply str_eqb_eq in Heq. congruence.
      * apply str_eqb_eq in Heq. congruence.
Qed.

Lemma passWrites_variant markdown lines excludeExample (o : Z) bs k b :
  In (k, b) (passWrites markdown lines excludeExample o bs) -> notHeadingOrMath b.
Proof.
  revert o; induction bs as [|blk r IH]; intros o; simpl; [contradiction|].
  intros Hin. apply in_app_or in Hin as [Hin|Hin].
  - eapply blockWrites_variant; eauto.
  - eapply IH; eauto.
Qed.

Lemma index_entry_write markdown lines excludeExample bs k b :
  In (k, b) (fst (buildBlocks markdown lines excludeExample bs)) ->
  exists n, nth_error (passWrites markdown lines excludeExample 1 bs) n = Some (k, b).
Proof.
  intros Hin.
  apply In_get in Hin; [|apply buildBlocks_sorted].
  rewrite buildBlocks_writes in Hin. simpl in Hin. unfold applyWrites in Hin.
  rewrite get_writes in Hin. simpl in Hin.
  destruct (BTree.lastWrite k _) as [v|] eqn:Hl; [|discriminate].
  injection Hin as ->. apply lastWrite_nth in Hl as (n & Hn & _). eauto.
Qed.

Lemma index_ordinal_inj markdown lines excludeExample bs e1 e2 :
  In e1 (fst (buildBlocks markdown lines excludeExample bs)) ->
  In e2 (fst (buildBlocks markdown lines excludeExample bs)) ->
  b_ordinal (snd e1) = b_ordinal (snd e2) -> e1 = e2.
Proof.
  destruct e1 as [k1 b1], e2 as [k2 b2]. intros H1 H2 Heq. simpl in Heq.
  destruct (index_entry_write _ _ _ _ _ _ H1) as (n1 & Hn1).
  destruct (index_entry_write _ _ _ _ _ _ H2) as (n2 & Hn2).
  destruct (passWrites_ok _ _ _ _ _ _ _ _ Hn1) as (Ho1 & _).
  destruct (passWrites_ok _ _ _ _ _ _ _ _ Hn2) as (Ho2 & _).
  assert (n1 = n2) by lia. subst n2. congruence.
Qed.

Lemma index_entry_start markdown lines excludeExample bs k b :
  In (k, b) (fst (buildBlocks markdown lines excludeExample bs)) ->
  sp_start (b_position b) = k.
Proof.
  intros Hin. destruct (index_entry_write _ _ _ _ _ _ Hin) as (n & Hn).
  exact (proj2 (proj2 (passWrites_ok _ _ _ _ _ _ _ _ Hn))).
Qed.

Lemma sorted_keys_NoDup {V : Type} (m : BTree.t V) : BTree.sorted m -> NoDup (map fst m).
Proof.
  unfold BTree.sorted, BTree.keys.
  induction 1 as [|a l Hs IH Hall]; constructor; [|assumption].
  intros Hin. rewrite Forall_forall in Hall. specialize (Hall _ Hin). lia.
Qed.

Lemma block_ordinals_NoDup markdown lines excludeExample bs :
  NoDup (map b_ordinal (BTree.values (fst (buildBlocks markdown lines excludeExample bs)))).
Proof.
  unfold BTree.values. rewrite map_map.
  apply NoDup_map_NoDup_ForallPairs.
  - intros e1 e2 H1 H2 Heq. eapply index_ordinal_inj; eauto.
  - apply (NoDup_map_inv fst). apply sorted_keys_NoDup, buildBlocks_sorted.
Qed.

(** X13.  When the block pass is over, every entry of the block index is
    stored under the start line of its block, its ordinal lies between 1
    and the final value of the ordinal counter (excluded), it is never a
    generic block of type heading or math, and no two entries carry the
    same ordinal. *)
Theorem block_index_ordinals (markdown : str) (lines : list str) (excludeExample : bool)
    (metasections : list SectionCache) :
  let blocks := fst (buildBlocks markdown lines excludeExample metasections) in
  let blockOrdinal := snd (buildBlocks markdown lines excludeExample metasections) in
  Forall (fun e => sp_start (b_position (snd e)) = fst e
                   /\ (1 <= b_ordinal (snd e) < blockOrdinal)%Z
                   /\ notHeadingOrMath (snd e)) blocks
  /\ NoDup (map b_ordinal (BTree.values blocks)).
Proof.
  intros blocks blockOrdinal. split.
  - apply Forall_forall. intros [k b] Hin. simpl.
    destruct (index_entry_write _ _ _ _ _ _ Hin) as (n & Hn).
    destruct (passWrites_ok _ _ _ _ _ _ _ _ Hn) as (Ho & _ & Hk).
    split; [exact Hk|]. split.
    + unfold blockOrdinal. rewrite buildBlocks_writes. unfold snd.
      assert (n < length (passWrites markdown lines excludeExample 1 metasections))%nat
        by (apply nth_error_Some; congruence).
      unfold len. lia.
    + apply nth_error_In in Hn. eapply passWrites_variant; eauto.
  - apply block_ordinals_NoDup.
Qed.

End BlockIndex.

(* ================================================================== *)
(** * The blocks of a section *)
(* ================================================================== *)

Section BlockAssignment.

Context {E : Externals}.

Import BTreeFacts.


Lemma entries_id {V : Type} (m : BTree.t V) : map (fun e => (fst e, snd e)) m = m.
Proof. induction m as [|[k v] r IH]; simpl; congruence. Qed.

Lemma update_map {V : Type} (m : BTree.t V) (k : Z) (f : V -> V) :
  BTree.sorted m ->
  BTree.update k f m = map (fun e => (fst e, if (k =? fst e)%Z then f (snd e) else snd e)) m.
Proof.
  unfold BTree.sorted, BTree.keys.
  induction m as [|[k0 v0] r IH]; simpl; intros Hs; [reflexivity|].
  inversion Hs as [|? ? Hr Hall]; subst.
  destruct (Z.eqb_spec k k0) as [->|Hne].
  - f_equal. rewrite <- (entries_id r) at 1. apply map_ext_in. intros [k1 v1] Hin. simpl.
    rewrite Forall_forall in Hall. specialize (Hall k1 (in_map fst _ _ Hin)).
    destruct (Z.eqb_spec k0 k1); [lia | reflexivity].
  - f_equal. now apply IH.
Qed.

Lemma addBlockToSection_map (secs cur : BTree.t SectionObj) (kb : Z * JsonMarkdownBlock) :
  BTree.sorted cur -> BTree.related samePosition secs cur ->
  addBlockToSection cur kb
  = map (fun e => (fst e, if assigned secs (fst e) kb
                          then pushBlock (fst kb) (snd e) else snd e)) cur.
Proof.
  intros Hs Hrel. unfold addBlockToSection, assigned.
  pose proof (related_lower samePosition secs cur
                (sp_start (b_position (snd kb))) Hrel) as Hl.
  destruct (BTree.getPairOrNextLower _ secs) as [[k1 v1]|],
           (BTree.getPairOrNextLower _ cur) as [[k2 v2]|]; try contradiction.
  - destruct Hl as [-> Hpos]. unfold samePosition in Hpos. rewrite Hpos.
    destruct (_ >=? _)%Z.
    + rewrite update_map by assumption. apply map_ext. intros e.
      now rewrite andb_true_r.
    + rewrite <- (entries_id cur) at 1. apply map_ext. intros e.
      now rewrite andb_false_r.
  - now rewrite entries_id.
Qed.

Lemma addBlockToSection_related (cur : BTree.t SectionObj) (kb : Z * JsonMarkdownBlock) :
  BTree.related samePosition cur (addBlockToSection cur kb).
Proof.
  unfold addBlockToSection.
  destruct (BTree.getPairOrNextLower _ cur) as [[k s]|];
    [destruct (_ >=? _)%Z|]; try (apply related_refl; reflexivity).
  apply related_update; reflexivity.
Qed.

Lemma addBlockToSection_sorted (cur : BTree.t SectionObj) (kb : Z * JsonMarkdownBlock) :
  BTree.sorted cur -> BTree.sorted (addBlockToSection cur kb).
Proof.
  intros Hs. unfold addBlockToSection.
  destruct (BTree.getPairOrNextLower _ cur) as [[k s]|];
    [destruct (_ >=? _)%Z|]; try assumption.
  now apply sorted_update.
Qed.

Lemma pushBlocks_nil (s : SectionObj) : pushBlocks [] s = s.
Proof. destruct s. unfold pushBlocks. simpl. now rewrite app_nil_r. Qed.

Lemma pushBlocks_cons (k : Z) (refs : list Z) (s : SectionObj) :
  pushBlocks refs (pushBlock k s) = pushBlocks (k :: refs) s.
Proof. unfold pushBlocks, pushBlock. simpl. now rewrite <- app_assoc. Qed.

(** The loop that adds the blocks to the sections, in closed form: each
    section receives, in the order of the block index, the blocks that
    pass the test for it. *)
Lemma addBlocks_closed (secs cur : BTree.t SectionObj) (blocks : BTree.t JsonMarkdownBlock) :
  BTree.sorted cur -> BTree.related samePosition secs cur ->
  fold_left addBlockToSection blocks cur
  = map (fun e => (fst e, pushBlocks (map fst (filter (assigned secs (fst e)) blocks))
                            (snd e))) cur.
Proof.
  revert cur; induction blocks as [|kb r IH]; intros cur Hs Hrel; simpl.
  - rewrite <- (entries_id cur) at 1. apply map_ext. intros e. now rewrite pushBlocks_nil.
  - rewrite IH.
    + rewrite (addBlockToSection_map secs cur kb Hs Hrel), map_map.
      apply map_ext. intros e. simpl.
      destruct (assigned secs (fst e) kb); [|reflexivity].
      simpl. now rewrite pushBlocks_cons.
    + now apply addBlockToSection_sorted.
    + eapply related_trans; [|exact Hrel | apply addBlockToSection_related].
      unfold samePosition. congruence.
Qed.

Lemma keepsBlocks_refl s : keepsBlocks s s.
Proof. split; reflexivity. Qed.

Lemma keepsBlocks_trans a b c : keepsBlocks a b -> keepsBlocks b c -> keepsBlocks a c.
Proof. unfold keepsBlocks. intros [? ?] [? ?]. split; congruence. Qed.

Lemma linkStep_keepsBlocks st linkdef :
  BTree.related keepsBlocks (st_sections st) (st_sections (linkStep st linkdef)).
Proof.
  unfold linkStep. simpl.
  destruct (BTree.getPairOrNextLower _ (st_sections st)) as [[k s]|];
    [destruct (_ >=? _)%Z|]; try (apply related_refl, keepsBlocks_refl).
  apply related_update; [apply keepsBlocks_refl|]. intros v. split; reflexivity.
Qed.

Lemma links_fold_keepsBlocks ls st :
  BTree.related keepsBlocks (st_sections st) (st_sections (fold_left linkStep ls st)).
Proof.
  revert st; induction ls as [|l r IH]; intros st; simpl;
    [apply related_refl, keepsBlocks_refl|].
  eapply related_trans; [exact keepsBlocks_trans | apply linkStep_keepsBlocks | apply IH].
Qed.

Lemma buildSections_noblocks path lines empty hs secs :
  buildSections path lines empty hs = Some secs ->
  Forall (fun s => s_blocks s = []) (BTree.values secs).
Proof.
  unfold buildSections.
  set (sections := headingSections hs 0 (len lines) BTree.empty).
  assert (Hl : Forall (fun s => s_blocks s = []) (BTree.values sections)).
  { eapply Forall_impl; [|apply headingSections_values; [lia | constructor]].
    intros s (_ & _ & H). exact H. }
  assert (Hset : forall e, Forall (fun s => s_blocks s = [])
                             (BTree.values (BTree.set 0%Z (implicitSection path e) sections)))
    by (intros e; now apply Forall_values_set).
  destruct (BTree.getPairOrNextHigher 0 sections) as [[k first]|].
  - destruct (emptylines lines 0 _) as [[|]|]; intros [= <-]; auto.
  - destruct (negb empty); intros [= <-]; auto.
Qed.

(** The block objects that a list of entries of the index refers to, as
    the final index holds them. *)
Lemma deref_entries (blocks blocksF : BTree.t JsonMarkdownBlock)
    (l : list (Z * JsonMarkdownBlock)) :
  BTree.sorted blocks -> BTree.related blockGrows blocks blocksF ->
  (forall kb, In kb l -> In kb blocks) ->
  Forall2 (fun kb b' => blockGrows (snd kb) b') l (derefBlocks blocksF (map fst l)).
Proof.
  intros Hs Hrel. induction l as [|[k b] r IH]; intros Hin; simpl; [constructor|].
  pose proof (related_get blockGrows blocks blocksF k Hrel) as Hg.
  rewrite (In_get blocks k b Hs (Hin _ (or_introl eq_refl))) in Hg.
  destruct (BTree.get k blocksF) as [b'|]; [|contradiction].
  simpl. constructor; [exact Hg|]. apply IH. intros kb Hkb. apply Hin. now right.
Qed.

(** The sections of the final store against the sections that the
    section builder returned: same spans, and the blocks of each are the
    blocks of the index that pass the test for it, in index order. *)
Lemma final_sections path markdown metadata excludeExample secs st :
  buildSections path (split_nl markdown)
    (negb (existsb (fun line => negb (isEmptyStr (trim line))) (split_nl markdown)))
    (sortHeadings (orEmpty (md_headings metadata))) = Some secs ->
  finalStore path markdown metadata excludeExample = Some st ->
  let blocks := fst (buildBlocks markdown (split_nl markdown) excludeExample
                       (orEmpty (md_sections metadata))) in
  Forall2 (fun e0 sF =>
             s_position sF = s_position (snd e0)
             /\ Forall2 (fun kb b' => blockGrows (snd kb) b')
                  (filter (assigned secs (fst e0)) blocks)
                  (derefBlocks (st_blocks st) (s_blocks sF)))
          secs (BTree.values (st_sections st)).
Proof.
  intros Hsecs Hst blocks.
  rewrite finalStore_unfold, Hsecs in Hst. injection Hst as <-.
  destruct (buildSections_inv _ _ _ _ _ Hsecs) as [Hsorted _].
  pose proof (buildSections_noblocks _ _ _ _ _ Hsecs) as Hnb.
  set (st0 := initialStore markdown excludeExample metadata secs).
  set (st1 := fold_left linkStep (orEmpty (md_links metadata)) st0).
  destruct (frontmatter_fold_same (orEmpty (md_frontmatterLinks metadata)) st1) as [-> ->].
  assert (Hb : BTree.related blockGrows blocks (st_blocks st1))
    by exact (proj2 (proj2 (links_fold_grows (orEmpty (md_links metadata)) st0))).
  assert (Hbs : BTree.sorted blocks) by apply buildBlocks_sorted.
  pose proof (links_fold_keepsBlocks (orEmpty (md_links metadata)) st0) as Hk.
  fold st1 in Hk.
  assert (H0 : st_sections st0
               = map (fun e => (fst e, pushBlocks (map fst (filter (assigned secs (fst e)) blocks))
                                         (snd e))) secs).
  { unfold st0, initialStore. simpl. unfold addBlocksToSections.
    apply addBlocks_closed; [exact Hsorted | apply related_refl; reflexivity]. }
  rewrite H0 in Hk. clear H0.
  unfold BTree.values in *. revert Hk Hnb.
  generalize (st_sections st1) as secsF.
  assert (Haux : forall l secsF,
             BTree.related keepsBlocks
               (map (fun e => (fst e, pushBlocks (map fst (filter (assigned secs (fst e)) blocks))
                                        (snd e))) l) secsF ->
             Forall (fun s => s_blocks s = []) (map snd l) ->
             Forall2 (fun e0 sF =>
                        s_position sF = s_position (snd e0)
                        /\ Forall2 (fun kb b' => blockGrows (snd kb) b')
                             (filter (assigned secs (fst e0)) blocks)
                             (derefBlocks (st_blocks st1) (s_blocks sF)))
                     l (map snd secsF)); [|exact (Haux secs)].
  induction l as [|[k0 s0] r IH]; intros secsF Hk Hnb.
  - inversion Hk; subst. constructor.
  - simpl in Hk. inversion Hk as [|? [kF sF] ? rF [Hkey [Hpos Hblk]] Hrest]; subst.
    simpl in Hnb. inversion Hnb as [|? ? Hnb0 Hnb']; subst.
    simpl in *. constructor.
    + split; [exact Hpos|]. rewrite Hblk, Hnb0. simpl.
      apply (deref_entries blocks); [exact Hbs | exact Hb |].
      intros kb Hkb. now apply filter_In in Hkb.
    + now apply IH.
Qed.

Lemma lower_spec {V : Type} (m : BTree.t V) (k k' : Z) (v : V) :
  BTree.sorted m ->
  (BTree.getPairOrNextLower k m = Some (k', v)
   <-> In (k', v) m /\ (k' <= k)%Z
       /\ forall k2, In k2 (BTree.keys m) -> (k2 <= k)%Z -> (k2 <= k')%Z).
Proof.
  intros Hs. split.
  - intros H. destruct (lower_In _ _ _ _ H). repeat split; auto.
    exact (lower_greatest _ _ _ _ Hs H).
  - intros (Hin & Hle & Hmax).
    destruct (BTree.getPairOrNextLower k m) as [[k1 v1]|] eqn:Hl.
    + destruct (lower_In _ _ _ _ Hl) as [Hin1 Hle1].
      pose proof (lower_greatest _ _ _ _ Hs Hl k' (in_map fst _ _ Hin) Hle).
      pose proof (Hmax k1 (in_map fst _ _ Hin1) Hle1).
      assert (k1 = k') by lia. subst k1.
      pose proof (In_get _ _ _ Hs Hin). pose proof (In_get _ _ _ Hs Hin1). congruence.
    + pose proof (lower_None _ _ Hs Hl k' (in_map fst _ _ Hin)). lia.
Qed.

Lemma assigned_spec (secs : BTree.t SectionObj) (ks : Z) (s0 : SectionObj)
    (kb : Z * JsonMarkdownBlock) :
  BTree.sorted secs -> In (ks, s0) secs ->
  (assigned secs ks kb = true
   <-> (ks <= sp_start (b_position (snd kb)))%Z
       /\ (sp_end (b_position (snd kb)) <= sp_end (s_position s0))%Z
       /\ forall k2, In k2 (BTree.keys secs) ->
            (k2 <= sp_start (b_position (snd kb)))%Z -> (k2 <= ks)%Z).
Proof.
  intros Hs Hin. unfold assigned. split.
  - destruct (BTree.getPairOrNextLower _ secs) as [[k1 v1]|] eqn:Hl; [|discriminate].
    intros H. apply andb_prop in H as [Hk He].
    apply Z.eqb_eq in Hk. subst k1.
    apply (proj1 (lower_spec _ _ _ _ Hs)) in Hl as (Hin1 & Hle & Hmax).
    pose proof (In_get _ _ _ Hs Hin). pose proof (In_get _ _ _ Hs Hin1).
    assert (v1 = s0) by congruence. subst v1.
    repeat split; auto. lia.
  - intros (Hle & He & Hmax).
    rewrite (proj2 (lower_spec secs _ ks s0 Hs)) by auto.
    rewrite Z.eqb_refl. simpl. lia.
Qed.

Lemma Forall2_In_r {A B : Type} (R : A -> B -> Prop) (l : list A) (l' : list B) (y : B) :
  Forall2 R l l' -> In y l' -> exists x, In x l /\ R x y.
Proof.
  induction 1 as [|a b r r' Hab _ IH]; simpl; [contradiction|].
  intros [<-|Hin]; [eauto|]. destruct (IH Hin) as (x & ? & ?). eauto.
Qed.

Lemma Forall2_In_l {A B : Type} (R : A -> B -> Prop) (l : list A) (l' : list B) (x : A) :
  Forall2 R l l' -> In x l -> exists y, In y l' /\ R x y.
Proof.
  induction 1 as [|a b r r' Hab _ IH]; simpl; [contradiction|].
  intros [<-|Hin]; [eauto|]. destruct (IH Hin) as (y & ? & ?). eauto.
Qed.

Lemma import_parts path markdown metadata excludeExample page :
  snd (markdownImport path markdown metadata excludeExample) = Some page ->
  exists secs st,
    buildSections path (split_nl markdown)
      (negb (existsb (fun line => negb (isEmptyStr (trim line))) (split_nl markdown)))
      (sortHeadings (orEmpty (md_headings metadata))) = Some secs
    /\ finalStore path markdown metadata excludeExample = Some st
    /\ p_sections page = map (exportSection (st_blocks st)) (BTree.values (st_sections st)).
Proof.
  rewrite markdownImport_snd.
  destruct (finalStore path markdown metadata excludeExample) as [st|] eqn:Hst; [|discriminate].
  intros [= <-]. pose proof Hst as Hst'. rewrite finalStore_unfold in Hst'.
  destruct (buildSections _ _ _ _) as [secs|] eqn:Hsecs; [|discriminate].
  exists secs, st. auto.
Qed.

(** X14.  Which blocks a section of the returned page lists: a block of the
    index is listed in a section exactly when that section is the last
    one that starts at or before the block's start line and it ends at or
    after the block's end line.  So a block that starts before every
    section, or that reaches beyond the end of the section it starts in,
    is in no section of the page. *)
Theorem section_lists_block (path markdown : str) (metadata : CachedMetadata)
    (excludeExample : bool) (page : JsonMarkdownPage) (s : JsonMarkdownSection)
    (e : Z * JsonMarkdownBlock) :
  snd (markdownImport path markdown metadata excludeExample) = Some page ->
  In s (p_sections page) ->
  In e (fst (buildBlocks markdown (split_nl markdown) excludeExample
               (orEmpty (md_sections metadata)))) ->
  ((exists b', In b' (js_blocks s) /\ b_ordinal b' = b_ordinal (snd e))
   <-> (sp_start (js_position s) <= sp_start (b_position (snd e)))%Z
       /\ (sp_end (b_position (snd e)) <= sp_end (js_position s))%Z
       /\ forall s2, In s2 (p_sections page) ->
            (sp_start (js_position s2) <= sp_start (b_position (snd e)))%Z ->
            (sp_start (js_position s2) <= sp_start (js_position s))%Z).
Proof.
  intros Hpage Hs He.
  destruct (import_parts _ _ _ _ _ Hpage) as (secs & st & Hsecs & Hst & Hp).
  pose proof (final_sections _ _ _ _ _ _ Hsecs Hst) as Hfs. simpl in Hfs.
  destruct (buildSections_inv _ _ _ _ _ Hsecs) as [Hsorted _].
  pose proof (buildSections_start _ _ _ _ _ Hsecs) as Hstart.
  rewrite Forall_forall in Hstart.
  rewrite Hp in Hs. apply in_map_iff in Hs as (sF & <- & HsF).
  destruct (Forall2_In_r _ _ _ _ Hfs HsF) as ([ks s0] & Hin0 & Hpos & Hblocks).
  simpl in Hpos, Hblocks. simpl js_position. simpl js_blocks.
  pose proof (Hstart _ Hin0) as Hks. simpl in Hks.
  assert (Hstarts : forall k2, In k2 (BTree.keys secs) <->
                      exists s2, In s2 (p_sections page) /\ sp_start (js_position s2) = k2).
  { intros k2. rewrite Hp. split.
    - intros Hk2. apply in_map_iff in Hk2 as ([k3 s3] & <- & Hin3).
      destruct (Forall2_In_l _ _ _ _ Hfs Hin3) as (sF3 & HsF3 & Hpos3 & _).
      exists (exportSection (st_blocks st) sF3). split; [now apply in_map|].
      pose proof (Hstart _ Hin3) as H3. simpl in *. now rewrite Hpos3.
    - intros (s2 & Hs2 & <-). apply in_map_iff in Hs2 as (sF2 & <- & HsF2).
      destruct (Forall2_In_r _ _ _ _ Hfs HsF2) as ([k3 s3] & Hin3 & Hpos3 & _).
      pose proof (Hstart _ Hin3) as H3. simpl in *. rewrite Hpos3, H3.
      apply (in_map fst) in Hin3. exact Hin3. }
  rewrite Hpos, Hks.
  split.
  - intros (b' & Hb' & Hord).
    destruct (Forall2_In_r _ _ _ _ Hblocks Hb') as (kb & Hkb & Hgrow).
    apply filter_In in Hkb as [Hkb Hass].
    assert (kb = e).
    { eapply index_ordinal_inj; eauto. destruct Hgrow as (Ho & _). congruence. }
    subst kb. apply (proj1 (assigned_spec secs ks s0 e Hsorted Hin0)) in Hass.
    destruct Hass as (H1 & H2 & H3). repeat split; auto.
    intros s2 Hs2 Hle. apply H3; [|exact Hle]. apply Hstarts. eauto.
  - intros (H1 & H2 & H3).
    assert (Hass : assigned secs ks e = true).
    { apply (proj2 (assigned_spec secs ks s0 e Hsorted Hin0)). repeat split; auto.
      intros k2 Hk2 Hle. apply Hstarts in Hk2 as (s2 & Hs2 & <-). now apply H3. }
    assert (Hin : In e (filter (assigned secs ks)
                          (fst (buildBlocks markdown (split_nl markdown) excludeExample
                                  (orEmpty (md_sections metadata))))))
      by (apply filter_In; auto).
    destruct (Forall2_In_l _ _ _ _ Hblocks Hin) as (b' & Hb' & Hgrow).
    exists b'. split; [exact Hb' | exact (proj1 Hgrow)].
Qed.

Lemma filter_keys_sorted {V : Type} (P : Z * V -> bool) (m : BTree.t V) :
  BTree.sorted m -> StronglySorted Z.lt (map fst (filter P m)).
Proof.
  unfold BTree.sorted, BTree.keys.
  induction m as [|a r IH]; simpl; intros Hs; [constructor|].
  inversion Hs as [|? ? Hr Hall]; subst.
  destruct (P a); simpl; [|now apply IH].
  constructor; [now apply IH|].
  rewrite Forall_forall in *. intros k Hk. apply Hall.
  apply in_map_iff in Hk as (x & <- & Hx). apply filter_In in Hx as [Hx _].
  now apply in_map.
Qed.

Lemma partition_NoDup {A B : Type} (f : A -> B) (P : Z -> A -> bool)
    (ks : list Z) (l : list A) :
  NoDup ks -> NoDup (map f l) ->
  (forall k1 k2 a, P k1 a = true -> P k2 a = true -> k1 = k2) ->
  NoDup (flat_map (fun k => map f (filter (P k) l)) ks).
Proof.
  intros Hks Hl Hone.
  assert (Hinj : forall a a', In a l -> In a' l -> f a = f a' -> a = a').
  { clear -Hl. induction l as [|x r IH]; simpl; [contradiction|].
    inversion Hl as [|? ? Hx Hr]; subst.
    intros a a' [<-|Ha] [<-|Ha'] Heq; auto.
    - exfalso. apply Hx. rewrite Heq. now apply in_map.
    - exfalso. apply Hx. rewrite <- Heq. now apply in_map. }
  assert (Hsub : forall k, NoDup (map f (filter (P k) l))).
  { intros k. clear -Hl. induction l as [|x r IH]; simpl; [constructor|].
    inversion Hl as [|? ? Hx Hr]; subst.
    destruct (P k x); simpl; [|now apply IH].
    constructor; [|now apply IH].
    intros Hin. apply Hx. apply in_map_iff in Hin as (y & <- & Hy).
    apply filter_In in Hy as [Hy _]. now apply in_map. }
  induction Hks as [|k r Hk Hr IH]; simpl; [constructor|].
  apply NoDup_app; [apply Hsub | exact IH |].
  intros y Hy Hy'. apply in_map_iff in Hy as (a & <- & Ha).
  apply filter_In in Ha as [Ha HP].
  apply in_flat_map in Hy' as (k' & Hk' & Hy').
  apply in_map_iff in Hy' as (a' & Heq & Ha'). apply filter_In in Ha' as [Ha' HP'].
  apply (Hinj _ _ Ha' Ha) in Heq. subst a'.
  rewrite (Hone _ _ _ HP HP') in Hk. contradiction.
Qed.

(** X15.  In the returned page the blocks of every section are in strictly
    ascending order of their start lines, and no two blocks of the page,
    of one section or of two, carry the same ordinal: a block object is
    listed at most once. *)
Theorem page_blocks_once (path markdown : str) (metadata : CachedMetadata)
    (excludeExample : bool) (page : JsonMarkdownPage) :
  snd (markdownImport path markdown metadata excludeExample) = Some page ->
  (forall s, In s (p_sections page) ->
     StronglySorted Z.lt (map (fun b => sp_start (b_position b)) (js_blocks s)))
  /\ NoDup (map b_ordinal (pageBlocks page)).
Proof.
  intros Hpage.
  destruct (import_parts _ _ _ _ _ Hpage) as (secs & st & Hsecs & Hst & Hp).
  pose proof (final_sections _ _ _ _ _ _ Hsecs Hst) as Hfs. simpl in Hfs.
  destruct (buildSections_inv _ _ _ _ _ Hsecs) as [Hsorted _].
  set (blocks := fst (buildBlocks markdown (split_nl markdown) excludeExample
                        (orEmpty (md_sections metadata)))) in *.
  assert (Hbs : BTree.sorted blocks) by apply buildBlocks_sorted.
  split.
  - intros s Hs. rewrite Hp in Hs. apply in_map_iff in Hs as (sF & <- & HsF).
    destruct (Forall2_In_r _ _ _ _ Hfs HsF) as ([ks s0] & Hin0 & _ & Hblocks).
    simpl in Hblocks. simpl js_blocks.
    replace (map (fun b => sp_start (b_position b)) (derefBlocks (st_blocks st) (s_blocks sF)))
      with (map fst (filter (assigned secs ks) blocks)); [now apply filter_keys_sorted|].
    assert (Hsub : forall kb, In kb (filter (assigned secs ks) blocks) -> In kb blocks)
      by (intros kb Hkb; now apply filter_In in Hkb).
    revert Hblocks Hsub.
    generalize (filter (assigned secs ks) blocks) as l.
    generalize (derefBlocks (st_blocks st) (s_blocks sF)) as l'.
    intros l' l H. induction H as [|[k b] b' r r' Hg _ IH]; intros Hsub; [reflexivity|].
    simpl. f_equal.
    + destruct Hg as (_ & Hposb & _). simpl in Hposb. rewrite Hposb.
      symmetry. eapply index_entry_start. apply (Hsub (k, b)). now left.
    + apply IH. intros kb Hkb. apply Hsub. now right.
  - unfold pageBlocks. rewrite Hp.
    assert (Heq : map b_ordinal
                    (flat_map js_blocks
                       (map (exportSection (st_blocks st)) (BTree.values (st_sections st))))
                  = flat_map (fun k => map (fun kb => b_ordinal (snd kb))
                                         (filter (assigned secs k) blocks))
                             (map fst secs)).
    { revert Hfs. generalize (BTree.values (st_sections st)) as lF.
      assert (Haux : forall (l : list (Z * SectionObj)) lF,
                 Forall2 (fun e0 sF =>
                            s_position sF = s_position (snd e0)
                            /\ Forall2 (fun kb b' => blockGrows (snd kb) b')
                                 (filter (assigned secs (fst e0)) blocks)
                                 (derefBlocks (st_blocks st) (s_blocks sF))) l lF ->
                 map b_ordinal (flat_map js_blocks (map (exportSection (st_blocks st)) lF))
                 = flat_map (fun k => map (fun kb => b_ordinal (snd kb))
                                        (filter (assigned secs k) blocks))
                            (map fst l)); [|exact (Haux secs)].
      intros l lF H. induction H as [|[k0 s0] sF r rF [_ Hb] _ IH]; [reflexivity|].
      simpl. rewrite map_app, IH. f_equal. simpl in Hb.
      clear -Hb. induction Hb as [|kb b' r r' Hg _ IH]; [reflexivity|].
      simpl. f_equal; [exact (proj1 Hg) | exact IH]. }
    rewrite Heq. apply partition_NoDup.
    + now apply sorted_keys_NoDup.
    + pose proof (block_ordinals_NoDup markdown (split_nl markdown) excludeExample
                    (orEmpty (md_sections metadata))) as Hnd.
      fold blocks in Hnd. unfold BTree.values in Hnd. now rewrite map_map in Hnd.
    + intros k1 k2 a H1 H2. unfold assigned in H1, H2.
      destruct (BTree.getPairOrNextLower _ secs) as [[k v]|]; [|discriminate].
      apply andb_prop in H1 as [H1 _]. apply andb_prop in H2 as [H2 _].
      apply Z.eqb_eq in H1, H2. congruence.
Qed.

End BlockAssignment.

(* ================================================================== *)
(** * Where the links of the arrays come from *)
(* ================================================================== *)

Section LinkOrigins.

Context {E : Externals}.

Import BTreeFacts.


Lemma addLink_In (l : list Link) (y x : Link) : In x (addLink l y) -> In x l \/ x = y.
Proof.
  unfold addLink. destruct (existsb _ l); [auto|].
  intros H. apply in_app_or in H as [H|[<-|[]]]; auto.
Qed.

Lemma Forall_update_at {V : Type} (P : Z * V -> Prop) (m : BTree.t V) (k : Z) (v : V)
    (f : V -> V) :
  BTree.sorted m -> In (k, v) m -> Forall P m -> (P (k, v) -> P (k, f v)) ->
  Forall P (BTree.update k f m).
Proof.
  intros Hs Hin Hall Hf. rewrite update_map by assumption.
  rewrite Forall_forall in *. intros e He.
  apply in_map_iff in He as ([k1 v1] & <- & Hin1). simpl.
  destruct (Z.eqb_spec k k1) as [<-|_]; [|now apply Hall].
  pose proof (In_get _ _ _ Hs Hin). pose proof (In_get _ _ _ Hs Hin1).
  assert (v1 = v) by congruence. subst v1. apply Hf. now apply Hall.
Qed.

Lemma blockLinksFrom_add (done : list LinkCache) (ld : LinkCache) (b : JsonMarkdownBlock) :
  (linkLine ld <= sp_end (b_position b))%Z ->
  blockLinksFrom (done ++ [ld]) b ->
  blockLinksFrom (done ++ [ld]) (addLinkToBlock (Link_infer (lc_link ld)) b).
Proof.
  intros Hle Hb x Hx. simpl in Hx. apply addLink_In in Hx as [Hx| ->].
  - exact (Hb x Hx).
  - exists ld. split; [apply in_or_app; right; now left|]. split; [reflexivity | exact Hle].
Qed.

Lemma blocksLower_from (done : list LinkCache) (ld : LinkCache)
    (blocks : BTree.t JsonMarkdownBlock) :
  BTree.sorted blocks ->
  Forall (fun e => blockLinksFrom (done ++ [ld]) (snd e)) blocks ->
  Forall (fun e => blockLinksFrom (done ++ [ld]) (snd e))
         (blocksLower (linkLine ld) (Link_infer (lc_link ld)) blocks).
Proof.
  intros Hs Hall. unfold blocksLower.
  destruct (BTree.getPairOrNextLower _ blocks) as [[k b]|] eqn:Hl; [|assumption].
  destruct (Z.geb_spec (sp_end (b_position b)) (linkLine ld)); [|assumption].
  apply lower_In in Hl as [Hin _].
  apply (Forall_update_at _ blocks k b); auto.
  simpl. apply blockLinksFrom_add. lia.
Qed.

Lemma blocksHigher_from (done : list LinkCache) (ld : LinkCache)
    (blocks : BTree.t JsonMarkdownBlock) :
  BTree.sorted blocks ->
  Forall (fun e => blockLinksFrom (done ++ [ld]) (snd e)) blocks ->
  Forall (fun e => blockLinksFrom (done ++ [ld]) (snd e))
         (blocksHigher (linkLine ld) (Link_infer (lc_link ld)) blocks).
Proof.
  intros Hs Hall. unfold blocksHigher.
  destruct (BTree.getPairOrNextHigher _ blocks) as [[k b]|] eqn:Hl; [|assumption].
  destruct (Z.geb_spec (sp_end (b_position b)) (linkLine ld)); [|assumption].
  apply higher_In in Hl as [Hin _].
  apply (Forall_update_at _ blocks k b); auto.
  simpl. apply blockLinksFrom_add. lia.
Qed.

Lemma linksFrom_more (done : list LinkCache) (ld : LinkCache) (st : Store) :
  linksFrom done st -> linksFrom (done ++ [ld]) st.
Proof.
  intros (Hl & Hss & Hs & Hbs & Hb).
  split; [|split; [exact Hss|split; [|split; [exact Hbs|]]]].
  - intros x Hx. destruct (Hl x Hx) as (l0 & Hin & Heq).
    exists l0. split; [apply in_or_app; now left | exact Heq].
  - eapply Forall_impl; [|exact Hs]. intros e [Hk Hfrom]. split; [exact Hk|].
    intros x Hx. destruct (Hfrom x Hx) as (l0 & Hin & Heq).
    exists l0. split; [apply in_or_app; now left | exact Heq].
  - eapply Forall_impl; [|exact Hb]. intros e Hfrom.
    intros x Hx. destruct (Hfrom x Hx) as (l0 & Hin & Heq).
    exists l0. split; [apply in_or_app; now left | exact Heq].
Qed.

Lemma linkStep_from (done : list LinkCache) (ld : LinkCache) (st : Store) :
  linksFrom done st -> linksFrom (done ++ [ld]) (linkStep st ld).
Proof.
  intros H. apply (linksFrom_more done ld) in H.
  destruct H as (Hl & Hss & Hs & Hbs & Hb).
  split; [|split; [|split; [|split]]].
  - simpl. intros x Hx. apply addLink_In in Hx as [Hx| ->]; [now apply Hl|].
    exists ld. split; [apply in_or_app; right; now left | reflexivity].
  - exact (proj1 (storeGrows_sorted _ _ (linkStep_grows st ld) Hss Hbs)).
  - simpl. fold (linkLine ld).
    destruct (BTree.getPairOrNextLower _ (st_sections st)) as [[k s]|] eqn:Hlow; [|assumption].
    destruct (Z.geb_spec (sp_end (s_position s)) (linkLine ld)); [|assumption].
    apply lower_In in Hlow as [Hin Hle].
    apply (Forall_update_at _ (st_sections st) k s); auto.
    simpl. intros [Hk Hfrom]. split; [exact Hk|].
    intros x Hx. simpl in Hx. apply addLink_In in Hx as [Hx| ->]; [exact (Hfrom x Hx)|].
    exists ld. split; [apply in_or_app; right; now left|]. split; [reflexivity|].
    simpl. lia.
  - exact (proj2 (storeGrows_sorted _ _ (linkStep_grows st ld) Hss Hbs)).
  - rewrite linkStep_blocks. fold (linkLine ld).
    apply blocksHigher_from.
    + eapply related_sorted; [apply blocksLower_grows | exact Hbs].
    + now apply blocksLower_from.
Qed.

Lemma links_fold_from (ls done : list LinkCache) (st : Store) :
  linksFrom done st -> linksFrom (done ++ ls) (fold_left linkStep ls st).
Proof.
  revert done st; induction ls as [|ld r IH]; intros done st H; simpl.
  - now rewrite app_nil_r.
  - replace (done ++ ld :: r) with ((done ++ [ld]) ++ r) by (now rewrite <- app_assoc).
    apply IH. now apply linkStep_from.
Qed.

Lemma frontmatter_fold_links (fl : list FrontmatterLinkCache) (st : Store) x :
  In x (st_links (fold_left frontmatterStep fl st)) ->
  In x (st_links st)
  \/ exists f, In f fl /\ x = Link_inferFrontmatter (fl_link f) (fl_displayText f).
Proof.
  revert st; induction fl as [|f r IH]; intros st; simpl; [auto|].
  intros H. apply IH in H as [H|(f' & Hf' & Heq)].
  - simpl in H. apply addLink_In in H as [H| ->]; [auto|]. right. exists f. auto.
  - right. exists f'. auto.
Qed.

Lemma initialStore_from markdown excludeExample metadata path secs :
  buildSections path (split_nl markdown)
    (negb (existsb (fun line => negb (isEmptyStr (trim line))) (split_nl markdown)))
    (sortHeadings (orEmpty (md_headings metadata))) = Some secs ->
  linksFrom [] (initialStore markdown excludeExample metadata secs).
Proof.
  intros Hsecs.
  destruct (buildSections_inv _ _ _ _ _ Hsecs) as [Hsorted Hnl].
  pose proof (buildSections_start _ _ _ _ _ Hsecs) as Hstart.
  split; [intros x []|]. simpl.
  assert (Hrel := addBlocks_grows
                    (fst (buildBlocks markdown (split_nl markdown) excludeExample
                            (orEmpty (md_sections metadata)))) secs).
  split; [eapply related_sorted; eauto|]. split; [|split].
  - assert (Haux : forall l l' : BTree.t SectionObj,
               BTree.related sectionGrows l l' ->
               Forall (fun e => sp_start (s_position (snd e)) = fst e) l ->
               Forall (fun s => s_links s = []) (BTree.values l') ->
               Forall (fun e => sp_start (s_position (snd e)) = fst e
                                /\ sectionLinksFrom [] (snd e)) l').
    { intros l l' H. unfold BTree.values.
      induction H as [|[k s] [k' s'] r r' [Hk Hg] _ IH]; intros Hst Hnl0; [constructor|].
      inversion Hst as [|? ? Hst0 Hst']; subst.
      simpl in Hnl0. inversion Hnl0 as [|? ? Hnl1 Hnl2]; subst. simpl in *. constructor.
      - simpl. destruct Hg as (_ & _ & _ & Hpos & _). split; [congruence|].
        intros x Hx. rewrite Hnl1 in Hx. destruct Hx.
      - now apply IH. }
    apply (Haux secs); [exact Hrel | exact Hstart |].
    now apply addBlocks_nolinks.
  - apply buildBlocks_sorted.
  - pose proof (buildBlocks_nolinks markdown (split_nl markdown) excludeExample
                  (orEmpty (md_sections metadata))) as Hb.
    unfold BTree.values in Hb. rewrite Forall_map in Hb.
    eapply Forall_impl; [|exact Hb]. intros e He x Hx. rewrite He in Hx. destruct Hx.
Qed.

(** X16.  Where the links of the returned page come from.  Every link of
    the page's array is the link of an occurrence of the outline or of a
    frontmatter occurrence; every link of a section's array is the link
    of an occurrence on a line within the section's span; every link of a
    block's array is the link of an occurrence on a line at or before the
    block's end line. *)
Theorem links_have_origins (path markdown : str) (metadata : CachedMetadata)
    (excludeExample : bool) (page : JsonMarkdownPage) :
  snd (markdownImport path markdown metadata excludeExample) = Some page ->
  (forall x, In x (p_links page) ->
     (exists ld, In ld (orEmpty (md_links metadata)) /\ x = Link_infer (lc_link ld))
     \/ (exists f, In f (orEmpty (md_frontmatterLinks metadata))
                   /\ x = Link_inferFrontmatter (fl_link f) (fl_displayText f)))
  /\ (forall s x, In s (p_sections page) -> In x (js_links s) ->
        exists ld, In ld (orEmpty (md_links metadata)) /\ x = Link_infer (lc_link ld)
                   /\ (sp_start (js_position s) <= linkLine ld <= sp_end (js_position s))%Z)
  /\ (forall b x, In b (pageBlocks page) -> In x (b_links b) ->
        exists ld, In ld (orEmpty (md_links metadata)) /\ x = Link_infer (lc_link ld)
                   /\ (linkLine ld <= sp_end (b_position b))%Z).
Proof.
  intros Hpage.
  destruct (import_parts _ _ _ _ _ Hpage) as (secs & st & Hsecs & Hst & Hp).
  assert (Hlinks : p_links page = st_links st).
  { rewrite markdownImport_snd, Hst in Hpage. now injection Hpage as <-. }
  rewrite finalStore_unfold, Hsecs in Hst. injection Hst as Hst.
  set (st1 := fold_left linkStep (orEmpty (md_links metadata))
                (initialStore markdown excludeExample metadata secs)) in *.
  assert (Hfrom : linksFrom (orEmpty (md_links metadata)) st1)
    by (apply (links_fold_from _ []), (initialStore_from _ _ _ path), Hsecs).
  destruct Hfrom as (Hl & _ & Hs & _ & Hb).
  destruct (frontmatter_fold_same (orEmpty (md_frontmatterLinks metadata)) st1) as [Hss Hbb].
  rewrite Hst in Hss, Hbb.
  split; [|split].
  - intros x Hx. rewrite Hlinks, <- Hst in Hx.
    apply frontmatter_fold_links in Hx as [Hx|Hx]; [left; now apply Hl | now right].
  - intros s x Hsin Hx. rewrite Hp, Hss in Hsin.
    apply in_map_iff in Hsin as (sF & <- & HsF). simpl in *.
    apply in_map_iff in HsF as (e & <- & He).
    rewrite Forall_forall in Hs. exact (proj2 (Hs e He) x Hx).
  - intros b x Hbin Hx. unfold pageBlocks in Hbin. rewrite Hp in Hbin.
    apply pageBlocks_In in Hbin. rewrite Hbb in Hbin.
    apply in_map_iff in Hbin as (e & <- & He).
    rewrite Forall_forall in Hb. exact (Hb e He x Hx).
Qed.

End LinkOrigins.

(* ================================================================== *)
(** * The math text of a region *)
(* ================================================================== *)


Lemma trimStart_head (s : str) c r : trimStart s = c :: r -> isWhite c = false.
Proof.
  induction s as [|x s IH]; simpl; [discriminate|].
  destruct (isWhite x) eqn:Hx; [exact IH|]. intros [= <- _]. exact Hx.
Qed.

Lemma trimStart_suffix (s : str) : exists ws, s = ws ++ trimStart s.
Proof.
  induction s as [|x s [ws IH]]; simpl; [now exists []|].
  destruct (isWhite x); [|now exists []].
  exists (x :: ws). simpl. now rewrite <- IH.
Qed.

Lemma trimStart_fixed (s : str) :
  (forall c r, s = c :: r -> isWhite c = false) -> trimStart s = s.
Proof.
  destruct s as [|x s]; simpl; [reflexivity|].
  intros H. now rewrite (H x s eq_refl).
Qed.

Lemma trim_trimmed (s : str) : trimmed (trim s).
Proof.
  unfold trim, trimEnd. set (u := trimStart s). split.
  - intros c r Heq.
    destruct (trimStart_suffix (rev u)) as [ws Hws].
    apply (f_equal (@rev ascii)) in Hws. rewrite rev_involutive, rev_app_distr, Heq in Hws.
    simpl in Hws. exact (trimStart_head s c _ Hws).
  - intros c r Heq. apply (f_equal (@rev ascii)) in Heq.
    rewrite rev_involutive, rev_app_distr in Heq. simpl in Heq.
    exact (trimStart_head _ _ _ Heq).
Qed.

Lemma trimmed_fixed (s : str) : trimmed s -> trim s = s.
Proof.
  intros [Hhead Hlast]. unfold trim, trimEnd.
  rewrite (trimStart_fixed s Hhead).
  rewrite trimStart_fixed; [apply rev_involutive|].
  intros c r Heq. apply (Hlast c (rev r)).
  apply (f_equal (@rev ascii)) in Heq. rewrite rev_involutive in Heq. exact Heq.
Qed.

Lemma trimStart_white (s : str) :
  exists ws, s = ws ++ trimStart s /\ Forall (fun c => isWhite c = true) ws.
Proof.
  induction s as [|x s (ws & IH & Hws)]; simpl; [now exists []|].
  destruct (isWhite x) eqn:Hx; [|now exists []].
  exists (x :: ws). simpl. split; [now rewrite <- IH | now constructor].
Qed.

Lemma trimStart_skip (ws s : str) :
  Forall (fun c => isWhite c = true) ws -> trimStart (ws ++ s) = trimStart s.
Proof. induction 1 as [|c ws Hc _ IH]; simpl; [reflexivity | now rewrite Hc]. Qed.

Lemma trimStart_all_white (ws : str) :
  Forall (fun c => isWhite c = true) ws -> trimStart ws = [].
Proof. induction 1 as [|c ws Hc _ IH]; simpl; [reflexivity | now rewrite Hc]. Qed.

(** [trim] removes white space, and only that, from the two ends. *)
Lemma trim_spec (s : str) : TrimOf s (trim s).
Proof.
  destruct (trimStart_white s) as (pre & Hpre & Hwpre).
  destruct (trimStart_white (rev (trimStart s))) as (post & Hpost & Hwpost).
  exists pre, (rev post). split; [|split; [exact Hwpre | split]].
  - unfold trim, trimEnd. rewrite <- rev_app_distr, <- Hpost, rev_involutive. exact Hpre.
  - now apply Forall_rev.
  - apply trim_trimmed.
Qed.

Lemma TrimOf_trim (s t : str) : TrimOf s t -> t = trim s.
Proof.
  intros (pre & post & -> & Hpre & Hpost & Hhead & Hlast).
  unfold trim, trimEnd. rewrite (trimStart_skip pre _ Hpre).
  destruct t as [|c t'].
  - simpl. rewrite (trimStart_all_white post Hpost). reflexivity.
  - change ((c :: t') ++ post) with (c :: (t' ++ post)).
    cbn [trimStart]. rewrite (Hhead c t' eq_refl).
    change (c :: t' ++ post) with ((c :: t') ++ post).
    rewrite rev_app_distr, trimStart_skip by (now apply Forall_rev).
    rewrite trimStart_fixed; [now rewrite rev_involutive|].
    intros x r Heq. apply (Hlast x (rev r)).
    apply (f_equal (@rev ascii)) in Heq. rewrite rev_involutive in Heq. exact Heq.
Qed.

Lemma join_nl_cons (l : str) (ls : list str) :
  ls <> [] -> join_nl (l :: ls) = l ++ nl :: join_nl ls.
Proof. destruct ls; [congruence | reflexivity]. Qed.

Lemma split_nl_cons (c : ascii) (r : str) :
  split_nl (c :: r)
  = if Ascii.eqb c nl then [] :: split_nl r
    else match split_nl r with
         | l :: ls => (c :: l) :: ls
         | [] => [[c]]
         end.
Proof. reflexivity. Qed.

Lemma split_nl_lines (s : str) : LinesOf s (split_nl s).
Proof.
  split; [apply split_nl_nonempty|].
  induction s as [|c r [IHj IHn]]; [split; [reflexivity | repeat constructor; auto]|].
  rewrite split_nl_cons.
  destruct (Ascii.eqb c nl) eqn:Hc.
  - apply Ascii.eqb_eq in Hc. subst c. split.
    + rewrite join_nl_cons by apply split_nl_nonempty. simpl. now rewrite IHj.
    + constructor; [intros [] | exact IHn].
  - pose proof (split_nl_nonempty r) as Hne.
    destruct (split_nl r) as [|l ls]; [congruence|]. split.
    + destruct ls as [|l' ls']; simpl in *; now rewrite IHj.
    + inversion IHn as [|? ? Hl Hls]; subst. constructor; [|exact Hls].
      intros [Heq|Hin]; [|now apply Hl].
      subst c. rewrite Ascii.eqb_refl in Hc. discriminate.
Qed.

Lemma split_nl_line (l : str) : ~ In nl l -> split_nl l = [l].
Proof.
  induction l as [|c r IH]; intros Hn; [reflexivity|].
  rewrite split_nl_cons.
  destruct (Ascii.eqb c nl) eqn:Hc.
  - apply Ascii.eqb_eq in Hc. elim Hn. now left.
  - rewrite IH; [reflexivity|]. intros Hin. apply Hn. now right.
Qed.

Lemma split_nl_first (l rest : str) :
  ~ In nl l -> split_nl (l ++ nl :: rest) = l :: split_nl rest.
Proof.
  induction l as [|c r IH]; intros Hn.
  - simpl app. rewrite split_nl_cons, Ascii.eqb_refl. reflexivity.
  - change ((c :: r) ++ nl :: rest) with (c :: (r ++ nl :: rest)).
    rewrite split_nl_cons.
    destruct (Ascii.eqb c nl) eqn:Hc.
    + apply Ascii.eqb_eq in Hc. elim Hn. now left.
    + rewrite IH; [reflexivity|]. intros Hin. apply Hn. now right.
Qed.

(** The lines of a text are those that [split] returns. *)
Lemma LinesOf_split (s : str) (ls : list str) : LinesOf s ls -> ls = split_nl s.
Proof.
  intros (Hne & <- & Hnl).
  destruct ls as [|l r]; [congruence|]. clear Hne.
  revert l Hnl; induction r as [|l' r' IH]; intros l Hnl;
    inversion Hnl as [|? ? Hl Hr]; subst.
  - simpl. now rewrite split_nl_line.
  - rewrite join_nl_cons by discriminate.
    rewrite split_nl_first by assumption. f_equal. now apply IH.
Qed.

Lemma stripQuote_spec (line : str) : QuoteStripped line (stripQuote line).
Proof.
  destruct line as [|c r]; simpl.
  - apply strip_nothing. discriminate.
  - destruct (Ascii.eqb c ">"%char) eqn:Hc.
    + apply Ascii.eqb_eq in Hc. subst c. destruct r as [|w r'].
      * apply strip_marker. discriminate.
      * destruct (isWhite w) eqn:Hw.
        -- now apply strip_marker_white.
        -- apply strip_marker. intros w0 r0 [= <- <-]. exact Hw.
    + apply strip_nothing. intros r0 [= -> _]. rewrite Ascii.eqb_refl in Hc. discriminate.
Qed.

Lemma QuoteStripped_stripQuote (line out : str) :
  QuoteStripped line out -> out = stripQuote line.
Proof.
  intros H. destruct H as [line Hno | w r Hw | r Hr]; simpl.
  - destruct line as [|c r]; [reflexivity|]. simpl.
    destruct (Ascii.eqb c ">"%char) eqn:Hc; [|reflexivity].
    apply Ascii.eqb_eq in Hc. subst c. elim (Hno r). reflexivity.
  - now rewrite Hw.
  - destruct r as [|w r']; [reflexivity|]. now rewrite (Hr w r' eq_refl).
Qed.

Lemma stripped_lines (ls : list str) : Forall2 QuoteStripped ls (map stripQuote ls).
Proof. induction ls; simpl; constructor; [apply stripQuote_spec | assumption]. Qed.

Lemma stripped_lines_unique (ls ls' : list str) :
  Forall2 QuoteStripped ls ls' -> ls' = map stripQuote ls.
Proof.
  induction 1 as [|l l' r r' H _ IH]; simpl; [reflexivity|].
  now rewrite (QuoteStripped_stripQuote _ _ H), IH.
Qed.

(** The three steps determine the text: a text related to the text between
    the delimiters by trimming, stripping every line and trimming again is
    the one the extractor computes. *)
Lemma cleaned_text_unique (between inner : str) (lines stripped : list str) (text : str) :
  TrimOf between inner -> LinesOf inner lines -> Forall2 QuoteStripped lines stripped ->
  TrimOf (join_nl stripped) text -> text = cleanMath between.
Proof.
  intros Hi Hl Hs Ht. unfold cleanMath.
  apply TrimOf_trim in Hi. subst inner.
  apply LinesOf_split in Hl. subst lines.
  apply stripped_lines_unique in Hs. subst stripped.
  now apply TrimOf_trim in Ht.
Qed.

(** C4.  Every region that the extractor records for a callout text comes
    from an opening delimiter at a local position [s] and the first closing
    delimiter after it, at [e]: the start line is the callout's start line
    plus the number of line breaks before [s], the end line is the callout's
    start line plus the number of line breaks before [e], the offsets are
    the callout's start offset plus [s] and plus the end [e + 2] of the
    closing delimiter.  The text is obtained from the text strictly between
    the two delimiters in three steps: the white space around it is
    removed; from every line of what is left, the quote marker at the head
    of the line is removed, with the character after it when that is a
    white-space character; the white space around the lines so obtained,
    joined again, is removed. *)
Theorem C4_region_spans (blockText : str) (blockStartLine blockStartOffset : Z) :
  Forall (fun r =>
            exists s e,
              delimiterAt blockText s /\ delimiterAt blockText e /\ s + 2 <= e
              /\ (forall q, s + 2 <= q -> q < e -> ~ delimiterAt blockText q)
              /\ lineStart r = (blockStartLine + Z.of_nat (lineBreaks (firstn s blockText)))%Z
              /\ lineEnd r = (blockStartLine + Z.of_nat (lineBreaks (firstn e blockText)))%Z
              /\ startOffset r = (blockStartOffset + Z.of_nat s)%Z
              /\ endOffset r = (blockStartOffset + Z.of_nat (e + 2))%Z
              /\ exists inner lines stripped,
                   TrimOf (firstn (e - (s + 2)) (skipn (s + 2) blockText)) inner
                   /\ LinesOf inner lines
                   /\ Forall2 QuoteStripped lines stripped
                   /\ TrimOf (join_nl stripped) (mathText r))
         (findDisplayMathInCalloutBlock blockText blockStartLine blockStartOffset).
Proof.
  unfold findDisplayMathInCalloutBlock.
  eapply Forall_impl; [|apply findLoop_regions].
  intros r (s & e & Hs & (Hse & He & Hbetween) & ->).
  exists s, e. simpl.
  do 8 (split; [auto|]).
  set (between := firstn (e - (s + 2)) (skipn (s + 2) blockText)).
  exists (trim between), (split_nl (trim between)),
         (map stripQuote (split_nl (trim between))).
  split; [apply trim_spec|]. split; [apply split_nl_lines|].
  split; [apply stripped_lines | apply trim_spec].
Qed.

(** X17.  The math text of every region that the extractor returns neither
    starts nor ends with a white-space character, so trimming it again
    changes nothing. *)
Theorem region_text_trimmed (text : str) (L O : Z) :
  Forall (fun r => trimmed (mathText r) /\ trim (mathText r) = mathText r)
         (findDisplayMathInCalloutBlock text L O).
Proof.
  eapply Forall_impl; [|apply findLoop_regions].
  intros r (s0 & e & _ & _ & ->). simpl.
  assert (H : trimmed (cleanMath (firstn (e - (s0 + 2)) (skipn (s0 + 2) text))))
    by apply trim_trimmed.
  split; [exact H | now apply trimmed_fixed].
Qed.

Lemma isPrefix_firstn (d x : str) :
  isPrefix d x = true <-> firstn (length d) x = d.
Proof.
  revert x; induction d as [|a d IH]; intros [|b x]; simpl; split; intros H;
    try reflexivity; try discriminate.
  - apply andb_prop in H as [Hab Hd]. apply Ascii.eqb_eq in Hab. subst b.
    f_equal. now apply IH.
  - injection H as -> H. rewrite Ascii.eqb_refl. simpl. now apply IH.
Qed.

(** A delimiter of a part of a document is a delimiter of the document. *)
Lemma delimiter_in_document (md : str) (o m p : nat) :
  delimiterAt (firstn m (skipn o md)) p ->
  firstn 2 (skipn (o + p) md) = delimiter /\ p + 2 <= m.
Proof.
  unfold delimiterAt. intros H. apply isPrefix_firstn in H.
  change (length delimiter) with 2 in H.
  rewrite skipn_firstn_comm, firstn_firstn, skipn_skipn in H.
  assert (Hlen : length (firstn (Nat.min 2 (m - p)) (skipn (p + o) md)) = 2)
    by (rewrite H; reflexivity).
  rewrite length_firstn in Hlen.
  assert (Hmin : Nat.min 2 (m - p) = 2) by lia.
  rewrite Hmin in H. rewrite (Nat.add_comm o p). split; [exact H | lia].
Qed.

Lemma slice_from {A : Type} (l : list A) (a b : Z) :
  (0 <= a)%Z ->
  exists m, slice l a b = firstn m (skipn (Nat.min (Z.to_nat a) (length l)) l).
Proof.
  intros Ha. unfold slice. eexists. f_equal. f_equal.
  unfold relIndex. destruct (Z.ltb_spec a 0); lia.
Qed.

(** X18.  The offsets recorded for a region of a callout are offsets of the
    document: when the callout block starts at a non-negative offset, the
    document has a delimiter at the region's start offset and another one
    just before its end offset, and the math text of the region is the
    cleaned text of the document between the two. *)
Theorem region_offsets_in_document (markdown : str) (block : SectionCache) (L : Z) :
  (0 <= loc_offset (pos_start (sc_position block)))%Z ->
  Forall (fun r =>
            slice markdown (startOffset r) (startOffset r + 2) = delimiter
            /\ slice markdown (endOffset r - 2) (endOffset r) = delimiter
            /\ mathText r = cleanMath (slice markdown (startOffset r + 2) (endOffset r - 2)))
         (findDisplayMathInCalloutBlock (getBlockText markdown block) L
            (loc_offset (pos_start (sc_position block)))).
Proof.
  intros HO. unfold getBlockText.
  set (O := loc_offset (pos_start (sc_position block))) in *.
  destruct (slice_from markdown O (loc_offset (pos_end (sc_position block))) HO) as [m Htext].
  rewrite Htext.
  set (o := Nat.min (Z.to_nat O) (length markdown)).
  eapply Forall_impl; [|apply findLoop_regions].
  intros r (s0 & e & Hs & (Hse & He & _) & ->).
  destruct (delimiter_in_document _ _ _ _ Hs) as [Hds Hsm].
  destruct (delimiter_in_document _ _ _ _ He) as [Hde Hem].
  assert (Hlen : s0 + 2 <= length (firstn m (skipn o markdown))).
  { apply isPrefix_length in Hs. rewrite length_skipn in Hs.
    change (length delimiter) with 2 in Hs. lia. }
  rewrite length_firstn, length_skipn in Hlen.
  assert (Ho : O = Z.of_nat o) by (unfold o; lia).
  simpl. rewrite Ho.
  replace (Z.of_nat o + Z.of_nat s0 + 2)%Z with (Z.of_nat (o + s0 + 2)) by lia.
  replace (Z.of_nat o + Z.of_nat s0)%Z with (Z.of_nat (o + s0)) by lia.
  replace (Z.of_nat o + Z.of_nat (e + 2) - 2)%Z with (Z.of_nat (o + e)) by lia.
  replace (Z.of_nat o + Z.of_nat (e + 2))%Z with (Z.of_nat (o + e + 2)) by lia.
  rewrite !slice_nat.
  replace (o + s0 + 2 - (o + s0)) with 2 by lia.
  replace (o + e + 2 - (o + e)) with 2 by lia.
  split; [exact Hds|]. split; [exact Hde|].
  f_equal. rewrite skipn_firstn_comm, firstn_firstn, skipn_skipn.
  replace (Nat.min (e - (s0 + 2)) (m - (s0 + 2))) with (o + e - (o + s0 + 2)) by lia.
  now replace (s0 + 2 + o) with (o + s0 + 2) by lia.
Qed.

(* ================================================================== *)
(** * Headings on the same line *)
(* ================================================================== *)

Section SameLine.

Context {E : Externals}.

Import BTreeFacts.

Lemma insertHeading_self h l :
  exists A B, insertHeading h l = A ++ h :: B /\ l = A ++ B.
Proof.
  induction l as [|x r (A & B & Heq & Hl)]; simpl; [now exists [], []|].
  destruct (headingLine h <=? headingLine x)%Z.
  - now exists [], (x :: r).
  - exists (x :: A), B. simpl. now rewrite Heq, Hl.
Qed.

Lemma insertHeading_keeps x A h B :
  (forall b, In b B -> headingLine b <> headingLine h) ->
  exists A' B', insertHeading x (A ++ h :: B) = A' ++ h :: B'
                /\ forall b, In b B' -> headingLine b <> headingLine h.
Proof.
  intros HB. induction A as [|a A (A' & B' & Heq & HB')]; simpl.
  - destruct (Z.leb_spec (headingLine x) (headingLine h)).
    + now exists [x], B.
    + exists [], (insertHeading x B). split; [reflexivity|].
      intros b Hb. apply insertHeading_In in Hb as [->|Hb]; [lia | now apply HB].
  - destruct (headingLine x <=? headingLine a)%Z.
    + now exists (x :: a :: A), B.
    + exists (a :: A'), B'. simpl. now rewrite Heq.
Qed.

(** The sort is stable: a heading stays before the later headings of its
    line, so the last heading of a line in the outline is the last of that
    line after the sort. *)
Lemma sortHeadings_last l1 h l2 :
  (forall h', In h' l2 -> headingLine h' <> headingLine h) ->
  exists A B, sortHeadings (l1 ++ h :: l2) = A ++ h :: B
              /\ forall b, In b B -> headingLine b <> headingLine h.
Proof.
  intros Hl2. induction l1 as [|x l1 (A & B & Heq & HB)]; simpl.
  - destruct (insertHeading_self h (sortHeadings l2)) as (A & B & Heq & Hl).
    exists A, B. split; [exact Heq|]. intros b Hb. apply Hl2.
    apply (proj1 (sortHeadings_In _ _)). rewrite Hl. apply in_or_app. now right.
  - change (fold_right insertHeading [] (l1 ++ h :: l2)) with (sortHeadings (l1 ++ h :: l2)).
    rewrite Heq. now apply insertHeading_keeps.
Qed.

Lemma headingSections_get_other hs (index nlines : Z) (m : BTree.t SectionObj) k :
  (forall h, In h hs -> headingLine h <> k) ->
  BTree.get k (headingSections hs index nlines m) = BTree.get k m.
Proof.
  revert index m; induction hs as [|h r IH]; intros index m Hne; simpl; [reflexivity|].
  rewrite IH by (intros h' Hh'; apply Hne; now right).
  rewrite get_set. destruct (Z.eqb_spec k (headingLine h)) as [->|_]; [|reflexivity].
  elim (Hne h (or_introl eq_refl)). reflexivity.
Qed.

Lemma headingSections_get_last A h B (index nlines : Z) (m : BTree.t SectionObj) :
  (forall b, In b B -> headingLine b <> headingLine h) ->
  exists s, BTree.get (headingLine h) (headingSections (A ++ h :: B) index nlines m) = Some s
            /\ s_title s = heading h /\ s_level s = level h
            /\ s_ordinal s = (index + len A + 1)%Z.
Proof.
  intros HB. revert index m; induction A as [|a A IH]; intros index m.
  - simpl. rewrite headingSections_get_other by exact HB.
    rewrite get_set, Z.eqb_refl. eexists. split; [reflexivity|]. simpl.
    repeat split; auto. unfold len. simpl. lia.
  - change ((a :: A) ++ h :: B) with (a :: (A ++ h :: B)).
    cbn [headingSections].
    destruct (IH (index + 1)%Z
                (BTree.set (headingLine a)
                   {| s_ordinal := index + 1; s_title := heading a; s_level := level a;
                      s_position := {| sp_start := headingLine a;
                                       sp_end := match A ++ h :: B with
                                                 | [] => nlines - 1
                                                 | next :: _ => headingLine next - 1
                                                 end |};
                      s_blocks := []; s_links := [] |} m))
      as (s & Hget & Ht & Hl & Ho).
    exists s. split; [exact Hget|]. repeat split; auto.
    rewrite Ho. unfold len. simpl length. lia.
Qed.

Lemma buildSections_get path lines empty hs secs k s :
  buildSections path lines empty hs = Some secs ->
  BTree.get k (headingSections hs 0 (len lines) BTree.empty) = Some s ->
  BTree.get k secs = Some s.
Proof.
  unfold buildSections.
  set (sections := headingSections hs 0 (len lines) BTree.empty).
  assert (Hs : BTree.sorted sections) by (apply headingSections_sorted, sorted_nil).
  assert (Hstart : Forall (fun e => sp_start (s_position (snd e)) = fst e) sections)
    by (apply headingSections_start; constructor).
  intros Hb Hget. pose proof (get_In _ _ _ Hget) as Hin.
  destruct (BTree.getPairOrNextHigher 0 sections) as [[k0 first]|] eqn:Hfirst.
  - destruct (higher_In _ _ _ _ Hfirst) as [Hin0 Hk0].
    assert (Hst : sp_start (s_position first) = k0).
    { rewrite Forall_forall in Hstart. exact (Hstart _ Hin0). }
    rewrite Hst in Hb.
    destruct (emptylines lines 0 k0) as [[|]|] eqn:He; try discriminate;
      injection Hb as <-; [exact Hget|].
    rewrite get_set. destruct (Z.eqb_spec k 0) as [->|_]; [|exact Hget].
    exfalso.
    pose proof (higher_least _ _ _ _ Hs Hfirst 0%Z (in_map fst _ _ Hin) (Z.le_refl 0)).
    assert (Hz : k0 = 0%Z) by lia. rewrite Hz in He.
    unfold emptylines in He. simpl in He. discriminate He.
  - destruct (negb empty); injection Hb as <-; [|exact Hget].
    rewrite get_set. destruct (Z.eqb_spec k 0) as [->|_]; [|exact Hget].
    exfalso. pose proof (higher_None _ _ Hfirst 0%Z (in_map fst _ _ Hin)). lia.
Qed.

(** X19.  Headings on the same line: the section of that line is made from
    the heading that comes last in the outline's own order.  A heading of
    the outline that no later heading shares its line with has a section
    in the returned page, which starts on its line and carries its title
    and level. *)
Theorem last_heading_of_line_wins (path markdown : str) (metadata : CachedMetadata)
    (excludeExample : bool) (page : JsonMarkdownPage) (l1 l2 : list HeadingCache)
    (h : HeadingCache) :
  orEmpty (md_headings metadata) = l1 ++ h :: l2 ->
  (forall h', In h' l2 -> headingLine h' <> headingLine h) ->
  snd (markdownImport path markdown metadata excludeExample) = Some page ->
  exists s, In s (p_sections page)
            /\ sp_start (js_position s) = headingLine h
            /\ js_title s = heading h /\ js_level s = level h.
Proof.
  intros Hhs Hl2 Hpage.
  destruct (import_parts _ _ _ _ _ Hpage) as (secs & st & Hsecs & _ & _).
  destruct (page_of_sections _ _ _ excludeExample _ Hsecs) as (page' & Hp' & Hfields & _).
  rewrite Hpage in Hp'. injection Hp' as <-.
  pose proof (buildSections_start _ _ _ _ _ Hsecs) as Hstart.
  rewrite Hhs in Hsecs.
  destruct (sortHeadings_last l1 h l2 Hl2) as (A & B & Heq & HB).
  rewrite Heq in Hsecs.
  destruct (headingSections_get_last A h B 0 (len (split_nl markdown)) BTree.empty HB)
    as (s0 & Hget & Ht & Hl & _).
  pose proof (buildSections_get _ _ _ _ _ _ _ Hsecs Hget) as Hget'.
  apply get_In in Hget'.
  rewrite Forall_forall in Hstart. pose proof (Hstart _ Hget') as Hst. simpl in Hst.
  assert (Hin : In (sectionFields s0) (map exportedFields (p_sections page))).
  { rewrite Hfields. apply in_map. apply (in_map snd) in Hget'. exact Hget'. }
  apply in_map_iff in Hin as (s & Hf & Hs).
  exists s. split; [exact Hs|].
  unfold exportedFields, sectionFields in Hf. injection Hf as Ho Hti Hle Hpo.
  rewrite Hpo, Hti, Hle. auto.
Qed.

End SameLine.

(* ================================================================== *)
(** * The further properties on concrete inputs *)
(* ================================================================== *)

Section MoreExamples.

Import Sample.

#[local] Existing Instance externals.

Lemma introPage_run :
  snd (markdownImport (lit "a.md") introText introOutline false) = Some introPage.
Proof. apply valueOr_Some. vm_compute. reflexivity. Qed.

Lemma mjxContainerElements_once_witness :
  exists added,
    mjxContainerElements Nat.eq_dec [1; 2] [2; 3; 3] = [1; 2] ++ added
    /\ NoDup (mjxContainerElements Nat.eq_dec [1; 2] [2; 3; 3])
    /\ (forall x, In x added <-> In x [2; 3; 3] /\ ~ In x [1; 2])
    /\ (forall x, In x (mjxContainerElements Nat.eq_dec [1; 2] [2; 3; 3])
                  <-> In x [1; 2] \/ In x [2; 3; 3]).
Proof.
  apply (mjxContainerElements_once Nat.eq_dec [1; 2] [2; 3; 3]).
  constructor; [simpl; intros [H|[]]; discriminate H|].
  constructor; [intros [] | constructor].
Defined.

Lemma surfaces_agree_witness :
  getEquationCache (Some (mkSectionInfo 0 2)) (Some calloutPage) (mkRenderedMath true 1) 0
  = updateEquationNumber_equation calloutPage (Some 0%Z) 0 (mkRenderedMath true 1).
Proof.
  apply (surfaces_agree calloutPage (mkSectionInfo 0 2) (mkRenderedMath true 1) 0
           (valueOr (getBlockByLineNumber calloutPage 0) noBlock)).
  - apply valueOr_Some. vm_compute. reflexivity.
  - vm_compute. reflexivity.
Defined.

Lemma addLink_idempotent_witness :
  addLink (addLink [(lit "x", None)] (lit "y", None)) (lit "y", None)
  = addLink [(lit "x", None)] (lit "y", None).
Proof.
  exact (proj1 (addLink_idempotent [(lit "x", None)] (lit "y", None) eq_refl)).
Defined.

Lemma heading_order_irrelevant_witness :
  snd (markdownImport (lit "a.md") introText (swappedOutline true) false)
  = snd (markdownImport (lit "a.md") introText (swappedOutline false) false).
Proof.
  apply heading_order_irrelevant; try reflexivity.
  - constructor; [simpl; intros [H|[]]; discriminate H|].
    constructor; [intros [] | constructor].
  - constructor; [simpl; intros [H|[]]; discriminate H|].
    constructor; [intros [] | constructor].
  - intros h. simpl. tauto.
Defined.

Lemma page_sections_ascending_witness :
  StronglySorted Z.lt (map (fun s => sp_start (js_position s)) (p_sections introPage)).
Proof.
  exact (proj1 (page_sections_ascending (lit "a.md") introText introOutline false introPage
                  introPage_run)).
Defined.

Lemma section_lists_block_witness :
  (sp_start (js_position (nth 1 (p_sections introPage) noSection))
   <= sp_start (b_position (snd (nth 1 introBlocks (0%Z, noBlock)))))%Z
  /\ (sp_end (b_position (snd (nth 1 introBlocks (0%Z, noBlock))))
      <= sp_end (js_position (nth 1 (p_sections introPage) noSection)))%Z.
Proof.
  assert (Hs : In (nth 1 (p_sections introPage) noSection) (p_sections introPage)).
  { apply nth_In. replace (length (p_sections introPage)) with 2 by (vm_compute; reflexivity).
    lia. }
  assert (He : In (nth 1 introBlocks (0%Z, noBlock)) introBlocks).
  { apply nth_In. replace (length introBlocks) with 2 by (vm_compute; reflexivity). lia. }
  destruct (proj1 (section_lists_block (lit "a.md") introText introOutline false introPage
                     (nth 1 (p_sections introPage) noSection)
                     (nth 1 introBlocks (0%Z, noBlock)) introPage_run Hs He))
    as (H1 & H2 & _).
  - exists (nth 0 (js_blocks (nth 1 (p_sections introPage) noSection)) noBlock).
    split; [|vm_compute; reflexivity].
    apply nth_In.
    replace (length (js_blocks (nth 1 (p_sections introPage) noSection))) with 1
      by (vm_compute; reflexivity).
    lia.
  - split; assumption.
Defined.

Lemma page_blocks_once_witness :
  NoDup (map b_ordinal (pageBlocks introPage)).
Proof.
  exact (proj2 (page_blocks_once (lit "a.md") introText introOutline false introPage
                  introPage_run)).
Defined.

Lemma links_have_origins_witness :
  exists ld,
    In ld (orEmpty (md_links introOutline))
    /\ nth 0 (js_links (nth 1 (p_sections introPage) noSection)) ([], None)
       = Link_infer (lc_link ld)
    /\ (sp_start (js_position (nth 1 (p_sections introPage) noSection))
        <= linkLine ld
        <= sp_end (js_position (nth 1 (p_sections introPage) noSection)))%Z.
Proof.
  apply (proj1 (proj2 (links_have_origins (lit "a.md") introText introOutline false introPage
                         introPage_run))).
  - apply nth_In. replace (length (p_sections introPage)) with 2 by (vm_compute; reflexivity).
    lia.
  - apply nth_In.
    replace (length (js_links (nth 1 (p_sections introPage) noSection))) with 1
      by (vm_compute; reflexivity).
    lia.
Defined.

Lemma region_offsets_in_document_witness :
  Forall (fun r =>
            slice calloutText (startOffset r) (startOffset r + 2) = delimiter
            /\ slice calloutText (endOffset r - 2) (endOffset r) = delimiter
            /\ mathText r
               = cleanMath (slice calloutText (startOffset r + 2) (endOffset r - 2)))
         (findDisplayMathInCalloutBlock
            (getBlockText calloutText (block_ "callout" 0 0 2 30)) 0
            (loc_offset (pos_start (sc_position (block_ "callout" 0 0 2 30))))).
Proof.
  apply (region_offsets_in_document calloutText (block_ "callout" 0 0 2 30) 0).
  simpl. lia.
Defined.

Lemma last_heading_of_line_wins_witness :
  exists s, In s (p_sections twinPage)
            /\ sp_start (js_position s) = 2%Z
            /\ js_title s = lit "B" /\ js_level s = 2%Z.
Proof.
  apply (last_heading_of_line_wins (lit "a.md") introText twinOutline false twinPage
           [heading_ "A" 1 2] [] (heading_ "B" 2 2)).
  - reflexivity.
  - intros h' [].
  - apply valueOr_Some. vm_compute. reflexivity.
Defined.

(** A blank document whose outline has a heading beyond its end: the run
    raises. *)
Example blank_document_raises :
  isSome (snd (markdownImport (lit "a.md") (lit " ") (outline [heading_ "H" 1 3] [] []) false))
  = false.
Proof. vm_compute. reflexivity. Qed.

End MoreExamples.
